(** * eventLog: the event codec, the filter validator, ingestion and query

    A shallow embedding of [models.go] ([Event], [QueryFilters],
    [Event.String], [ParseEvent], [IsEmpty], [Validate]) and of the event
    store ([EventStore.Record], [EventStore.Query]), together with the
    parts of the Go standard library and of the SQL collaborator they call.

    Go strings are byte sequences: they are modelled as [list ascii].
    Go [int64] values are modelled in [Z], counters ([int]) in [nat]. *)

From Stdlib Require Import Ascii String.
From Stdlib Require Import List ZArith Lia Bool Arith.
From Stdlib Require Import Sorting.Sorted Sorting.Permutation.
Import ListNotations.

(* ================================================================== *)
(** * Part I: definitions *)
(* ================================================================== *)

Definition gostring := list ascii.

(** [str "..."] is the Go string literal with those bytes. *)
Definition str (s : string) : gostring := list_ascii_of_string s.

Definition gostring_eqb (a b : gostring) : bool :=
  if list_eq_dec ascii_dec a b then true else false.

(** ** Package [strings] *)

Module Strings.

(** [strings.HasPrefix]. *)
Fixpoint HasPrefix (s prefix : gostring) {struct prefix} : bool :=
  match prefix, s with
  | [], _ => true
  | _ :: _, [] => false
  | p :: prefix', c :: s' => Ascii.eqb p c && HasPrefix s' prefix'
  end.

(** [strings.Contains]: some suffix of [s] starts with [sub]. *)
Fixpoint Contains (s sub : gostring) : bool :=
  HasPrefix s sub ||
  match s with
  | [] => false
  | _ :: s' => Contains s' sub
  end.

(** The scan behind [strings.Split(s, sep)] for a non-empty [sep]: the
    leftmost occurrence of [sep] ends the current field, the bytes of
    that occurrence are passed over ([skip] counts those still to pass),
    and the scan resumes behind it.  The result is never empty. *)
Fixpoint split_from (sep : gostring) (skip : nat) (s : gostring)
  : list gostring :=
  match s with
  | [] => [[]]
  | c :: s' =>
      match skip with
      | S k => split_from sep k s'
      | O =>
          if HasPrefix s sep
          then [] :: split_from sep (length sep - 1) s'
          else match split_from sep 0 s' with
               | p :: ps => (c :: p) :: ps
               | [] => [[c]]
               end
      end
  end.

(** [strings.Split(s, sep)].  With an empty separator Go explodes the
    string into its UTF-8 sequences; the codec never does that, and the
    model returns the bytes one by one. *)
Definition Split (s sep : gostring) : list gostring :=
  match sep with
  | [] => map (fun c => [c]) s
  | _ :: _ => split_from sep 0 s
  end.

(** [strings.Join]. *)
Fixpoint Join (parts : list gostring) (sep : gostring) : gostring :=
  match parts with
  | [] => []
  | [p] => p
  | p :: ps => p ++ sep ++ Join ps sep
  end.

(** White space as [unicode.IsSpace] sees it on UTF-8 text: the six
    ASCII characters, and the encodings of U+0085, U+00A0, U+1680,
    U+2000..U+200A, U+2028, U+2029, U+202F, U+205F and U+3000. *)
Definition asciiSpace (c : ascii) : bool :=
  match N_of_ascii c with
  | 9%N | 10%N | 11%N | 12%N | 13%N | 32%N => true
  | _ => false
  end.

Definition byte (n : N) : ascii := ascii_of_N n.

Definition wideSpaces : list gostring :=
  [ [byte 194; byte 133]; [byte 194; byte 160];
    [byte 225; byte 154; byte 128];
    [byte 226; byte 128; byte 128]; [byte 226; byte 128; byte 129];
    [byte 226; byte 128; byte 130]; [byte 226; byte 128; byte 131];
    [byte 226; byte 128; byte 132]; [byte 226; byte 128; byte 133];
    [byte 226; byte 128; byte 134]; [byte 226; byte 128; byte 135];
    [byte 226; byte 128; byte 136]; [byte 226; byte 128; byte 137];
    [byte 226; byte 128; byte 138];
    [byte 226; byte 128; byte 168]; [byte 226; byte 128; byte 169];
    [byte 226; byte 128; byte 175]; [byte 226; byte 129; byte 159];
    [byte 227; byte 128; byte 128] ]%N.

(** Length in bytes of the white-space character [s] starts with, [0]
    when it starts with none; [wide] lists the multi-byte ones. *)
Definition spaceWidth (wide : list gostring) (s : gostring) : nat :=
  match s with
  | [] => 0
  | c :: _ =>
      if asciiSpace c then 1
      else match find (HasPrefix s) wide with
           | Some w => length w
           | None => 0
           end
  end.

(** Drop white-space characters from the front of [s] until another
    character comes; [skip] counts the bytes of the current white-space
    character still to drop. *)
Fixpoint dropSpaces (wide : list gostring) (skip : nat) (s : gostring)
  : gostring :=
  match s with
  | [] => []
  | _ :: s' =>
      match skip with
      | S k => dropSpaces wide k s'
      | O =>
          match spaceWidth wide s with
          | O => s
          | S k => dropSpaces wide k s'
          end
      end
  end.

(** [strings.TrimLeftFunc(s, unicode.IsSpace)]. *)
Definition TrimLeft (s : gostring) : gostring :=
  dropSpaces wideSpaces 0 s.

(** [strings.TrimRightFunc(s, unicode.IsSpace)].  Read backwards, the
    encodings of the wide spaces are the reversed byte sequences, so
    trimming on the right is trimming the reversed text on the left
    against the reversed table. *)
Definition TrimRight (s : gostring) : gostring :=
  rev (dropSpaces (map (@rev ascii) wideSpaces) 0 (rev s)).

(** [strings.TrimSpace]. *)
Definition TrimSpace (s : gostring) : gostring := TrimRight (TrimLeft s).

End Strings.

(** ** Package [strconv] and decimal printing *)

Module Strconv.

Local Open Scope Z_scope.

Definition isDigit (c : ascii) : bool :=
  let n := Z.of_N (N_of_ascii c) in (48 <=? n) && (n <=? 57).

Definition digitVal (c : ascii) : Z := Z.of_N (N_of_ascii c) - 48.

Definition digitChar (d : Z) : ascii := ascii_of_N (Z.to_N (d + 48)).

(** The number a run of digits stands for, continuing from [n]. *)
Definition digitsValue (n : Z) (s : gostring) : Z :=
  fold_left (fun n c => n * 10 + digitVal c) s n.

Inductive NumError := ErrSyntax | ErrRange.

Definition maxUint64 : Z := 18446744073709551615.
Definition cutoffInt64 : Z := 9223372036854775808.

(** The digit loop of [strconv.ParseUint(s, 10, 64)]: any other byte is
    a syntax error, and the first step that leaves the 64-bit range is a
    range error. *)
Fixpoint parseDigits (n : Z) (s : gostring) : Z + NumError :=
  match s with
  | [] => inl n
  | c :: s' =>
      if isDigit c then
        let n1 := n * 10 + digitVal c in
        if maxUint64 <? n1 then inr ErrRange else parseDigits n1 s'
      else inr ErrSyntax
  end.

Definition ParseUint (s : gostring) : Z + NumError :=
  match s with
  | [] => inr ErrSyntax
  | _ :: _ => parseDigits 0 s
  end.

(** [strconv.ParseInt(s, 10, 64)]. *)
Definition ParseInt (s : gostring) : Z + NumError :=
  match s with
  | [] => inr ErrSyntax
  | c :: s' =>
      let neg := Ascii.eqb c "-"%char in
      let body := if Ascii.eqb c "+"%char || neg then s' else s in
      match ParseUint body with
      | inr e => inr e
      | inl un =>
          if negb neg && (cutoffInt64 <=? un) then inr ErrRange
          else if neg && (cutoffInt64 <? un) then inr ErrRange
          else inl (if neg then - un else un)
      end
  end.

(** Decimal digits of a non-negative number, most significant first;
    [fuel] bounds the number of digits. *)
Fixpoint utoa_from (fuel : nat) (n : Z) (acc : gostring) : gostring :=
  match fuel with
  | O => acc
  | S fuel' =>
      let acc' := digitChar (n mod 10) :: acc in
      if n <? 10 then acc' else utoa_from fuel' (n / 10) acc'
  end.

Definition utoa (n : Z) : gostring :=
  utoa_from (S (Z.to_nat (Z.log2 n))) n [].

(** The verb [%d] of [fmt.Sprintf] on an [int64], [strconv.FormatInt]. *)
Definition FormatInt (n : Z) : gostring :=
  if n <? 0 then "-"%char :: utoa (- n) else utoa n.

End Strconv.

(** ** Package [time]

    A [time.Time] is modelled by the civil reading it prints in its own
    zone together with the offset of that zone in seconds east of UTC;
    [instant] is the number of seconds since 0001-01-01T00:00:00Z that Go
    keeps internally and compares. *)

Module Time.

Local Open Scope Z_scope.

Record Time := mkTime {
  year : Z; month : Z; day : Z;
  hour : Z; minute : Z; second : Z;
  nsec : Z;
  offset : Z
}.

Definition isLeap (y : Z) : bool :=
  (y mod 4 =? 0) && (negb (y mod 100 =? 0) || (y mod 400 =? 0)).

(** [daysBefore[m-1]]: days of a common year before month [m]. *)
Definition daysBefore (m : Z) : Z :=
  match m with
  | 1 => 0 | 2 => 31 | 3 => 59 | 4 => 90 | 5 => 120 | 6 => 151
  | 7 => 181 | 8 => 212 | 9 => 243 | 10 => 273 | 11 => 304 | 12 => 334
  | _ => 365
  end.

Definition daysIn (m y : Z) : Z :=
  if (m =? 2) && isLeap y then 29
  else daysBefore (m + 1) - daysBefore m.

(** Days from 0001-01-01 to the first of January of year [y]. *)
Definition daysSinceEpoch (y : Z) : Z :=
  let p := y - 1 in 365 * p + p / 4 - p / 100 + p / 400.

Definition dayNumber (y m d : Z) : Z :=
  daysSinceEpoch y + daysBefore m
  + (if isLeap y && (3 <=? m) then 1 else 0) + (d - 1).

Definition instant (t : Time) : Z :=
  dayNumber (year t) (month t) (day t) * 86400
  + hour t * 3600 + minute t * 60 + second t - offset t.

(** [t.IsZero()]: the instant January 1, year 1, 00:00:00 UTC. *)
Definition IsZero (t : Time) : bool :=
  (instant t =? 0) && (nsec t =? 0).

(** [t.After(u)]. *)
Definition After (t u : Time) : bool :=
  (instant u <? instant t)
  || ((instant t =? instant u) && (nsec u <? nsec t)).

(** The zero value [time.Time{}]. *)
Definition zero : Time := mkTime 1 1 1 0 0 0 0 0.

(** [appendInt]: decimal, zero-padded on the left to [width]. *)
Definition appendInt (x : Z) (width : nat) : gostring :=
  let ds := Strconv.utoa (Z.abs x) in
  (if x <? 0 then ["-"%char] else [])
  ++ repeat "0"%char (width - length ds) ++ ds.

(** The zone of layout [Z07:00]. *)
Definition formatZone (off : Z) : gostring :=
  if off =? 0 then ["Z"%char]
  else
    let zone := Z.quot off 60 in
    (if zone <? 0 then ["-"%char] else ["+"%char])
    ++ appendInt (Z.abs zone / 60) 2 ++ [":"%char]
    ++ appendInt (Z.abs zone mod 60) 2.

(** [t.Format(time.RFC3339)], layout [2006-01-02T15:04:05Z07:00]. *)
Definition Format (t : Time) : gostring :=
  appendInt (year t) 4 ++ ["-"%char] ++ appendInt (month t) 2
  ++ ["-"%char] ++ appendInt (day t) 2 ++ ["T"%char]
  ++ appendInt (hour t) 2 ++ [":"%char] ++ appendInt (minute t) 2
  ++ [":"%char] ++ appendInt (second t) 2 ++ formatZone (offset t).

(** The local [parseUint] of [parseRFC3339]: all bytes are digits and
    the number lies in [lo..hi]. *)
Definition parseUint (s : gostring) (lo hi : Z) : option Z :=
  if forallb Strconv.isDigit s then
    let x := Strconv.digitsValue 0 s in
    if (x <? lo) || (hi <? x) then None else Some x
  else None.

(** [parseNanoseconds]: at most nine digits of the fraction count, and
    they are scaled to nanoseconds. *)
Definition parseNanoseconds (digits : gostring) : Z :=
  let ds := firstn 9 digits in
  Strconv.digitsValue 0 ds * 10 ^ Z.of_nat (9 - length ds).

Fixpoint spanDigits (s : gostring) : gostring * gostring :=
  match s with
  | c :: s' =>
      if Strconv.isDigit c
      then let (ds, r) := spanDigits s' in (c :: ds, r)
      else ([], s)
  | [] => ([], [])
  end.

(** The optional fraction behind the seconds: a period and at least one
    digit.  Returns the nanoseconds and the rest of the text. *)
Definition parseFraction (s : gostring) : Z * gostring :=
  match s with
  | p :: c :: _ =>
      if Ascii.eqb p "."%char && Strconv.isDigit c
      then let (ds, r) := spanDigits (tl s) in (parseNanoseconds ds, r)
      else (0, s)
  | _ => (0, s)
  end.

(** The zone: [Z], or a sign, two digits of hours below 24, a colon and
    two digits of minutes below 60.  Returns the offset in seconds. *)
Definition parseZone (s : gostring) : option Z :=
  match s with
  | [z] => if Ascii.eqb z "Z"%char then Some 0 else None
  | [sg; h1; h2; c; m1; m2] =>
      match parseUint [h1; h2] 0 23, parseUint [m1; m2] 0 59 with
      | Some hr, Some mm =>
          if (Ascii.eqb sg "-"%char || Ascii.eqb sg "+"%char)
             && Ascii.eqb c ":"%char
          then Some (if Ascii.eqb sg "-"%char
                     then - ((hr * 60 + mm) * 60)
                     else (hr * 60 + mm) * 60)
          else None
      | _, _ => None
      end
  | _ => None
  end.

(** [time.Parse(time.RFC3339, s)], as [parseRFC3339] decides it.  Text
    that [parseRFC3339] refuses goes to Go's general layout parser,
    which accepts a few more spellings outside RFC 3339 (a one-digit
    hour, a comma before the fraction); the model refuses them. *)
Definition Parse (s : gostring) : option Time :=
  match s with
  | y1 :: y2 :: y3 :: y4 :: d1 :: mo1 :: mo2 :: d2 :: dy1 :: dy2 :: sepT
    :: h1 :: h2 :: c1 :: mi1 :: mi2 :: c2 :: s1 :: s2 :: rest =>
      match parseUint [y1; y2; y3; y4] 0 9999,
            parseUint [mo1; mo2] 1 12 with
      | Some y, Some mo =>
          match parseUint [dy1; dy2] 1 (daysIn mo y),
                parseUint [h1; h2] 0 23,
                parseUint [mi1; mi2] 0 59,
                parseUint [s1; s2] 0 59 with
          | Some dy, Some h, Some mi, Some sc =>
              if Ascii.eqb d1 "-"%char && Ascii.eqb d2 "-"%char
                 && Ascii.eqb sepT "T"%char
                 && Ascii.eqb c1 ":"%char && Ascii.eqb c2 ":"%char
              then
                let (ns, zone) := parseFraction rest in
                match parseZone zone with
                | Some off => Some (mkTime y mo dy h mi sc ns off)
                | None => None
                end
              else None
          | _, _, _, _ => None
          end
      | _, _ => None
      end
  | _ => None
  end.

End Time.

(** ** Package [encoding/json]: the syntax scanner and [RawMessage] *)

Module JSON.

Inductive Step :=
| BeginValueOrEmpty | BeginValue | BeginStringOrEmpty | BeginString
| EndValue | EndTop
| InString | InStringEsc
| InStringEscU | InStringEscU1 | InStringEscU12 | InStringEscU123
| Neg | Num1 | Num0 | Dot | Dot0 | Exp | ExpSign | Exp0
| LitT | LitTr | LitTru
| LitF | LitFa | LitFal | LitFals
| LitN | LitNu | LitNul
| StateError.

Inductive ParseState := ParseObjectKey | ParseObjectValue | ParseArrayValue.

(** The [scanner]: the current step function, the stack of open
    composites (innermost first), whether the top-level value has ended,
    and whether an error was recorded. *)
Record scanner := mkScanner {
  step : Step;
  parseState : list ParseState;
  endTop : bool;
  err : bool
}.

Definition maxNestingDepth : nat := Z.to_nat 10000.

Definition reset : scanner := mkScanner BeginValue [] false false.

Definition setStep (st : Step) (s : scanner) : scanner :=
  mkScanner st (parseState s) (endTop s) (err s).

Definition error (s : scanner) : scanner :=
  mkScanner StateError (parseState s) (endTop s) true.

Definition isSpace (c : ascii) : bool :=
  match c with
  | " "%char | "009"%char | "013"%char | "010"%char => true
  | _ => false
  end.

Definition isHex (c : ascii) : bool :=
  let n := N_of_ascii c in
  ((48 <=? n) && (n <=? 57) || (97 <=? n) && (n <=? 102)
   || (65 <=? n) && (n <=? 70))%N.

Definition is19 (c : ascii) : bool :=
  let n := N_of_ascii c in ((49 <=? n) && (n <=? 57))%N.

Definition pushParseState (p : ParseState) (st : Step) (s : scanner)
  : scanner :=
  let stack := p :: parseState s in
  if length stack <=? maxNestingDepth
  then mkScanner st stack (endTop s) (err s)
  else error (mkScanner st stack (endTop s) (err s)).

Definition popParseState (s : scanner) : scanner :=
  match tl (parseState s) with
  | [] => mkScanner EndTop [] true (err s)
  | rest => mkScanner EndValue rest (endTop s) (err s)
  end.

Definition stateEndTop (s : scanner) (c : ascii) : scanner :=
  if isSpace c then s else error s.

Definition stateEndValue (s : scanner) (c : ascii) : scanner :=
  match parseState s with
  | [] => stateEndTop (mkScanner EndTop [] true (err s)) c
  | ps :: rest =>
      if isSpace c then setStep EndValue s
      else
        match ps with
        | ParseObjectKey =>
            if Ascii.eqb c ":"%char
            then mkScanner BeginValue (ParseObjectValue :: rest)
                           (endTop s) (err s)
            else error s
        | ParseObjectValue =>
            if Ascii.eqb c ","%char
            then mkScanner BeginString (ParseObjectKey :: rest)
                           (endTop s) (err s)
            else if Ascii.eqb c "}"%char then popParseState s
            else error s
        | ParseArrayValue =>
            if Ascii.eqb c ","%char then setStep BeginValue s
            else if Ascii.eqb c "]"%char then popParseState s
            else error s
        end
  end.

Definition stateBeginValue (s : scanner) (c : ascii) : scanner :=
  if isSpace c then s
  else
    match c with
    | "{"%char =>
        pushParseState ParseObjectKey BeginStringOrEmpty s
    | "["%char =>
        pushParseState ParseArrayValue BeginValueOrEmpty s
    | "034"%char => setStep InString s
    | "-"%char => setStep Neg s
    | "0"%char => setStep Num0 s
    | "t"%char => setStep LitT s
    | "f"%char => setStep LitF s
    | "n"%char => setStep LitN s
    | _ => if is19 c then setStep Num1 s else error s
    end.

Definition stateBeginString (s : scanner) (c : ascii) : scanner :=
  if isSpace c then s
  else if Ascii.eqb c "034"%char then setStep InString s
  else error s.

Definition expect (want : ascii) (next : Step) (s : scanner) (c : ascii)
  : scanner :=
  if Ascii.eqb c want then setStep next s else error s.

Definition stateNum0 (s : scanner) (c : ascii) : scanner :=
  if Ascii.eqb c "."%char then setStep Dot s
  else if Ascii.eqb c "e"%char || Ascii.eqb c "E"%char
       then setStep Exp s
  else stateEndValue s c.

Definition stateESign (s : scanner) (c : ascii) : scanner :=
  if Strconv.isDigit c then setStep Exp0 s else error s.

(** One call [s.step(s, c)]. *)
Definition stepByte (s : scanner) (c : ascii) : scanner :=
  match step s with
  | BeginValueOrEmpty =>
      if isSpace c then s
      else if Ascii.eqb c "]"%char then stateEndValue s c
      else stateBeginValue s c
  | BeginValue => stateBeginValue s c
  | BeginStringOrEmpty =>
      if isSpace c then s
      else if Ascii.eqb c "}"%char
           then stateEndValue
                  (mkScanner (step s)
                     (ParseObjectValue :: tl (parseState s))
                     (endTop s) (err s)) c
      else stateBeginString s c
  | BeginString => stateBeginString s c
  | EndValue => stateEndValue s c
  | EndTop => stateEndTop s c
  | InString =>
      if Ascii.eqb c "034"%char then setStep EndValue s
      else if Ascii.eqb c "\"%char then setStep InStringEsc s
      else if (N_of_ascii c <? 32)%N then error s
      else s
  | InStringEsc =>
      match c with
      | "b"%char | "f"%char | "n"%char | "r"%char | "t"%char
      | "\"%char | "/"%char | "034"%char => setStep InString s
      | "u"%char => setStep InStringEscU s
      | _ => error s
      end
  | InStringEscU => if isHex c then setStep InStringEscU1 s else error s
  | InStringEscU1 => if isHex c then setStep InStringEscU12 s else error s
  | InStringEscU12 =>
      if isHex c then setStep InStringEscU123 s else error s
  | InStringEscU123 => if isHex c then setStep InString s else error s
  | Neg =>
      if Ascii.eqb c "0"%char then setStep Num0 s
      else if is19 c then setStep Num1 s
      else error s
  | Num1 => if Strconv.isDigit c then s else stateNum0 s c
  | Num0 => stateNum0 s c
  | Dot => if Strconv.isDigit c then setStep Dot0 s else error s
  | Dot0 =>
      if Strconv.isDigit c then s
      else if Ascii.eqb c "e"%char || Ascii.eqb c "E"%char
           then setStep Exp s
      else stateEndValue s c
  | Exp =>
      if Ascii.eqb c "+"%char || Ascii.eqb c "-"%char
      then setStep ExpSign s
      else stateESign s c
  | ExpSign => stateESign s c
  | Exp0 => if Strconv.isDigit c then s else stateEndValue s c
  | LitT => expect "r" LitTr s c
  | LitTr => expect "u" LitTru s c
  | LitTru => expect "e" EndValue s c
  | LitF => expect "a" LitFa s c
  | LitFa => expect "l" LitFal s c
  | LitFal => expect "s" LitFals s c
  | LitFals => expect "e" EndValue s c
  | LitN => expect "u" LitNu s c
  | LitNu => expect "l" LitNul s c
  | LitNul => expect "l" EndValue s c
  | StateError => error s
  end.

(** [s.eof()]: the input is complete when the top-level value has ended,
    possibly only once a closing space is fed. *)
Definition eofOk (s : scanner) : bool :=
  if err s then false
  else if endTop s then true
  else endTop (stepByte s " "%char).

(** [checkValid(data, scan) == nil], which is also [json.Valid]. *)
Definition Valid (data : gostring) : bool :=
  eofOk (fold_left stepByte data reset).

Definition trimLeftSpaces (s : gostring) : gostring :=
  let fix go (s : gostring) : gostring :=
    match s with
    | c :: s' => if isSpace c then go s' else s
    | [] => []
    end in go s.

(** [json.Unmarshal(data, &payload)] with [payload] a [json.RawMessage]:
    invalid text is an error; otherwise [RawMessage.UnmarshalJSON]
    receives the bytes of the value, from its first byte to its last,
    which is [data] without the white space around the value. *)
Definition UnmarshalRaw (data : gostring) : option gostring :=
  if Valid data
  then Some (rev (trimLeftSpaces (rev (trimLeftSpaces data))))
  else None.

End JSON.

(** ** [models.go] *)

(** [type Event struct]. *)
Record Event := mkEvent {
  Timestamp : Time.Time;
  UserID : Z;
  EventType : gostring;
  Payload : gostring
}.

(** [type QueryFilters struct].  A bound that was not given is the zero
    [time.Time], an event type that was not given the empty string. *)
Record QueryFilters := mkQueryFilters {
  FilterEventType : gostring;
  From : Time.Time;
  To : Time.Time
}.

(** The errors [ParseEvent] builds with [fmt.Errorf], under the names the
    specification gives them:
    - [MalformedLine n]: ["invalid format: expected 4 parts, got n"];
    - [InvalidTimestamp]: ["invalid timestamp: ..."];
    - [InvalidUserID]: ["invalid user ID: ..."];
    - [EmptyEventType]: ["empty event type"];
    - [InvalidPayload]: ["invalid JSON payload: ..."]. *)
Inductive DecodeError :=
| MalformedLine (got : nat)
| InvalidTimestamp
| InvalidUserID (cause : Strconv.NumError)
| EmptyEventType
| InvalidPayload.

Definition fieldSep : gostring := str " | ".

(** [func (e *Event) String() string]:
    [fmt.Sprintf("%s | %d | %s | %s", ...)]. *)
Definition Event_String (e : Event) : gostring :=
  Time.Format (Timestamp e) ++ fieldSep
  ++ Strconv.FormatInt (UserID e) ++ fieldSep
  ++ EventType e ++ fieldSep
  ++ Payload e.

(** [func ParseEvent(line string)], returning the event or the error. *)
Definition ParseEvent (line : gostring) : Event + DecodeError :=
  match Strings.Split line fieldSep with
  | [p0; p1; p2; p3] =>
      match Time.Parse (Strings.TrimSpace p0) with
      | None => inr InvalidTimestamp
      | Some timestamp =>
          match Strconv.ParseInt (Strings.TrimSpace p1) with
          | inr e => inr (InvalidUserID e)
          | inl userID =>
              let eventType := Strings.TrimSpace p2 in
              match eventType with
              | [] => inr EmptyEventType
              | _ :: _ =>
                  let payloadStr := Strings.TrimSpace p3 in
                  match JSON.UnmarshalRaw payloadStr with
                  | None => inr InvalidPayload
                  | Some payload =>
                      inl (mkEvent timestamp userID eventType payload)
                  end
              end
          end
      end
  | parts => inr (MalformedLine (length parts))
  end.

(** [func (qf *QueryFilters) IsEmpty() bool]. *)
Definition QueryFilters_IsEmpty (qf : QueryFilters) : bool :=
  match FilterEventType qf with [] => true | _ :: _ => false end
  && Time.IsZero (From qf) && Time.IsZero (To qf).

(** The error of [Validate]: ["from time cannot be after to time"]. *)
Inductive FilterError := InvalidRange.

(** [func (qf *QueryFilters) Validate() error]; [None] is [nil]. *)
Definition QueryFilters_Validate (qf : QueryFilters) : option FilterError :=
  if negb (Time.IsZero (From qf)) && negb (Time.IsZero (To qf))
     && Time.After (From qf) (To qf)
  then Some InvalidRange
  else None.

(** ** The storage collaborator

    The [events] table, its transactions and the one query shape the
    store issues.  The durable state is the log of committed transactions;
    the rows of the table are their concatenation, in insertion order. *)

Module SQL.

(** A row of [events] (the [id] column is the position in the table). *)
Record Row := mkRow {
  user_id : Z;
  timestamp : gostring;
  event_type : gostring;
  payload : gostring
}.

Inductive TxState :=
| TxOpen (staged : list Row)
| TxDone.

(** [batches]: the rows of every committed transaction, oldest first.
    [txs]: every transaction begun on the handle; a [*sql.Tx] is its
    index. *)
Record DB := mkDB {
  batches : list (list Row);
  txs : list TxState
}.

Definition table (db : DB) : list Row := concat (batches db).

Definition empty : DB := mkDB [] [].

Fixpoint setNth {A} (n : nat) (x : A) (l : list A) : list A :=
  match l, n with
  | [], _ => []
  | _ :: l', O => x :: l'
  | y :: l', S n' => y :: setNth n' x l'
  end.

(** [db.Begin()]. *)
Definition Begin (db : DB) : DB * nat :=
  (mkDB (batches db) (txs db ++ [TxOpen []]), length (txs db)).

(** [tx.Stmt(insertStmt).Exec(...)]: stage one row in the transaction. *)
Definition Exec (db : DB) (tx : nat) (r : Row) : DB :=
  match nth_error (txs db) tx with
  | Some (TxOpen staged) =>
      mkDB (batches db) (setNth tx (TxOpen (staged ++ [r])) (txs db))
  | _ => db
  end.

(** [tx.Commit()]: the staged rows become durable, all at once. *)
Definition Commit (db : DB) (tx : nat) : DB :=
  match nth_error (txs db) tx with
  | Some (TxOpen staged) =>
      mkDB (batches db ++ [staged]) (setNth tx TxDone (txs db))
  | _ => db
  end.

(** [tx.Rollback()], also what a failed [Commit] leaves behind: the
    staged rows are dropped.  On a finished transaction it does nothing
    ([sql.ErrTxDone]). *)
Definition Rollback (db : DB) (tx : nat) : DB :=
  match nth_error (txs db) tx with
  | Some (TxOpen _) => mkDB (batches db) (setNth tx TxDone (txs db))
  | _ => db
  end.

(** Which storage calls of one [Record] fail: the [n]-th [Begin], the
    [n]-th [Exec], the [n]-th [Commit] of the call, counted from 0. *)
Record Faults := mkFaults {
  begin_fails : nat -> bool;
  exec_fails : nat -> bool;
  commit_fails : nat -> bool
}.

Definition healthy : Faults :=
  mkFaults (fun _ => false) (fun _ => false) (fun _ => false).

(** Byte-wise comparison, the [BINARY] collation of a [TEXT] column. *)
Fixpoint text_compare (a b : gostring) : comparison :=
  match a, b with
  | [], [] => Eq
  | [], _ :: _ => Lt
  | _ :: _, [] => Gt
  | x :: a', y :: b' =>
      match N.compare (N_of_ascii x) (N_of_ascii y) with
      | Eq => text_compare a' b'
      | c => c
      end
  end.

Definition text_leb (a b : gostring) : bool :=
  match text_compare a b with Gt => false | _ => true end.

(** The conjuncts of the [WHERE] clause, with their arguments. *)
Inductive Cond :=
| UserIs (u : Z)                (* user_id = ? *)
| TypeIs (t : gostring)         (* AND event_type = ? *)
| TimestampGe (s : gostring)    (* AND timestamp >= ? *)
| TimestampLe (s : gostring).   (* AND timestamp <= ? *)

Definition holds (c : Cond) (r : Row) : bool :=
  match c with
  | UserIs u => (user_id r =? u)%Z
  | TypeIs t => gostring_eqb (event_type r) t
  | TimestampGe s => text_leb s (timestamp r)
  | TimestampLe s => text_leb (timestamp r) s
  end.

(** [ORDER BY timestamp]: rows with equal text keep the table order. *)
Fixpoint insertRow (r : Row) (l : list Row) : list Row :=
  match l with
  | [] => [r]
  | x :: l' =>
      if text_leb (timestamp r) (timestamp x)
      then r :: x :: l'
      else x :: insertRow r l'
  end.

Fixpoint orderByTimestamp (l : list Row) : list Row :=
  match l with
  | [] => []
  | r :: l' => insertRow r (orderByTimestamp l')
  end.

(** [SELECT timestamp, user_id, event_type, payload FROM events
    WHERE ... ORDER BY timestamp]. *)
Definition Select (db : DB) (where_ : list Cond) : list Row :=
  orderByTimestamp
    (filter (fun r => forallb (fun c => holds c r) where_) (table db)).

(** Which storage calls of one [Query] fail: the query itself, the
    [Scan] of the [n]-th row, or the iteration behind [n] rows. *)
Record QueryFaults := mkQueryFaults {
  query_fails : bool;
  scan_fails : nat -> bool;
  rows_err : option nat
}.

Definition healthyQuery : QueryFaults :=
  mkQueryFaults false (fun _ => false) None.

End SQL.

(** ** The event store *)

(** What [Record] prints on standard output. *)
Inductive Msg :=
| Warning (e : DecodeError)   (* "Warning: Skipping invalid line: <e>" *)
| Processed (count : nat).    (* "Processed <count> events..." *)

(** The errors [Record] returns. *)
Inductive RecordError :=
| FailedOpen          (* "failed to open file" *)
| FailedBegin         (* "failed to begin transaction" *)
| FailedInsert        (* "failed to insert event" *)
| FailedCommitBatch   (* "failed to commit batch" *)
| FailedBeginNew      (* "failed to begin new transaction" *)
| FailedRead          (* "error reading file" *)
| FailedCommitFinal.  (* "failed to commit final batch" *)

(** The file as [bufio.Scanner] delivers it: the lines it yields, and
    whether [scanner.Err()] is set when it stops. *)
Record Stream := mkStream {
  lines : list gostring;
  read_error : bool
}.

Definition maxBatchSize : nat := Z.to_nat 10000.

(** The row [stmt.Exec] writes for an event. *)
Definition rowOf (e : Event) : SQL.Row :=
  SQL.mkRow (UserID e) (Time.Format (Timestamp e)) (EventType e) (Payload e).

(** The variables of the loop of [Record]: the store, the current
    transaction [tx], [count], [batchSize], the number of batches
    committed so far, and the output. *)
Record RecordState := mkRecordState {
  rs_db : SQL.DB;
  rs_tx : nat;
  rs_count : nat;
  rs_batchSize : nat;
  rs_commits : nat;
  rs_out : list Msg
}.

(** [for scanner.Scan() { ... }], for a batch threshold [B]. *)
Fixpoint recordLoop (F : SQL.Faults) (B : nat) (ls : list gostring)
  (st : RecordState) : RecordState * option RecordError :=
  match ls with
  | [] => (st, None)
  | line :: rest =>
      match line with
      | [] => recordLoop F B rest st
      | _ :: _ =>
          match ParseEvent line with
          | inr e =>
              recordLoop F B rest
                (mkRecordState (rs_db st) (rs_tx st) (rs_count st)
                   (rs_batchSize st) (rs_commits st)
                   (rs_out st ++ [Warning e]))
          | inl event =>
              if SQL.exec_fails F (rs_count st)
              then (st, Some FailedInsert)
              else
                let db1 := SQL.Exec (rs_db st) (rs_tx st) (rowOf event) in
                let count := S (rs_count st) in
                let batchSize := S (rs_batchSize st) in
                if B <=? batchSize then
                  if SQL.commit_fails F (rs_commits st)
                  then (mkRecordState (SQL.Rollback db1 (rs_tx st))
                          (rs_tx st) count batchSize (rs_commits st)
                          (rs_out st),
                        Some FailedCommitBatch)
                  else
                    let db2 := SQL.Commit db1 (rs_tx st) in
                    let out := rs_out st ++ [Processed count] in
                    let commits := S (rs_commits st) in
                    if SQL.begin_fails F commits
                    then (mkRecordState db2 (rs_tx st) count batchSize
                            commits out,
                          Some FailedBeginNew)
                    else
                      let (db3, tx) := SQL.Begin db2 in
                      recordLoop F B rest
                        (mkRecordState db3 tx count 0 commits out)
                else
                  recordLoop F B rest
                    (mkRecordState db1 (rs_tx st) count batchSize
                       (rs_commits st) (rs_out st))
          end
      end
  end.

(** The result of [Record]: the returned count and error, the store it
    leaves, and what it printed. *)
Record RecordResult := mkRecordResult {
  rr_count : nat;
  rr_err : option RecordError;
  rr_db : SQL.DB;
  rr_out : list Msg
}.

(** [func (es *EventStore) Record(filename string) (int, error)] for a
    batch threshold [B]; [file] is [None] when [os.Open] fails.
    [defer tx.Rollback()] binds the transaction begun first, so that is
    the one rolled back on return, whatever [tx] holds by then. *)
Definition recordWith (B : nat) (F : SQL.Faults) (db : SQL.DB)
  (file : option Stream) : RecordResult :=
  match file with
  | None => mkRecordResult 0 (Some FailedOpen) db []
  | Some f =>
      if SQL.begin_fails F 0
      then mkRecordResult 0 (Some FailedBegin) db []
      else
        let (db0, tx0) := SQL.Begin db in
        let (st, e) :=
          recordLoop F B (lines f) (mkRecordState db0 tx0 0 0 0 []) in
        match e with
        | Some _ =>
            mkRecordResult (rs_count st) e
              (SQL.Rollback (rs_db st) tx0) (rs_out st)
        | None =>
            if read_error f
            then mkRecordResult (rs_count st) (Some FailedRead)
                   (SQL.Rollback (rs_db st) tx0) (rs_out st)
            else if SQL.commit_fails F (rs_commits st)
            then mkRecordResult (rs_count st) (Some FailedCommitFinal)
                   (SQL.Rollback (SQL.Rollback (rs_db st) (rs_tx st)) tx0)
                   (rs_out st)
            else mkRecordResult (rs_count st) None
                   (SQL.Rollback (SQL.Commit (rs_db st) (rs_tx st)) tx0)
                   (rs_out st)
        end
  end.

(** [Record] with [const maxBatchSize = 10000]. *)
Definition EventStore_Record : SQL.Faults -> SQL.DB -> option Stream
  -> RecordResult :=
  recordWith maxBatchSize.

(** The errors [Query] returns. *)
Inductive QueryError :=
| InvalidFilters (e : FilterError)   (* "invalid filters: <e>" *)
| QueryFailed                        (* "query failed" *)
| ScanFailed                         (* "failed to scan row" *)
| BadStoredTimestamp                 (* "failed to parse timestamp" *)
| RowsError.                         (* "rows iteration error" *)

(** The [WHERE] clause [Query] assembles from the filters that are set. *)
Definition whereClause (userID : Z) (filters : QueryFilters)
  : list SQL.Cond :=
  [SQL.UserIs userID]
  ++ (match FilterEventType filters with
      | [] => []
      | _ :: _ => [SQL.TypeIs (FilterEventType filters)]
      end)
  ++ (if negb (Time.IsZero (From filters))
      then [SQL.TimestampGe (Time.Format (From filters))] else [])
  ++ (if negb (Time.IsZero (To filters))
      then [SQL.TimestampLe (Time.Format (To filters))] else []).

(** [for rows.Next() { ... }]: scan the row, parse its timestamp, print
    the event.  Returns [count], the events printed, and the error. *)
Fixpoint queryLoop (F : SQL.QueryFaults) (rows : list SQL.Row)
  (count : nat) (out : list Event)
  : nat * list Event * option QueryError :=
  match rows with
  | [] => (count, out, None)
  | r :: rest =>
      if SQL.scan_fails F count then (count, out, Some ScanFailed)
      else
        match Time.Parse (SQL.timestamp r) with
        | None => (count, out, Some BadStoredTimestamp)
        | Some t =>
            let event :=
              mkEvent t (SQL.user_id r) (SQL.event_type r) (SQL.payload r) in
            queryLoop F rest (S count) (out ++ [event])
        end
  end.

(** The result of [Query]: the returned count and error, the events it
    yielded in order (each printed with [Event.String]), and the queries
    it sent to the store. *)
Record QueryResult := mkQueryResult {
  qr_count : nat;
  qr_err : option QueryError;
  qr_events : list Event;
  qr_queries : list (list SQL.Cond)
}.

Definition qr_printed (r : QueryResult) : list gostring :=
  map Event_String (qr_events r).

(** [func (es *EventStore) Query(userID int64, filters QueryFilters)
    (int, error)]. *)
Definition EventStore_Query (F : SQL.QueryFaults) (db : SQL.DB)
  (userID : Z) (filters : QueryFilters) : QueryResult :=
  match QueryFilters_Validate filters with
  | Some e => mkQueryResult 0 (Some (InvalidFilters e)) [] []
  | None =>
      let where_ := whereClause userID filters in
      if SQL.query_fails F
      then mkQueryResult 0 (Some QueryFailed) [] [where_]
      else
        let rows := SQL.Select db where_ in
        let delivered :=
          match SQL.rows_err F with
          | Some n => firstn n rows
          | None => rows
          end in
        match queryLoop F delivered 0 [] with
        | (count, out, Some e) => mkQueryResult count (Some e) out [where_]
        | (count, out, None) =>
            match SQL.rows_err F with
            | Some n =>
                if n <? length rows
                then mkQueryResult count (Some RowsError) out [where_]
                else mkQueryResult count None out [where_]
            | None => mkQueryResult count None out [where_]
            end
        end
  end.

(** ** Vocabulary of the statements *)

(** A run of digits as [%d] prints a non-negative number: not empty, and
    no leading zero except for ["0"] itself. *)
Definition canonicalDigits (s : gostring) : bool :=
  forallb Strconv.isDigit s
  && match s with
     | [] => false
     | [_] => true
     | c :: _ :: _ => negb (Ascii.eqb c "0"%char)
     end.

(** A decimal [int64] as [%d] prints it: canonical digits, with a minus
    sign in front for a negative number (so neither ["+7"], ["007"] nor
    ["-0"]), and within the 64-bit range. *)
Definition canonicalInt (s : gostring) : bool :=
  match s with
  | "-"%char :: ds =>
      canonicalDigits ds && negb (gostring_eqb ds (str "0"))
  | _ => canonicalDigits s
  end
  && match Strconv.ParseInt s with inl _ => true | inr _ => false end.

(** An RFC 3339 timestamp as [Format(time.RFC3339)] prints it: accepted
    by [time.Parse], without fractional seconds, and with the zero offset
    written [Z]. *)
Definition canonicalTimestamp (s : gostring) : bool :=
  match Time.Parse s with
  | Some t =>
      match skipn 19 s with
      | [z] => Ascii.eqb z "Z"%char
      | [_; _; _; _; _; _] => negb (Time.offset t =? 0)%Z
      | _ => false
      end
  | None => false
  end.

(** A [time.Time] that [Format(time.RFC3339)] prints without loss: a
    civil reading with a four-digit year, whole seconds, and an offset of
    whole minutes below 24 hours. *)
Definition canonicalTime (t : Time.Time) : bool :=
  ((0 <=? Time.year t) && (Time.year t <=? 9999)
   && (1 <=? Time.month t) && (Time.month t <=? 12)
   && (1 <=? Time.day t)
   && (Time.day t <=? Time.daysIn (Time.month t) (Time.year t))
   && (0 <=? Time.hour t) && (Time.hour t <=? 23)
   && (0 <=? Time.minute t) && (Time.minute t <=? 59)
   && (0 <=? Time.second t) && (Time.second t <=? 59)
   && (Time.nsec t =? 0)
   && (Time.offset t mod 60 =? 0)
   && (-86400 <? Time.offset t) && (Time.offset t <? 86400))%Z.

(** A field of a line that [strings.Split] gives back whole when it is
    followed by the separator: it neither contains [" | "] nor ends with
    [" |"]. *)
Definition splitsClean (field : gostring) : bool :=
  negb (Strings.Contains (field ++ str " |") fieldSep).

(** A byte of a multi-byte UTF-8 sequence. *)
Definition highByte (c : ascii) : bool := (128 <=? N_of_ascii c)%N.

(** A byte that white space can consist of. *)
Definition spaceByte (c : ascii) : bool :=
  Strings.asciiSpace c || highByte c.

(** A byte that is neither part of white space nor the bar of the field
    separator. *)
Definition solidChar (c : ascii) : bool :=
  negb (spaceByte c) && negb (Ascii.eqb c "|"%char).

(** A table of multi-byte white space: no entry is empty, and all their
    bytes are high. *)
Definition wideOk (wide : list gostring) : Prop :=
  forall w, In w wide -> w <> [] /\ Forall (fun c => highByte c = true) w.

(** The line of the specification's scenario,
    [2023-08-14T10:00:00Z | 42 | login | {"ip":"10.0.0.1"}], and its
    payload. *)
Definition scenarioPayload : gostring :=
  str "{" ++ ["034"%char] ++ str "ip" ++ ["034"%char] ++ str ":"
  ++ ["034"%char] ++ str "10.0.0.1" ++ ["034"%char] ++ str "}".

Definition scenarioLine : gostring :=
  str "2023-08-14T10:00:00Z | 42 | login | " ++ scenarioPayload.

Definition int64 (n : Z) : Prop :=
  (- 9223372036854775808 <= n <= 9223372036854775807)%Z.

(** The events of the lines that [Record] stages: the lines that are not
    empty and that decode, in order. *)
Fixpoint decoded (ls : list gostring) : list Event :=
  match ls with
  | [] => []
  | [] :: rest => decoded rest
  | line :: rest =>
      match ParseEvent line with
      | inl e => e :: decoded rest
      | inr _ => decoded rest
      end
  end.

(** The decode errors of the lines that are not empty, in order. *)
Fixpoint decodeErrors (ls : list gostring) : list DecodeError :=
  match ls with
  | [] => []
  | [] :: rest => decodeErrors rest
  | line :: rest =>
      match ParseEvent line with
      | inl _ => decodeErrors rest
      | inr e => e :: decodeErrors rest
      end
  end.

Definition nonEmpty (line : gostring) : bool :=
  match line with [] => false | _ :: _ => true end.

(** The decode errors among the messages printed. *)
Fixpoint warningsOf (out : list Msg) : list DecodeError :=
  match out with
  | [] => []
  | Warning e :: rest => e :: warningsOf rest
  | Processed _ :: rest => warningsOf rest
  end.

(** The text order of the stored timestamps, and the order of instants. *)
Definition textLe (a b : Event) : Prop :=
  SQL.text_leb (Time.Format (Timestamp a)) (Time.Format (Timestamp b)) = true.

Definition instantLe (a b : Event) : Prop :=
  (Time.instant (Timestamp a) <= Time.instant (Timestamp b))%Z.

(** The order [ORDER BY timestamp] puts the rows in. *)
Definition rowLe (a b : SQL.Row) : Prop :=
  SQL.text_leb (SQL.timestamp a) (SQL.timestamp b) = true.

(** The event [Query] builds from a row whose timestamp parses. *)
Definition eventOf (r : SQL.Row) (t : Time.Time) : Event :=
  mkEvent t (SQL.user_id r) (SQL.event_type r) (SQL.payload r).

(** Every stored timestamp is in the form [Record] writes. *)
Definition storedCanonical (db : SQL.DB) : Prop :=
  Forall (fun r => canonicalTimestamp (SQL.timestamp r) = true)
         (SQL.table db).

(** ** [GetStats] *)

(** [SELECT COUNT( * ) FROM events]. *)
Definition countAll (db : SQL.DB) : nat := length (SQL.table db).

(** [SELECT COUNT(DISTINCT user_id) FROM events]. *)
Definition countDistinctUsers (db : SQL.DB) : nat :=
  length (nodup Z.eq_dec (map SQL.user_id (SQL.table db))).

(** [MIN] and [MAX] over a [TEXT] column: the least and the greatest text
    in byte order, [NULL] ([None]) over no rows. *)
Fixpoint minText (l : list gostring) : option gostring :=
  match l with
  | [] => None
  | s :: l' =>
      match minText l' with
      | None => Some s
      | Some m => Some (if SQL.text_leb s m then s else m)
      end
  end.

Fixpoint maxText (l : list gostring) : option gostring :=
  match l with
  | [] => None
  | s :: l' =>
      match maxText l' with
      | None => Some s
      | Some m => Some (if SQL.text_leb m s then s else m)
      end
  end.

(** The map [GetStats] returns: ["total_events"], ["unique_users"], and
    ["time_range"] with its ["from"] and ["to"]. *)
Record Stats := mkStats {
  total_events : nat;
  unique_users : nat;
  time_range_from : gostring;
  time_range_to : gostring
}.

(** The errors [GetStats] passes on: the [n]-th [QueryRow] failed, or
    [Scan] met [NULL] where it fills a [string] ("converting NULL to
    string is unsupported"). *)
Inductive StatsError :=
| StatsQueryFailed (n : nat)
| StatsNullScan.

(** [func (es *EventStore) GetStats()]; [fails n] tells whether the
    [n]-th [QueryRow(...).Scan(...)] of the call fails in the store. *)
Definition EventStore_GetStats (fails : nat -> bool) (db : SQL.DB)
  : Stats + StatsError :=
  if fails 0 then inr (StatsQueryFailed 0)
  else
    let totalEvents := countAll db in
    if fails 1 then inr (StatsQueryFailed 1)
    else
      let uniqueUsers := countDistinctUsers db in
      if fails 2 then inr (StatsQueryFailed 2)
      else
        match minText (map SQL.timestamp (SQL.table db)),
              maxText (map SQL.timestamp (SQL.table db)) with
        | Some minTime, Some maxTime =>
            inl (mkStats totalEvents uniqueUsers minTime maxTime)
        | _, _ => inr StatsNullScan
        end.

(** ** [main.go]: the filters of [handleQuery] *)

(** The errors of [handleQuery] before the store is opened. *)
Inductive FlagError :=
| InvalidUserArg     (* "Error: Invalid user ID: <arg>" *)
| InvalidFromFlag    (* "Error: Invalid from time format: <flag>" *)
| InvalidToFlag.     (* "Error: Invalid to time format: <flag>" *)

(** The filters [handleQuery] builds from the values of the flags
    [--type], [--from] and [--to]; an empty value is a flag not given. *)
Definition filtersOfFlags (eventType fromStr toStr : gostring)
  : QueryFilters + FlagError :=
  match
    match fromStr with
    | [] => Some Time.zero
    | _ :: _ => Time.Parse fromStr
    end
  with
  | None => inr InvalidFromFlag
  | Some from =>
      match
        match toStr with
        | [] => Some Time.zero
        | _ :: _ => Time.Parse toStr
        end
      with
      | None => inr InvalidToFlag
      | Some to => inl (mkQueryFilters eventType from to)
      end
  end.

(** How [handleQuery] ends: with one of its own errors, with the store
    failing to open, or with the result of [Query] (exit status 1 when
    the result carries an error, 0 otherwise). *)
Inductive QueryOutcome :=
| FlagsRejected (e : FlagError)
| StoreNotOpened
| Queried (r : QueryResult).

(** [handleQuery] behind the parsing of the flags: [userArg] is
    [args[0]], [store] what [NewEventStore] opens, if it does. *)
Definition handleQuery (userArg eventType fromStr toStr : gostring)
  (store : option SQL.DB) (F : SQL.QueryFaults) : QueryOutcome :=
  match Strconv.ParseInt userArg with
  | inr _ => FlagsRejected InvalidUserArg
  | inl userID =>
      match filtersOfFlags eventType fromStr toStr with
      | inr e => FlagsRejected e
      | inl filters =>
          match store with
          | None => StoreNotOpened
          | Some db => Queried (EventStore_Query F db userID filters)
          end
      end
  end.

Definition exitStatus (o : QueryOutcome) : Z :=
  match o with
  | Queried r => match qr_err r with None => 0 | Some _ => 1 end
  | _ => 1
  end.

(** ** [generate_test_data.go]: the weighted choice *)

(** The loop of [weightedChoice]: the index of the first weight at which
    the running sum exceeds [r]. *)
Fixpoint weightedLoop (weights : list Z) (r cumulative : Z) (i : nat)
  : option nat :=
  match weights with
  | [] => None
  | weight :: rest =>
      let cumulative := (cumulative + weight)%Z in
      if (r <? cumulative)%Z then Some i
      else weightedLoop rest r cumulative (S i)
  end.

(** [func weightedChoice(choices, weights, totalWeight)], with [r] the
    value [rand.Intn(totalWeight)] draws.  [None] is a panic:
    [rand.Intn] on a total that is not positive, or an index outside
    [choices]. *)
Definition weightedChoice (choices : list gostring) (weights : list Z)
  (totalWeight r : Z) : option gostring :=
  if (totalWeight <=? 0)%Z then None
  else
    match weightedLoop weights r 0 0 with
    | Some i => nth_error choices i
    | None => nth_error choices 0
    end.

(** The tables of [generateTestData]. *)
Definition eventTypes : list gostring :=
  [str "login"; str "purchase"; str "logout"; str "page_view";
   str "search"; str "download"; str "signup"; str "error"].

Definition eventWeights : list Z := [15; 10; 12; 30; 20; 5; 3; 5]%Z.

Definition sumWeights (weights : list Z) : Z := fold_right Z.add 0%Z weights.

(** ** More vocabulary *)

(** A reading with its nanoseconds dropped, as [Format] prints it. *)
Definition withoutNsec (t : Time.Time) : Time.Time :=
  Time.mkTime (Time.year t) (Time.month t) (Time.day t) (Time.hour t)
              (Time.minute t) (Time.second t) 0 (Time.offset t).

(** The line [Query] prints for a row whose timestamp is canonical. *)
Definition rowLine (r : SQL.Row) : gostring :=
  SQL.timestamp r ++ fieldSep ++ Strconv.FormatInt (SQL.user_id r)
  ++ fieldSep ++ SQL.event_type r ++ fieldSep ++ SQL.payload r.

(** The rows a query of [userID] with [filters] asks for. *)
Definition matches (userID : Z) (filters : QueryFilters) (r : SQL.Row)
  : bool :=
  forallb (fun c => SQL.holds c r) (whereClause userID filters).

(** The counts of the progress messages among the messages printed. *)
Fixpoint progressOf (out : list Msg) : list nat :=
  match out with
  | [] => []
  | Warning _ :: rest => progressOf rest
  | Processed count :: rest => count :: progressOf rest
  end.

Definition txDone (t : SQL.TxState) : bool :=
  match t with SQL.TxDone => true | SQL.TxOpen _ => false end.

(* ================================================================== *)
(** * Part II: properties *)
(* ================================================================== *)

(** ** Digits and decimal numbers *)

Section Digits.

Local Open Scope Z_scope.
Import Strconv.

Lemma isDigit_cases (c : ascii) :
  isDigit c = true ->
  c = "0"%char \/ c = "1"%char \/ c = "2"%char \/ c = "3"%char
  \/ c = "4"%char \/ c = "5"%char \/ c = "6"%char \/ c = "7"%char
  \/ c = "8"%char \/ c = "9"%char.
Proof.
  destruct c as [[] [] [] [] [] [] [] []]; cbv; intros H;
    try discriminate H; tauto.
Qed.

Lemma isDigit_digitVal (c : ascii) :
  isDigit c = true -> 0 <= digitVal c <= 9 /\ digitChar (digitVal c) = c.
Proof.
  intros H; destruct (isDigit_cases c H) as [E|[E|[E|[E|[E|[E|[E|[E|[E|E]]]]]]]]];
    subst c; cbv; intuition discriminate.
Qed.

Lemma digitChar_isDigit (d : Z) :
  0 <= d <= 9 -> isDigit (digitChar d) = true /\ digitVal (digitChar d) = d.
Proof.
  intros H.
  assert (d = 0 \/ d = 1 \/ d = 2 \/ d = 3 \/ d = 4 \/ d = 5 \/ d = 6
          \/ d = 7 \/ d = 8 \/ d = 9) as E by lia.
  destruct E as [E|[E|[E|[E|[E|[E|[E|[E|[E|E]]]]]]]]]; subst d;
    split; reflexivity.
Qed.

Lemma digitsValue_app (n : Z) (s1 s2 : gostring) :
  digitsValue n (s1 ++ s2) = digitsValue (digitsValue n s1) s2.
Proof. unfold digitsValue; apply fold_left_app. Qed.

Lemma digitsValue_ge (s : gostring) :
  forall n, 0 <= n -> forallb isDigit s = true -> n <= digitsValue n s.
Proof.
  induction s as [|c s IH]; intros n Hn Hs; simpl in *; [lia|].
  apply andb_prop in Hs as [Hc Hs].
  pose proof (isDigit_digitVal c Hc) as [Hd _].
  specialize (IH (n * 10 + digitVal c) ltac:(lia) Hs).
  unfold digitsValue in *. lia.
Qed.

(** Without overflow, the digit loop returns the number read. *)
Lemma parseDigits_value (s : gostring) :
  forall n, 0 <= n -> forallb isDigit s = true ->
    digitsValue n s <= maxUint64 ->
    parseDigits n s = inl (digitsValue n s).
Proof.
  induction s as [|c s IH]; intros n Hn Hs Hmax; simpl in *; [reflexivity|].
  apply andb_prop in Hs as [Hc Hs]. rewrite Hc.
  pose proof (isDigit_digitVal c Hc) as [Hd _].
  pose proof (digitsValue_ge s (n * 10 + digitVal c) ltac:(lia) Hs) as Hge.
  change (digitsValue n (c :: s)) with (digitsValue (n * 10 + digitVal c) s) in Hmax.
  destruct (Z.ltb_spec maxUint64 (n * 10 + digitVal c)); [lia|].
  apply IH; [lia|assumption|assumption].
Qed.

(** What the digit loop returns is the number read. *)
Lemma parseDigits_inl (s : gostring) :
  forall n v, 0 <= n <= maxUint64 -> parseDigits n s = inl v ->
    forallb isDigit s = true /\ v = digitsValue n s
    /\ 0 <= v <= maxUint64.
Proof.
  induction s as [|c s IH]; intros n v Hn H; simpl in *.
  - inversion H; subst. repeat split; try reflexivity; lia.
  - destruct (isDigit c) eqn:Hc; [|discriminate].
    destruct (Z.ltb_spec maxUint64 (n * 10 + digitVal c)); [discriminate|].
    pose proof (isDigit_digitVal c Hc) as [Hd _].
    destruct (IH (n * 10 + digitVal c) v ltac:(lia) H) as (Hs & Hv & Hm).
    split; [exact Hs|]. split; [exact Hv|exact Hm].
Qed.

Lemma utoa_from_acc (fuel : nat) :
  forall n acc, utoa_from fuel n acc = utoa_from fuel n [] ++ acc.
Proof.
  induction fuel as [|f IH]; intros n acc; simpl; [reflexivity|].
  destruct (n <? 10); [reflexivity|].
  rewrite (IH _ (_ :: acc)), (IH _ [_]), <- app_assoc. reflexivity.
Qed.

Lemma utoa_from_fuel (f1 : nat) :
  forall f2 n acc,
    0 <= n < 10 ^ Z.of_nat (S f1) -> n < 10 ^ Z.of_nat (S f2) ->
    utoa_from (S f1) n acc = utoa_from (S f2) n acc.
Proof.
  induction f1 as [|f1 IH]; intros f2 n acc H1 H2.
  - simpl. change (10 ^ Z.of_nat 1) with 10 in H1.
    destruct (Z.ltb_spec n 10); [reflexivity|lia].
  - cbn [utoa_from]. destruct (Z.ltb_spec n 10); [reflexivity|].
    destruct f2 as [|f2].
    + change (10 ^ Z.of_nat 1) with 10 in H2. lia.
    + apply IH.
      * split; [apply Z.div_pos; lia|].
        apply Z.div_lt_upper_bound; [lia|].
        rewrite <- Z.pow_succ_r by lia. rewrite <- Nat2Z.inj_succ. lia.
      * apply Z.div_lt_upper_bound; [lia|].
        rewrite <- Z.pow_succ_r by lia. rewrite <- Nat2Z.inj_succ. lia.
Qed.

Lemma utoa_fuel_enough (n : Z) :
  0 <= n -> n < 10 ^ Z.of_nat (S (Z.to_nat (Z.log2 n))).
Proof.
  intros Hn. rewrite Nat2Z.inj_succ, Z2Nat.id by apply Z.log2_nonneg.
  destruct (Z.eq_dec n 0) as [->|Hz].
  - reflexivity.
  - pose proof (Z.log2_spec n ltac:(lia)) as [_ Hlt].
    eapply Z.lt_le_trans; [exact Hlt|].
    apply Z.pow_le_mono_l. lia.
Qed.

(** The recursion [utoa] follows, free of fuel. *)
Lemma utoa_step (n : Z) :
  0 <= n ->
  utoa n = if n <? 10 then [digitChar (n mod 10)]
           else utoa (n / 10) ++ [digitChar (n mod 10)].
Proof.
  intros Hn. unfold utoa at 1. cbn [utoa_from].
  destruct (Z.ltb_spec n 10); [reflexivity|].
  rewrite utoa_from_acc. f_equal.
  pose proof (utoa_fuel_enough n Hn) as Hf.
  assert (0 <= n / 10) as Hq by (apply Z.div_pos; lia).
  pose proof (utoa_fuel_enough (n / 10) Hq) as Hf'.
  destruct (Z.to_nat (Z.log2 n)) as [|k] eqn:Ek.
  - change (10 ^ Z.of_nat 1) with 10 in Hf. lia.
  - unfold utoa. apply utoa_from_fuel.
    + split; [assumption|].
      apply Z.div_lt_upper_bound; [lia|].
      rewrite <- Z.pow_succ_r by lia. rewrite <- Nat2Z.inj_succ. lia.
    + assumption.
Qed.

Lemma utoa_small (d : Z) : 0 <= d <= 9 -> utoa d = [digitChar d].
Proof.
  intros H. rewrite utoa_step by lia.
  destruct (Z.ltb_spec d 10); [|lia]. rewrite Z.mod_small by lia. reflexivity.
Qed.

(** [utoa] prints digits, and reading them gives the number back. *)
Lemma utoa_spec (n : Z) :
  0 <= n ->
  forallb isDigit (utoa n) = true /\ digitsValue 0 (utoa n) = n.
Proof.
  revert n. apply (Zlt_0_ind (fun n =>
    forallb isDigit (utoa n) = true /\ digitsValue 0 (utoa n) = n)).
  intros n IH Hn. rewrite utoa_step by assumption.
  pose proof (Z.mod_pos_bound n 10 ltac:(lia)) as Hm.
  pose proof (digitChar_isDigit (n mod 10) ltac:(lia)) as [Hd Hv].
  destruct (Z.ltb_spec n 10).
  - simpl. rewrite Hd. split; [reflexivity|].
    unfold digitsValue; simpl. rewrite Hv. apply Z.mod_small; lia.
  - destruct (IH (n / 10)) as [IH1 IH2].
    { split; [apply Z.div_pos; lia|apply Z.div_lt; lia]. }
    split.
    + rewrite forallb_app, IH1. simpl. rewrite Hd. reflexivity.
    + rewrite digitsValue_app, IH2. unfold digitsValue; simpl.
      rewrite Hv. pose proof (Z.div_mod n 10 ltac:(lia)). lia.
Qed.

Lemma utoa_nonempty (n : Z) : 0 <= n -> utoa n <> [].
Proof.
  intros Hn. rewrite utoa_step by assumption.
  destruct (n <? 10); [discriminate|].
  intros E. apply app_eq_nil in E as [_ E]. discriminate E.
Qed.

(** A canonical run of digits is printed back as it was read. *)
Lemma utoa_digitsValue (s : gostring) :
  canonicalDigits s = true -> utoa (digitsValue 0 s) = s.
Proof.
  induction s as [|c s IH] using rev_ind; intros H.
  - discriminate H.
  - unfold canonicalDigits in H. apply andb_prop in H as [Hd Hc].
    rewrite forallb_app in Hd. apply andb_prop in Hd as [Hds Hdc].
    simpl in Hdc. rewrite andb_true_r in Hdc.
    pose proof (isDigit_digitVal c Hdc) as [Hr Hch].
    rewrite digitsValue_app. unfold digitsValue at 1. simpl.
    fold (digitsValue 0 s).
    pose proof (digitsValue_ge s 0 ltac:(lia) Hds) as Hge.
    destruct s as [|c0 s].
    + simpl. unfold digitsValue; simpl. rewrite utoa_small by lia.
      rewrite Hch. reflexivity.
    + assert (canonicalDigits (c0 :: s) = true /\ 1 <= digitsValue 0 (c0 :: s))
        as [Hcan Hpos].
      { unfold canonicalDigits. rewrite Hds. simpl in Hc |- *.
        simpl in Hds. apply andb_prop in Hds as [Hd0 Hds].
        pose proof (isDigit_digitVal c0 Hd0) as [Hr0 _].
        assert (c0 <> "0"%char) as Hne.
        { destruct s; simpl in Hc; destruct (Ascii.eqb_spec c0 "0"); 
            try discriminate; assumption. }
        assert (1 <= digitVal c0) as H1.
        { destruct (isDigit_cases c0 Hd0) as [E|[E|[E|[E|[E|[E|[E|[E|[E|E]]]]]]]]];
            subst c0; try congruence; cbv; discriminate. }
        split.
        - destruct s; [reflexivity|]. 
          destruct (Ascii.eqb_spec c0 "0"); [contradiction|reflexivity].
        - change (digitsValue 0 (c0 :: s)) with (digitsValue (digitVal c0) s).
          pose proof (digitsValue_ge s (digitVal c0) ltac:(lia) Hds).
          lia. }
      rewrite utoa_step by lia.
      destruct (Z.ltb_spec (digitsValue 0 (c0 :: s) * 10 + digitVal c) 10); [lia|].
      replace ((digitsValue 0 (c0 :: s) * 10 + digitVal c) / 10)
        with (digitsValue 0 (c0 :: s))
        by (apply Z.div_unique with (r := digitVal c); lia).
      replace ((digitsValue 0 (c0 :: s) * 10 + digitVal c) mod 10)
        with (digitVal c)
        by (apply Z.mod_unique with (q := digitsValue 0 (c0 :: s)); lia).
      rewrite IH by assumption. rewrite Hch. reflexivity.
Qed.

Lemma utoa_canonical (n : Z) : 0 <= n -> canonicalDigits (utoa n) = true.
Proof.
  revert n. apply (Zlt_0_ind (fun n => canonicalDigits (utoa n) = true)).
  intros n IH Hn. unfold canonicalDigits.
  rewrite (proj1 (utoa_spec n Hn)). simpl.
  rewrite utoa_step by assumption.
  destruct (Z.ltb_spec n 10); [reflexivity|].
  assert (0 <= n / 10 < n) as Hq
    by (split; [apply Z.div_pos; lia|apply Z.div_lt; lia]).
  specialize (IH _ Hq). unfold canonicalDigits in IH.
  apply andb_prop in IH as [_ IH].
  destruct (utoa (n / 10)) as [|c0 [|c1 r]] eqn:E.
  - discriminate IH.
  - simpl. 
    assert (1 <= n / 10) as H1 by (apply Z.div_le_lower_bound; lia).
    pose proof (proj2 (utoa_spec (n / 10) ltac:(lia))) as Hv.
    rewrite E in Hv. unfold digitsValue in Hv; simpl in Hv.
    destruct (Ascii.eqb_spec c0 "0"); [|reflexivity].
    subst c0. assert (digitVal "0" = 0) as D0 by reflexivity.
    rewrite D0 in Hv. lia.
  - simpl. exact IH.
Qed.

End Digits.

Section DecimalFields.

Local Open Scope Z_scope.
Import Strconv.

Lemma isDigit_not_sign (c : ascii) :
  isDigit c = true ->
  Ascii.eqb c "-" = false /\ Ascii.eqb c "+" = false.
Proof.
  intros H.
  destruct (isDigit_cases c H) as [E|[E|[E|[E|[E|[E|[E|[E|[E|E]]]]]]]]];
    subst c; split; reflexivity.
Qed.

Lemma utoa_head (n : Z) :
  0 <= n -> exists c s, utoa n = c :: s /\ isDigit c = true.
Proof.
  intros Hn. pose proof (utoa_nonempty n Hn) as Hne.
  pose proof (proj1 (utoa_spec n Hn)) as Hd.
  destruct (utoa n) as [|c s]; [contradiction|].
  simpl in Hd. apply andb_prop in Hd as [Hc _]. eauto.
Qed.

Lemma ParseUint_utoa (n : Z) :
  0 <= n <= maxUint64 -> ParseUint (utoa n) = inl n.
Proof.
  intros Hn. destruct (utoa_spec n (proj1 Hn)) as [Hd Hv].
  pose proof (utoa_nonempty n (proj1 Hn)) as Hne.
  unfold ParseUint. destruct (utoa n) as [|c s] eqn:E; [contradiction|].
  rewrite parseDigits_value; rewrite ?Hv; try assumption; try reflexivity; lia.
Qed.

(** [ParseInt] reads back what [%d] prints. *)
Lemma ParseInt_FormatInt (n : Z) :
  int64 n -> ParseInt (FormatInt n) = inl n.
Proof.
  unfold int64, FormatInt. intros Hn.
  destruct (Z.ltb_spec n 0).
  - unfold ParseInt. simpl.
    rewrite ParseUint_utoa by (unfold maxUint64; lia).
    unfold cutoffInt64.
    destruct (Z.ltb_spec 9223372036854775808 (- n)); [lia|].
    f_equal. lia.
  - destruct (utoa_head n H) as (c & s & E & Hc).
    destruct (isDigit_not_sign c Hc) as [Hm Hp].
    unfold ParseInt. rewrite E. cbv beta iota zeta. rewrite Hm, Hp.
    cbn [orb negb andb]. rewrite <- E.
    rewrite ParseUint_utoa by (unfold maxUint64; lia).
    unfold cutoffInt64.
    destruct (Z.leb_spec 9223372036854775808 n); [lia|reflexivity].
Qed.

Lemma ParseUint_inl (s : gostring) (v : Z) :
  ParseUint s = inl v ->
  forallb isDigit s = true /\ v = digitsValue 0 s /\ 0 <= v <= maxUint64
  /\ s <> [].
Proof.
  unfold ParseUint. destruct s as [|c s]; [discriminate|].
  intros H. apply parseDigits_inl in H; [|unfold maxUint64; lia].
  destruct H as (H1 & H2 & H3). repeat split; try assumption; try lia.
  discriminate.
Qed.


Lemma canonicalDigits_head (s : gostring) :
  canonicalDigits s = true ->
  exists c r, s = c :: r /\ isDigit c = true.
Proof.
  unfold canonicalDigits. intros H. apply andb_prop in H as [Hd Hc].
  destruct s as [|c r]; [discriminate|].
  simpl in Hd. apply andb_prop in Hd as [Hd _]. eauto.
Qed.

(** [%d] prints a canonical decimal back as it was read. *)
Lemma FormatInt_ParseInt (s : gostring) :
  canonicalInt s = true ->
  exists n, ParseInt s = inl n /\ FormatInt n = s.
Proof.
  unfold canonicalInt. intros H. apply andb_prop in H as [Hshape Hok].
  destruct (ParseInt s) as [n|] eqn:Ep; [|discriminate].
  exists n. split; [reflexivity|].
  unfold ParseInt in Ep. destruct s as [|c s]; [discriminate|].
  destruct (Ascii.eqb_spec c "-") as [->|Hne].
  - simpl in Ep. apply andb_prop in Hshape as [Hcan Hnz].
    destruct (ParseUint s) as [un|] eqn:Eu; [|discriminate].
    apply ParseUint_inl in Eu as (_ & Hv & Hr & _).
    destruct (cutoffInt64 <? un); [discriminate|].
    inversion Ep; subst n. clear Ep.
    pose proof (utoa_digitsValue s Hcan) as Hu. rewrite <- Hv in Hu.
    assert (un <> 0) as Hun.
    { intros ->. rewrite <- Hu in Hnz.
      unfold gostring_eqb in Hnz.
      destruct (list_eq_dec ascii_dec (utoa 0) (str "0")) as [_|N];
        [discriminate|]. apply N. reflexivity. }
    unfold FormatInt. destruct (Z.ltb_spec (- un) 0); [|lia].
    rewrite Z.opp_involutive, Hu. reflexivity.
  - assert (canonicalDigits (c :: s) = true) as Hcan.
    { destruct c as [[] [] [] [] [] [] [] []]; try exact Hshape.
      exfalso. apply Hne. reflexivity. }
    destruct (canonicalDigits_head _ Hcan) as (c' & r & E & Hc).
    inversion E; subst c' r.
    destruct (isDigit_not_sign c Hc) as [Hm Hp].
    cbv beta iota zeta in Ep. rewrite Hp in Ep.
    cbn [orb negb andb] in Ep.
    destruct (ParseUint (c :: s)) as [un|] eqn:Eu; [|discriminate].
    apply ParseUint_inl in Eu as (_ & Hv & Hr & _).
    destruct (cutoffInt64 <=? un); [discriminate|].
    inversion Ep; subst n. clear Ep.
    unfold FormatInt. destruct (Z.ltb_spec un 0); [lia|].
    rewrite Hv. apply utoa_digitsValue. exact Hcan.
Qed.

Lemma digitsValue_zeros (k : nat) (s : gostring) :
  digitsValue 0 (repeat "0"%char k ++ s) = digitsValue 0 s.
Proof.
  induction k as [|k IH]; [reflexivity|]. simpl. exact IH.
Qed.

Lemma utoa_length (w : nat) :
  forall n, 0 <= n < 10 ^ Z.of_nat (S w) ->
    (length (utoa n) <= S w)%nat.
Proof.
  induction w as [|w IH]; intros n Hn.
  - change (10 ^ Z.of_nat 1) with 10 in Hn.
    rewrite utoa_small by lia. simpl. lia.
  - rewrite utoa_step by lia.
    destruct (Z.ltb_spec n 10); [simpl; lia|].
    rewrite length_app. simpl.
    assert (0 <= n / 10 < 10 ^ Z.of_nat (S w)) as Hq.
    { split; [apply Z.div_pos; lia|].
      apply Z.div_lt_upper_bound; [lia|].
      rewrite <- Z.pow_succ_r by lia. rewrite <- Nat2Z.inj_succ. lia. }
    specialize (IH _ Hq). lia.
Qed.

(** A non-negative number below [10^w] is printed on exactly [w]
    digits, which read back as the number. *)
Lemma appendInt_spec (w : nat) (x : Z) :
  0 <= x < 10 ^ Z.of_nat (S w) ->
  length (Time.appendInt x (S w)) = S w
  /\ forallb isDigit (Time.appendInt x (S w)) = true
  /\ digitsValue 0 (Time.appendInt x (S w)) = x.
Proof.
  intros Hx. unfold Time.appendInt.
  destruct (Z.ltb_spec x 0); [lia|]. rewrite Z.abs_eq by lia. rewrite app_nil_l.
  pose proof (utoa_length w x Hx) as Hl.
  destruct (utoa_spec x (proj1 Hx)) as [Hd Hv].
  repeat split.
  - rewrite length_app, repeat_length. lia.
  - rewrite forallb_app, Hd, andb_true_r.
    apply forallb_forall. intros c Hin. apply repeat_spec in Hin.
    subst c. reflexivity.
  - rewrite digitsValue_zeros. exact Hv.
Qed.

(** A field of digits is printed back as it was read, at its width. *)
Lemma appendInt_digitsValue (s : gostring) :
  forallb isDigit s = true -> s <> [] ->
  Time.appendInt (digitsValue 0 s) (length s) = s.
Proof.
  intros Hd Hne.
  pose proof (digitsValue_ge s 0 ltac:(lia) Hd) as Hge.
  unfold Time.appendInt.
  destruct (Z.ltb_spec (digitsValue 0 s) 0); [lia|].
  rewrite Z.abs_eq by lia. rewrite app_nil_l.
  clear H Hge. induction s as [|c s IH]; [contradiction|].
  simpl in Hd. apply andb_prop in Hd as [Hc Hd].
  destruct (canonicalDigits (c :: s)) eqn:Hcan.
  - rewrite utoa_digitsValue by assumption.
    rewrite Nat.sub_diag. reflexivity.
  - assert (c = "0"%char /\ s <> []) as [-> Hs].
    { unfold canonicalDigits in Hcan. simpl in Hcan.
      rewrite Hc, Hd in Hcan. simpl in Hcan.
      destruct s; [discriminate|]. split; [|discriminate].
      destruct (Ascii.eqb_spec c "0"); [assumption|discriminate]. }
    specialize (IH Hd Hs).
    change (digitsValue 0 ("0"%char :: s)) with (digitsValue 0 s).
    assert (length (utoa (digitsValue 0 s)) <= length s)%nat as Hl.
    { apply (f_equal (@length ascii)) in IH.
      rewrite length_app, repeat_length in IH. lia. }
    replace (length ("0"%char :: s) - length (utoa (digitsValue 0 s)))%nat
      with (S (length s - length (utoa (digitsValue 0 s))))
      by (simpl length; lia).
    simpl. f_equal. exact IH.
Qed.

Lemma parseUint_Some (s : gostring) (lo hi x : Z) :
  Time.parseUint s lo hi = Some x ->
  forallb isDigit s = true /\ x = digitsValue 0 s /\ lo <= x <= hi.
Proof.
  unfold Time.parseUint. destruct (forallb isDigit s); [|discriminate].
  destruct (Z.ltb_spec (digitsValue 0 s) lo); [discriminate|].
  destruct (Z.ltb_spec hi (digitsValue 0 s)); [discriminate|].
  simpl. intros E; inversion E. repeat split; lia.
Qed.

Lemma parseUint_appendInt (w : nat) (x lo hi : Z) :
  0 <= x < 10 ^ Z.of_nat (S w) -> lo <= x <= hi ->
  Time.parseUint (Time.appendInt x (S w)) lo hi = Some x.
Proof.
  intros Hx Hr. destruct (appendInt_spec w x Hx) as (_ & Hd & Hv).
  unfold Time.parseUint. rewrite Hd, Hv.
  destruct (Z.ltb_spec x lo); [lia|].
  destruct (Z.ltb_spec hi x); [lia|]. reflexivity.
Qed.

End DecimalFields.

(** ** RFC 3339 text and [time.Time] *)

Section Timestamps.

Local Open Scope Z_scope.
Import Strconv.

Lemma appendInt2 (x : Z) :
  0 <= x <= 99 ->
  exists a b, Time.appendInt x 2 = [a; b]
    /\ isDigit a = true /\ isDigit b = true
    /\ forall lo hi, lo <= x <= hi -> Time.parseUint [a; b] lo hi = Some x.
Proof.
  intros Hx.
  assert (0 <= x < 10 ^ Z.of_nat 2) as Hx' by (change (10 ^ Z.of_nat 2) with 100; lia).
  destruct (appendInt_spec 1 x Hx') as (Hl & Hd & _).
  destruct (Time.appendInt x 2) as [|a [|b [|c r]]] eqn:E; try discriminate Hl.
  exists a, b. simpl in Hd.
  apply andb_prop in Hd as [Ha Hd]. apply andb_prop in Hd as [Hb _].
  repeat split; try assumption.
  intros lo hi Hr. rewrite <- E. apply parseUint_appendInt; assumption.
Qed.

Lemma appendInt4 (x : Z) :
  0 <= x <= 9999 ->
  exists a b c d, Time.appendInt x 4 = [a; b; c; d]
    /\ forall lo hi, lo <= x <= hi ->
         Time.parseUint [a; b; c; d] lo hi = Some x.
Proof.
  intros Hx.
  assert (0 <= x < 10 ^ Z.of_nat 4) as Hx' by (change (10 ^ Z.of_nat 4) with 10000; lia).
  destruct (appendInt_spec 3 x Hx') as (Hl & Hd & _).
  destruct (Time.appendInt x 4) as [|a [|b [|c [|d [|e r]]]]] eqn:E;
    try discriminate Hl.
  exists a, b, c, d. split; [reflexivity|].
  intros lo hi Hr. rewrite <- E. apply parseUint_appendInt; assumption.
Qed.

(** The zone [Format] prints is read back as the same offset. *)
Lemma parseZone_formatZone (off : Z) :
  off mod 60 = 0 -> -86400 < off < 86400 ->
  Time.parseFraction (Time.formatZone off) = (0, Time.formatZone off)
  /\ Time.parseZone (Time.formatZone off) = Some off
  /\ (off = 0 /\ Time.formatZone off = ["Z"%char]
      \/ off <> 0 /\ exists a b c d e f,
           Time.formatZone off = [a; b; c; d; e; f]).
Proof.
  intros Hm Hr. unfold Time.formatZone.
  destruct (Z.eqb_spec off 0) as [->|Hnz].
  - repeat split; try reflexivity. left; split; reflexivity.
  - set (zone := Z.quot off 60).
    assert (off = 60 * zone) as Hoff.
    { unfold zone. pose proof (Z.quot_rem' off 60) as Hq.
      assert (Z.rem off 60 = 0) as Hrem.
      { apply Z.rem_divide; [lia|]. apply Z.mod_divide; [lia|exact Hm]. }
      lia. }
    assert (0 < Z.abs zone < 1440) as Hz by lia.
    pose proof (Z.div_mod (Z.abs zone) 60 ltac:(lia)) as Hdm.
    pose proof (Z.mod_pos_bound (Z.abs zone) 60 ltac:(lia)) as Hmb.
    assert (0 <= Z.abs zone / 60 <= 23) as Hh.
    { split; [apply Z.div_pos; lia|].
      apply Z.lt_succ_r. apply Z.div_lt_upper_bound; lia. }
    destruct (appendInt2 (Z.abs zone / 60) ltac:(lia))
      as (h1 & h2 & Eh & _ & _ & Ph).
    destruct (appendInt2 (Z.abs zone mod 60) ltac:(lia))
      as (m1 & m2 & Em & _ & _ & Pm).
    rewrite Eh, Em.
    destruct (Z.ltb_spec zone 0) as [Hneg|Hpos]; cbn [app].
    + split; [reflexivity|]. split.
      * unfold Time.parseZone.
        rewrite (Ph 0 23) by lia. rewrite (Pm 0 59) by lia.
        cbn [Ascii.eqb Bool.eqb orb andb]. f_equal. lia.
      * right. split; [assumption|]. do 6 eexists. reflexivity.
    + split; [reflexivity|]. split.
      * unfold Time.parseZone.
        rewrite (Ph 0 23) by lia. rewrite (Pm 0 59) by lia.
        cbn [Ascii.eqb Bool.eqb orb andb]. f_equal. lia.
      * right. split; [assumption|]. do 6 eexists. reflexivity.
Qed.

Lemma canonicalTime_bounds (t : Time.Time) :
  canonicalTime t = true ->
  0 <= Time.year t <= 9999 /\ 1 <= Time.month t <= 12
  /\ 1 <= Time.day t <= Time.daysIn (Time.month t) (Time.year t)
  /\ 0 <= Time.hour t <= 23 /\ 0 <= Time.minute t <= 59
  /\ 0 <= Time.second t <= 59 /\ Time.nsec t = 0
  /\ Time.offset t mod 60 = 0 /\ -86400 < Time.offset t < 86400.
Proof.
  unfold canonicalTime. intros H.
  repeat (apply andb_prop in H as [H ?]).
  repeat match goal with
         | X : (_ <=? _) = true |- _ => apply Z.leb_le in X
         | X : (_ <? _) = true |- _ => apply Z.ltb_lt in X
         | X : (_ =? _) = true |- _ => apply Z.eqb_eq in X
         end.
  repeat split; assumption.
Qed.

Lemma month_cases (m : Z) :
  1 <= m <= 12 ->
  m = 1 \/ m = 2 \/ m = 3 \/ m = 4 \/ m = 5 \/ m = 6 \/ m = 7 \/ m = 8
  \/ m = 9 \/ m = 10 \/ m = 11 \/ m = 12.
Proof. lia. Qed.

Lemma daysIn_bounds (m y : Z) :
  1 <= m <= 12 -> 28 <= Time.daysIn m y <= 31.
Proof.
  intros Hm. unfold Time.daysIn.
  destruct (month_cases m Hm) as [E|[E|[E|[E|[E|[E|[E|[E|[E|[E|[E|E]]]]]]]]]]];
    subst m; destruct (_ && _); cbv; split; discriminate.
Qed.

(** [Parse] reads back the reading that [Format] printed. *)
Lemma Parse_Format (t : Time.Time) :
  canonicalTime t = true -> Time.Parse (Time.Format t) = Some t.
Proof.
  intros H. apply canonicalTime_bounds in H
    as (Hy & Hmo & Hd & Hh & Hmi & Hs & Hn & Hom & Hor).
  destruct t as [y mo d h mi s n off]. cbn [Time.year Time.month Time.day
    Time.hour Time.minute Time.second Time.nsec Time.offset] in *.
  subst n. pose proof (daysIn_bounds mo y Hmo) as H31.
  unfold Time.Format. cbn [Time.year Time.month Time.day
    Time.hour Time.minute Time.second Time.nsec Time.offset].
  destruct (appendInt4 y Hy) as (y1 & y2 & y3 & y4 & Ey & Py).
  destruct (appendInt2 mo ltac:(lia)) as (mo1 & mo2 & Emo & _ & _ & Pmo).
  destruct (appendInt2 d ltac:(lia)) as (d1 & d2 & Ed & _ & _ & Pd).
  destruct (appendInt2 h ltac:(lia)) as (h1 & h2 & Eh & _ & _ & Ph).
  destruct (appendInt2 mi ltac:(lia)) as (mi1 & mi2 & Emi & _ & _ & Pmi).
  destruct (appendInt2 s ltac:(lia)) as (s1 & s2 & Es & _ & _ & Ps).
  rewrite Ey, Emo, Ed, Eh, Emi, Es. cbn [app].
  unfold Time.Parse.
  rewrite (Py 0 9999) by lia. rewrite (Pmo 1 12) by lia.
  rewrite (Pd 1 (Time.daysIn mo y)) by lia.
  rewrite (Ph 0 23) by lia. rewrite (Pmi 0 59) by lia.
  rewrite (Ps 0 59) by lia.
  cbn [Ascii.eqb Bool.eqb andb].
  destruct (parseZone_formatZone off Hom Hor) as (Hf & Hz & _).
  rewrite Hf, Hz. reflexivity.
Qed.

(** What [Format] prints is canonical text. *)
Lemma Format_canonical (t : Time.Time) :
  canonicalTime t = true -> canonicalTimestamp (Time.Format t) = true.
Proof.
  intros H. unfold canonicalTimestamp. rewrite (Parse_Format t H).
  apply canonicalTime_bounds in H
    as (Hy & Hmo & Hd & Hh & Hmi & Hs & Hn & Hom & Hor).
  pose proof (daysIn_bounds (Time.month t) (Time.year t) Hmo) as H31.
  unfold Time.Format.
  destruct (appendInt4 _ Hy) as (y1 & y2 & y3 & y4 & Ey & _).
  destruct (appendInt2 (Time.month t) ltac:(lia)) as (mo1 & mo2 & Emo & _).
  destruct (appendInt2 (Time.day t) ltac:(lia)) as (d1 & d2 & Ed & _).
  destruct (appendInt2 (Time.hour t) ltac:(lia)) as (h1 & h2 & Eh & _).
  destruct (appendInt2 (Time.minute t) ltac:(lia)) as (mi1 & mi2 & Emi & _).
  destruct (appendInt2 (Time.second t) ltac:(lia)) as (s1 & s2 & Es & _).
  rewrite Ey, Emo, Ed, Eh, Emi, Es. cbn [app skipn].
  destruct (parseZone_formatZone _ Hom Hor)
    as (_ & _ & [[H0 Ez]|[Hnz (a & b & c & d & e & f & Ez)]]); rewrite Ez.
  - reflexivity.
  - destruct (Z.eqb_spec (Time.offset t) 0); [contradiction|reflexivity].
Qed.

End Timestamps.

Section TimestampText.

Local Open Scope Z_scope.
Import Strconv.

Lemma parseZone_Some (z : gostring) (off : Z) :
  Time.parseZone z = Some off ->
  (z = ["Z"%char] /\ off = 0)
  \/ exists sg h1 h2 m1 m2 hr mm,
       z = [sg; h1; h2; ":"%char; m1; m2]
       /\ Time.parseUint [h1; h2] 0 23 = Some hr
       /\ Time.parseUint [m1; m2] 0 59 = Some mm
       /\ (sg = "-"%char /\ off = - ((hr * 60 + mm) * 60)
           \/ sg = "+"%char /\ off = (hr * 60 + mm) * 60).
Proof.
  unfold Time.parseZone.
  destruct z as [|c0 [|c1 [|c2 [|c3 [|c4 [|c5 [|c6 r]]]]]]]; try discriminate.
  - destruct (Ascii.eqb_spec c0 "Z") as [->|N]; [|discriminate].
    intros E; inversion E. left; split; reflexivity.
  - destruct (Time.parseUint [c1; c2] 0 23) as [hr|] eqn:Eh; [|discriminate].
    destruct (Time.parseUint [c4; c5] 0 59) as [mm|] eqn:Em; [|discriminate].
    destruct (((c0 =? "-")%char || (c0 =? "+")%char) && (c3 =? ":")%char)
      eqn:Hc; [|discriminate].
    intros H. right. exists c0, c1, c2, c4, c5, hr, mm.
    apply andb_prop in Hc as [Hsg Hcol].
    apply Ascii.eqb_eq in Hcol. subst c3.
    split; [reflexivity|]. split; [exact Eh|]. split; [exact Em|].
    destruct (Ascii.eqb_spec c0 "-") as [->|Nm]; inversion H.
    + left; split; reflexivity.
    + simpl in Hsg. apply Ascii.eqb_eq in Hsg. right; split; [assumption|reflexivity].
Qed.

(** What [Parse] accepts has this shape. *)
Lemma Parse_Some (s : gostring) (t : Time.Time) :
  Time.Parse s = Some t ->
  exists y1 y2 y3 y4 mo1 mo2 d1 d2 h1 h2 mi1 mi2 s1 s2 rest zone,
    s = [y1; y2; y3; y4; "-"; mo1; mo2; "-"; d1; d2; "T";
         h1; h2; ":"; mi1; mi2; ":"; s1; s2]%char ++ rest
    /\ Time.parseUint [y1; y2; y3; y4] 0 9999 = Some (Time.year t)
    /\ Time.parseUint [mo1; mo2] 1 12 = Some (Time.month t)
    /\ Time.parseUint [d1; d2] 1 (Time.daysIn (Time.month t) (Time.year t))
       = Some (Time.day t)
    /\ Time.parseUint [h1; h2] 0 23 = Some (Time.hour t)
    /\ Time.parseUint [mi1; mi2] 0 59 = Some (Time.minute t)
    /\ Time.parseUint [s1; s2] 0 59 = Some (Time.second t)
    /\ Time.parseFraction rest = (Time.nsec t, zone)
    /\ Time.parseZone zone = Some (Time.offset t).
Proof.
  intros H. unfold Time.Parse in H.
  do 19 (destruct s as [|? s]; [discriminate H|]).
  repeat match type of H with
         | match ?X with Some _ => _ | None => _ end = _ =>
             let E := fresh "E" in destruct X eqn:E; [|discriminate H]
         end.
  match type of H with
  | (if ?B then _ else _) = _ => destruct B eqn:Hsep; [|discriminate H]
  end.
  repeat (apply andb_prop in Hsep as [Hsep ?]).
  repeat match goal with
         | X : (_ =? _)%char = true |- _ => apply Ascii.eqb_eq in X; subst
         end.
  destruct (Time.parseFraction s) as [ns zone] eqn:Ef.
  destruct (Time.parseZone zone) as [off|] eqn:Ez; [|discriminate H].
  inversion H; subst t; clear H. cbn [Time.year Time.month Time.day
    Time.hour Time.minute Time.second Time.nsec Time.offset].
  do 14 eexists. exists s, zone.
  repeat split; try eassumption; reflexivity.
Qed.

Lemma spanDigits_length (s : gostring) :
  (length (snd (Time.spanDigits s)) <= length s)%nat.
Proof.
  induction s as [|c s IH]; simpl; [lia|].
  destruct (isDigit c); [|simpl; lia].
  destruct (Time.spanDigits s); simpl in *. lia.
Qed.

Lemma parseFraction_length (s : gostring) :
  Time.parseFraction s = (0, s)
  \/ (S (length (snd (Time.parseFraction s))) < length s)%nat.
Proof.
  unfold Time.parseFraction.
  destruct s as [|c [|d r]]; try (left; reflexivity).
  destruct ((c =? ".")%char && isDigit d) eqn:Hd; [|left; reflexivity].
  apply andb_prop in Hd as [_ Hd].
  right. cbn [tl Time.spanDigits]. rewrite Hd.
  pose proof (spanDigits_length r) as Hl.
  destruct (Time.spanDigits r) as [ds z]. simpl in *. lia.
Qed.

(** The reading [Parse] returns is a valid civil time; only its
    nanoseconds may be lost in printing. *)
Lemma Parse_canonicalTime (s : gostring) (t : Time.Time) :
  Time.Parse s = Some t ->
  canonicalTime
    (Time.mkTime (Time.year t) (Time.month t) (Time.day t) (Time.hour t)
                 (Time.minute t) (Time.second t) 0 (Time.offset t)) = true.
Proof.
  intros H. apply Parse_Some in H
    as (y1 & y2 & y3 & y4 & mo1 & mo2 & d1 & d2 & h1 & h2 & mi1 & mi2
        & s1 & s2 & rest & zone & _ & Py & Pmo & Pd & Ph & Pmi & Ps & _ & Pz).
  apply parseUint_Some in Py as (_ & _ & Hy), Pmo as (_ & _ & Hmo),
    Pd as (_ & _ & Hd), Ph as (_ & _ & Hh), Pmi as (_ & _ & Hmi),
    Ps as (_ & _ & Hs).
  assert (Time.offset t mod 60 = 0 /\ -86400 < Time.offset t < 86400)
    as [Hom Hor].
  { apply parseZone_Some in Pz
      as [[_ ->]|(sg & a & b & c & d & hr & mm & _ & Phr & Pmm & Hsg)].
    - split; [reflexivity|lia].
    - apply parseUint_Some in Phr as (_ & _ & Hhr), Pmm as (_ & _ & Hmm).
      destruct Hsg as [[_ ->]|[_ ->]].
      + split; [|lia].
        rewrite <- Z.mul_opp_l. apply Z.mod_mul. lia.
      + split; [|lia]. apply Z.mod_mul. lia. }
  unfold canonicalTime. cbn [Time.year Time.month Time.day
    Time.hour Time.minute Time.second Time.nsec Time.offset].
  repeat (apply andb_true_intro; split);
    try (apply Z.leb_le; lia); try (apply Z.ltb_lt; lia);
    try (apply Z.eqb_eq; lia).
Qed.

Lemma Format_ignores_nsec (t : Time.Time) :
  Time.Format t =
  Time.Format
    (Time.mkTime (Time.year t) (Time.month t) (Time.day t) (Time.hour t)
                 (Time.minute t) (Time.second t) 0 (Time.offset t)).
Proof. reflexivity. Qed.

(** Whatever [Parse] accepted, [Format] prints canonical text. *)
Lemma Format_Parse_canonical (s : gostring) (t : Time.Time) :
  Time.Parse s = Some t -> canonicalTimestamp (Time.Format t) = true.
Proof.
  intros H. rewrite Format_ignores_nsec.
  apply Format_canonical. eapply Parse_canonicalTime. exact H.
Qed.

(** Canonical text is printed back as it was read. *)
Lemma Format_Parse (s : gostring) :
  canonicalTimestamp s = true ->
  exists t, Time.Parse s = Some t /\ Time.Format t = s
            /\ canonicalTime t = true.
Proof.
  unfold canonicalTimestamp. intros H.
  destruct (Time.Parse s) as [t|] eqn:Ep; [|discriminate].
  exists t. split; [reflexivity|].
  pose proof (Parse_canonicalTime s t Ep) as Hcan.
  apply Parse_Some in Ep
    as (y1 & y2 & y3 & y4 & mo1 & mo2 & d1 & d2 & h1 & h2 & mi1 & mi2
        & s1 & s2 & rest & zone & -> & Py & Pmo & Pd & Ph & Pmi & Ps
        & Pf & Pz).
  cbn [app skipn] in H.
  assert (Time.nsec t = 0 /\ zone = rest /\ Time.formatZone (Time.offset t) = rest)
    as (Hns & -> & Hzone).
  { destruct (parseFraction_length rest) as [Hfl|Hfl]; rewrite Pf in Hfl.
    - inversion Hfl as [[Hns Hz]]. rewrite Hns. subst zone.
      split; [reflexivity|]. split; [reflexivity|].
      apply parseZone_Some in Pz
        as [[-> Hoff]|(sg & a & b & c & d & hr & mm & -> & Phr & Pmm & Hsg)].
      + rewrite Hoff. reflexivity.
      + cbn [app skipn] in H.
        destruct (Z.eqb_spec (Time.offset t) 0) as [|Hnz]; [discriminate H|].
        pose proof (appendInt_digitsValue [a; b]) as Ea.
        pose proof (appendInt_digitsValue [c; d]) as Ec.
        apply parseUint_Some in Phr as (Hda & -> & Hhr),
          Pmm as (Hdc & -> & Hmm).
        specialize (Ea Hda ltac:(discriminate)).
        specialize (Ec Hdc ltac:(discriminate)).
        cbn [length] in Ea, Ec.
        set (hr := digitsValue 0 [a; b]) in *.
        set (mm := digitsValue 0 [c; d]) in *.
        unfold Time.formatZone.
        destruct (Z.eqb_spec (Time.offset t) 0); [contradiction|].
        destruct Hsg as [[-> Hoff]|[-> Hoff]]; rewrite Hoff in *.
        * replace (Z.quot (- ((hr * 60 + mm) * 60)) 60) with (- (hr * 60 + mm))
            by (rewrite <- Z.mul_opp_l, Z.quot_mul; lia).
          destruct (Z.ltb_spec (- (hr * 60 + mm)) 0); [|lia].
          replace (Z.abs (- (hr * 60 + mm))) with (mm + hr * 60) by lia.
          rewrite Z.div_add, Z.mod_add by lia.
          rewrite Z.div_small, Z.mod_small by lia.
          cbn [Z.add]. rewrite Ea, Ec. reflexivity.
        * replace (Z.quot ((hr * 60 + mm) * 60) 60) with (hr * 60 + mm)
            by (rewrite Z.quot_mul; lia).
          destruct (Z.ltb_spec (hr * 60 + mm) 0); [lia|].
          replace (Z.abs (hr * 60 + mm)) with (mm + hr * 60) by lia.
          rewrite Z.div_add, Z.mod_add by lia.
          rewrite Z.div_small, Z.mod_small by lia.
          cbn [Z.add]. rewrite Ea, Ec. reflexivity.
    - exfalso. cbn [snd] in Hfl.
      apply parseZone_Some in Pz
        as [[-> Hoff]|(sg & a & b & c & d & hr & mm & -> & _)].
      + destruct rest as [|c0 [|c1 [|c2 [|c3 [|c4 [|c5 [|c6 r]]]]]]];
          try discriminate H; simpl in Hfl; try lia;
          rewrite Hoff in H; discriminate H.
      + destruct rest as [|c0 [|c1 [|c2 [|c3 [|c4 [|c5 [|c6 r]]]]]]];
          try discriminate H; simpl in Hfl; lia. }
  split; [|destruct t; simpl in Hns; subst; exact Hcan].
  unfold Time.Format. rewrite Hzone.
  pose proof (appendInt_digitsValue [y1; y2; y3; y4]) as Ey.
  pose proof (appendInt_digitsValue [mo1; mo2]) as Emo.
  pose proof (appendInt_digitsValue [d1; d2]) as Ed.
  pose proof (appendInt_digitsValue [h1; h2]) as Eh.
  pose proof (appendInt_digitsValue [mi1; mi2]) as Emi.
  pose proof (appendInt_digitsValue [s1; s2]) as Es.
  apply parseUint_Some in Py as (Hdy & Vy & _), Pmo as (Hdmo & Vmo & _),
    Pd as (Hdd & Vd & _), Ph as (Hdh & Vh & _), Pmi as (Hdmi & Vmi & _),
    Ps as (Hds & Vs & _).
  rewrite <- Vy in Ey. rewrite <- Vmo in Emo. rewrite <- Vd in Ed.
  rewrite <- Vh in Eh. rewrite <- Vmi in Emi. rewrite <- Vs in Es.
  cbn [length] in *.
  rewrite Ey, Emo, Ed, Eh, Emi, Es by (assumption || discriminate).
  reflexivity.
Qed.

End TimestampText.

(** ** Splitting and joining on the field separator *)

Section Fields.

Import Strings.

Lemma HasPrefix_app (a b x : gostring) :
  length x <= length a -> HasPrefix (a ++ b) x = HasPrefix a x.
Proof.
  revert a. induction x as [|c x IH]; intros a Hl; [reflexivity|].
  destruct a as [|d a]; simpl in Hl; [lia|].
  simpl. rewrite IH by lia. reflexivity.
Qed.

Lemma HasPrefix_true (s x : gostring) :
  HasPrefix s x = true -> s = x ++ skipn (length x) s.
Proof.
  revert s. induction x as [|c x IH]; intros s H; [reflexivity|].
  destruct s as [|d s]; [discriminate|]. simpl in H.
  apply andb_prop in H as [Hc H]. apply Ascii.eqb_eq in Hc. subst d.
  simpl. f_equal. apply IH. exact H.
Qed.

Lemma Contains_cons (c : ascii) (s x : gostring) :
  Contains (c :: s) x = false ->
  HasPrefix (c :: s) x = false /\ Contains s x = false.
Proof.
  simpl. intros H. apply orb_false_elim in H. exact H.
Qed.


Lemma split_from_nonempty (sep s : gostring) (k : nat) :
  split_from sep k s <> [].
Proof.
  revert k. induction s as [|c s IH]; intros k; simpl; [discriminate|].
  destruct k; [|apply IH].
  destruct (HasPrefix (c :: s) sep); [discriminate|].
  destruct (split_from sep 0 s); discriminate.
Qed.

Lemma Split_nonempty (s : gostring) : Split s fieldSep <> [].
Proof. apply split_from_nonempty. Qed.

(** Text free of the separator is one field. *)
Lemma Split_one (p : gostring) :
  Contains p fieldSep = false -> Split p fieldSep = [p].
Proof.
  unfold Split, fieldSep. cbn [str list_ascii_of_string].
  induction p as [|c p IH]; intros H; [reflexivity|].
  apply Contains_cons in H as [Hp Hc].
  cbn [split_from]. rewrite Hp, (IH Hc). reflexivity.
Qed.

(** A clean field followed by the separator is split off whole. *)
Lemma Split_field (p rest : gostring) :
  splitsClean p = true ->
  Split (p ++ fieldSep ++ rest) fieldSep = p :: Split rest fieldSep.
Proof.
  unfold splitsClean, Split, fieldSep. cbn [str list_ascii_of_string].
  intros H. apply negb_true_iff in H.
  induction p as [|c p IH]; [reflexivity|].
  simpl app in H. apply Contains_cons in H as [Hp Hc].
  simpl app. cbn [split_from].
  assert (c :: p ++ " "%char :: "|"%char :: " "%char :: rest
          = (c :: p ++ [" "%char; "|"%char]) ++ " "%char :: rest) as E
    by (simpl; rewrite <- app_assoc; reflexivity).
  rewrite E at 1. clear E.
  rewrite HasPrefix_app by (simpl; rewrite length_app; simpl; lia).
  rewrite Hp. simpl app in IH. rewrite (IH Hc). reflexivity.
Qed.

Lemma Join_cons (p : gostring) (ps : list gostring) (sep : gostring) :
  ps <> [] -> Join (p :: ps) sep = p ++ sep ++ Join ps sep.
Proof. destruct ps; [contradiction|reflexivity]. Qed.

Lemma Join_cons_char (c : ascii) (p : gostring) (ps : list gostring)
  (sep : gostring) :
  Join ((c :: p) :: ps) sep = c :: Join (p :: ps) sep.
Proof. destruct ps; reflexivity. Qed.

(** Joining the fields on the separator gives the line back. *)
Lemma Join_Split (s : gostring) : Join (Split s fieldSep) fieldSep = s.
Proof.
  unfold Split, fieldSep. cbn [str list_ascii_of_string].
  set (sep := [" "%char; "|"%char; " "%char]).
  assert (forall n s, length s <= n -> Join (split_from sep 0 s) sep = s)
    as Hgen; [|apply (Hgen (length s)); lia].
  clear s. induction n as [|n IH]; intros s Hl.
  - destruct s; [reflexivity|simpl in Hl; lia].
  - destruct s as [|c s]; [reflexivity|].
    cbn [split_from].
    destruct (HasPrefix (c :: s) sep) eqn:Hp.
    + apply HasPrefix_true in Hp. simpl in Hp.
      destruct s as [|c1 [|c2 r]]; try discriminate Hp.
      inversion Hp; subst. clear Hp.
      cbn [length Nat.sub split_from sep].
      rewrite Join_cons by apply split_from_nonempty.
      rewrite IH by (simpl in Hl; lia). reflexivity.
    + pose proof (split_from_nonempty sep s 0) as Hne.
      specialize (IH s ltac:(simpl in Hl; lia)).
      destruct (split_from sep 0 s) as [|p ps]; [contradiction|].
      rewrite Join_cons_char, IH. reflexivity.
Qed.

Lemma HasPrefix_fieldSep_bar (s : gostring) :
  HasPrefix s fieldSep = true -> In "|"%char s.
Proof.
  intros H. apply HasPrefix_true in H. rewrite H. simpl. auto.
Qed.

(** Text without a bar contains no separator. *)
Lemma Contains_no_bar (s : gostring) :
  ~ In "|"%char s -> Contains s fieldSep = false.
Proof.
  induction s as [|c s IH]; intros H; [reflexivity|].
  change (Contains (c :: s) fieldSep)
    with (HasPrefix (c :: s) fieldSep || Contains s fieldSep).
  apply orb_false_intro.
  - destruct (HasPrefix (c :: s) fieldSep) eqn:E; [|reflexivity].
    exfalso. apply H. apply HasPrefix_fieldSep_bar. exact E.
  - apply IH. intros Hin. apply H. right. exact Hin.
Qed.

(** Text with neither bar nor blank is a clean field. *)
Lemma splitsClean_no_blank (s : gostring) :
  ~ In " "%char s -> splitsClean s = true.
Proof.
  unfold splitsClean. intros H. apply negb_true_iff.
  induction s as [|c s IH]; [reflexivity|].
  change (Contains ((c :: s) ++ str " |") fieldSep)
    with (HasPrefix (c :: s ++ str " |") fieldSep
          || Contains (s ++ str " |") fieldSep).
  apply orb_false_intro.
  - destruct (Ascii.eqb_spec " " c) as [<-|N].
    + exfalso. apply H. left. reflexivity.
    + unfold fieldSep. cbn [str list_ascii_of_string HasPrefix].
      destruct (Ascii.eqb_spec " " c); [contradiction|reflexivity].
  - apply IH. intros Hin. apply H. right. exact Hin.
Qed.

End Fields.

(** ** Trimming white space *)

Section Trimming.

Import Strings.

Lemma wideSpaces_ok : wideOk wideSpaces.
Proof.
  assert (forallb (fun w => negb (Nat.eqb (length w) 0) && forallb highByte w)
                  wideSpaces = true) as H by reflexivity.
  intros w Hin. rewrite forallb_forall in H. specialize (H w Hin).
  apply andb_prop in H as [Hl Hh]. split.
  - intros ->. discriminate Hl.
  - apply Forall_forall. rewrite forallb_forall in Hh. exact Hh.
Qed.

Lemma wideSpaces_rev_ok : wideOk (map (@rev ascii) wideSpaces).
Proof.
  intros w Hin. apply in_map_iff in Hin as (w0 & <- & Hin).
  destruct (wideSpaces_ok w0 Hin) as [Hne Hh]. split.
  - intros E. apply Hne. apply (f_equal (@rev ascii)) in E.
    rewrite rev_involutive in E. exact E.
  - apply Forall_rev. exact Hh.
Qed.

Lemma asciiSpace_low (c : ascii) : asciiSpace c = true -> highByte c = false.
Proof.
  destruct c as [[] [] [] [] [] [] [] []]; cbv; intros H;
    try discriminate H; reflexivity.
Qed.

Lemma find_all_false {A} (f : A -> bool) (l : list A) :
  (forall x, In x l -> f x = false) -> find f l = None.
Proof.
  induction l as [|x l IH]; intros H; [reflexivity|].
  simpl. rewrite (H x (or_introl eq_refl)).
  apply IH. intros y Hy. apply H. right. exact Hy.
Qed.

Variable wide : list gostring.
Hypothesis Hwide : wideOk wide.

(** A character that is neither an ASCII space nor a high byte starts
    no white space. *)
Lemma spaceWidth_solid (c : ascii) (s : gostring) :
  spaceByte c = false -> spaceWidth wide (c :: s) = 0.
Proof.
  unfold spaceByte. intros H. apply orb_false_elim in H as [Ha Hh].
  unfold spaceWidth. rewrite Ha.
  rewrite find_all_false; [reflexivity|].
  intros w Hin. destruct (Hwide w Hin) as [Hne Hall].
  destruct w as [|w0 w]; [contradiction|].
  inversion Hall as [|? ? Hw0 _]; subst. simpl.
  destruct (Ascii.eqb_spec w0 c) as [->|]; [congruence|reflexivity].
Qed.

(** White space consists of space bytes. *)
Lemma spaceWidth_bytes (s : gostring) (k : nat) :
  spaceWidth wide s = S k ->
  length (firstn (S k) s) = S k
  /\ Forall (fun c => spaceByte c = true) (firstn (S k) s).
Proof.
  unfold spaceWidth. destruct s as [|c s]; [discriminate|].
  destruct (asciiSpace c) eqn:Ha.
  - intros E; inversion E; subst k. simpl. split; [reflexivity|].
    constructor; [|constructor]. unfold spaceByte. rewrite Ha. reflexivity.
  - destruct (find (HasPrefix (c :: s)) wide) as [w|] eqn:Ef; [|discriminate].
    intros El. apply find_some in Ef as [Hin Hp].
    destruct (Hwide w Hin) as [_ Hall].
    apply HasPrefix_true in Hp. rewrite Hp, <- El.
    rewrite firstn_app, Nat.sub_diag, firstn_all. simpl firstn.
    rewrite app_nil_r. split; [reflexivity|].
    eapply Forall_impl; [|exact Hall].
    intros a Hhigh. unfold spaceByte. rewrite Hhigh. apply orb_true_r.
Qed.

(** What [dropSpaces] removes consists of space bytes, and what it
    leaves does not start with white space. *)
Lemma dropSpaces_spec (s : gostring) :
  forall k,
    length (firstn k s) = k ->
    Forall (fun c => spaceByte c = true) (firstn k s) ->
    exists p,
      s = p ++ dropSpaces wide k s
      /\ Forall (fun c => spaceByte c = true) p
      /\ spaceWidth wide (dropSpaces wide k s) = 0.
Proof.
  induction s as [|c s IH]; intros k Hl Hk.
  - exists []. repeat split; constructor.
  - destruct k as [|k].
    + cbn [dropSpaces]. destruct (spaceWidth wide (c :: s)) as [|k] eqn:Ew.
      * exists []. repeat split; [constructor|exact Ew].
      * destruct (spaceWidth_bytes (c :: s) k Ew) as [Hl' Hb].
        simpl in Hl', Hb. inversion Hb as [|? ? Hc Hb']; subst.
        destruct (IH k ltac:(lia) Hb') as (p & Hs & Hp & Hw).
        exists (c :: p). repeat split.
        -- simpl. f_equal. exact Hs.
        -- constructor; assumption.
        -- exact Hw.
    + cbn [dropSpaces]. simpl in Hl, Hk.
      inversion Hk as [|? ? Hc Hk']; subst.
      destruct (IH k ltac:(lia) Hk') as (p & Hs & Hp & Hw).
      exists (c :: p). repeat split.
      * simpl. f_equal. exact Hs.
      * constructor; assumption.
      * exact Hw.
Qed.

Lemma dropSpaces_solid (c : ascii) (s : gostring) :
  spaceByte c = false -> dropSpaces wide 0 (c :: s) = c :: s.
Proof.
  intros H. cbn [dropSpaces]. rewrite spaceWidth_solid by exact H.
  reflexivity.
Qed.

Lemma spaceWidth_0_head (c : ascii) (s : gostring) :
  spaceWidth wide (c :: s) = 0 -> asciiSpace c = false.
Proof.
  unfold spaceWidth. destruct (asciiSpace c); [discriminate|reflexivity].
Qed.

End Trimming.

Section TrimSpace.

Import Strings.

Lemma TrimLeft_spec (s : gostring) :
  exists p, s = p ++ TrimLeft s
            /\ Forall (fun c => spaceByte c = true) p
            /\ spaceWidth wideSpaces (TrimLeft s) = 0.
Proof.
  apply (dropSpaces_spec _ wideSpaces_ok s 0); [reflexivity|constructor].
Qed.

Lemma TrimRight_spec (s : gostring) :
  exists q, s = TrimRight s ++ q
            /\ Forall (fun c => spaceByte c = true) q
            /\ spaceWidth (map (@rev ascii) wideSpaces) (rev (TrimRight s)) = 0.
Proof.
  destruct (dropSpaces_spec _ wideSpaces_rev_ok (rev s) 0 eq_refl
              (Forall_nil _)) as (p & Hs & Hp & Hw).
  exists (rev p). unfold TrimRight. repeat split.
  - apply (f_equal (@rev ascii)) in Hs.
    rewrite rev_involutive, rev_app_distr in Hs. exact Hs.
  - apply Forall_rev. exact Hp.
  - rewrite rev_involutive. exact Hw.
Qed.

(** Text that starts and ends with characters that are no space bytes
    is left as it is. *)
Lemma TrimSpace_solid (c d : ascii) (s : gostring) :
  spaceByte c = false -> spaceByte d = false ->
  TrimSpace (c :: s ++ [d]) = c :: s ++ [d].
Proof.
  intros Hc Hd. unfold TrimSpace, TrimLeft.
  rewrite (dropSpaces_solid _ wideSpaces_ok) by exact Hc.
  unfold TrimRight.
  assert (rev (c :: s ++ [d]) = d :: rev (c :: s)) as E
    by (change (c :: s ++ [d]) with ((c :: s) ++ [d]);
        rewrite rev_app_distr; reflexivity).
  rewrite E. rewrite (dropSpaces_solid _ wideSpaces_rev_ok) by exact Hd.
  rewrite <- E. apply rev_involutive.
Qed.

Lemma TrimSpace_solid1 (c : ascii) :
  spaceByte c = false -> TrimSpace [c] = [c].
Proof.
  intros Hc. unfold TrimSpace, TrimLeft.
  rewrite (dropSpaces_solid _ wideSpaces_ok) by exact Hc.
  unfold TrimRight. change (rev [c]) with [c].
  rewrite (dropSpaces_solid _ wideSpaces_rev_ok) by exact Hc.
  reflexivity.
Qed.

(** Trimmed text neither starts nor ends with an ASCII space. *)
Lemma TrimSpace_ends (s : gostring) :
  (forall c r, TrimSpace s = c :: r -> asciiSpace c = false)
  /\ (forall c r, rev (TrimSpace s) = c :: r -> asciiSpace c = false).
Proof.
  unfold TrimSpace.
  destruct (TrimLeft_spec s) as (p & _ & _ & Hl).
  destruct (TrimRight_spec (TrimLeft s)) as (q & Hq & _ & Hr).
  split; intros c r E.
  - rewrite E in Hq. rewrite Hq in Hl.
    apply (spaceWidth_0_head wideSpaces c (r ++ q)). exact Hl.
  - rewrite E in Hr. eapply spaceWidth_0_head. exact Hr.
Qed.

(** Text that trims to nothing consists of space bytes. *)
Lemma TrimSpace_nil (s : gostring) :
  TrimSpace s = [] -> Forall (fun c => spaceByte c = true) s.
Proof.
  unfold TrimSpace. intros H.
  destruct (TrimLeft_spec s) as (p & Hs & Hp & _).
  destruct (TrimRight_spec (TrimLeft s)) as (q & Hq & Hqs & _).
  rewrite H in Hq. simpl in Hq. rewrite Hs, Hq.
  apply Forall_app. split; assumption.
Qed.

Lemma isSpace_asciiSpace (c : ascii) :
  JSON.isSpace c = true -> asciiSpace c = true.
Proof.
  destruct c as [[] [] [] [] [] [] [] []]; cbv; intros H;
    try discriminate H; reflexivity.
Qed.

Lemma trimLeftSpaces_head (s : gostring) :
  (forall c r, s = c :: r -> asciiSpace c = false) ->
  JSON.trimLeftSpaces s = s.
Proof.
  intros H. destruct s as [|c r]; [reflexivity|].
  specialize (H c r eq_refl). simpl.
  destruct (JSON.isSpace c) eqn:E; [|reflexivity].
  apply isSpace_asciiSpace in E. congruence.
Qed.

(** On trimmed text [UnmarshalRaw] keeps every byte. *)
Lemma UnmarshalRaw_trimmed (s : gostring) :
  JSON.Valid (TrimSpace s) = true ->
  JSON.UnmarshalRaw (TrimSpace s) = Some (TrimSpace s).
Proof.
  intros Hv. unfold JSON.UnmarshalRaw. rewrite Hv.
  destruct (TrimSpace_ends s) as [Hh Hl].
  rewrite (trimLeftSpaces_head _ Hh), (trimLeftSpaces_head _ Hl).
  rewrite rev_involutive. reflexivity.
Qed.

End TrimSpace.

(** ** The codec *)

Section Codec.

Import Strings.

Lemma isDigit_solid (c : ascii) :
  Strconv.isDigit c = true -> solidChar c = true.
Proof.
  intros H.
  destruct (isDigit_cases c H) as [E|[E|[E|[E|[E|[E|[E|[E|[E|E]]]]]]]]];
    subst c; reflexivity.
Qed.

Lemma digits_solid (s : gostring) :
  forallb Strconv.isDigit s = true -> Forall (fun c => solidChar c = true) s.
Proof.
  intros H. apply Forall_forall. intros c Hin.
  rewrite forallb_forall in H. apply isDigit_solid. apply H. exact Hin.
Qed.

Lemma solidChar_spec (c : ascii) :
  solidChar c = true ->
  spaceByte c = false /\ c <> "|"%char /\ c <> " "%char.
Proof.
  unfold solidChar. intros H. apply andb_prop in H as [Hs Hb].
  apply negb_true_iff in Hs, Hb. repeat split.
  - exact Hs.
  - intros ->. discriminate Hb.
  - intros ->. discriminate Hs.
Qed.

(** Text made of solid bytes is a field of its own: trimming leaves it
    as it is, and it splits off whole. *)
Lemma solid_field (s : gostring) :
  s <> [] -> Forall (fun c => solidChar c = true) s ->
  TrimSpace s = s /\ splitsClean s = true /\ Contains s fieldSep = false.
Proof.
  intros Hne Hs. repeat split.
  - destruct s as [|c s]; [contradiction|].
    inversion Hs as [|? ? Hc Hs']; subst.
    apply solidChar_spec in Hc as [Hc _].
    destruct (@exists_last _ (c :: s) Hne) as (m & d & E).
    destruct m as [|c' m].
    + inversion E; subst. apply TrimSpace_solid1. exact Hc.
    + inversion E; subst. apply TrimSpace_solid; [exact Hc|].
      apply Forall_app in Hs' as [_ Hd]. inversion Hd as [|? ? Hd' _].
      apply solidChar_spec in Hd'. apply Hd'.
  - apply splitsClean_no_blank. intros Hin.
    rewrite Forall_forall in Hs. apply Hs in Hin.
    apply solidChar_spec in Hin as (_ & _ & N). apply N. reflexivity.
  - apply Contains_no_bar. intros Hin.
    rewrite Forall_forall in Hs. apply Hs in Hin.
    apply solidChar_spec in Hin as (_ & N & _). apply N. reflexivity.
Qed.

Lemma appendInt_solid (w : nat) (x : Z) :
  (0 <= x < 10 ^ Z.of_nat (S w))%Z ->
  Forall (fun c => solidChar c = true) (Time.appendInt x (S w)).
Proof.
  intros H. apply digits_solid. apply (appendInt_spec w x H).
Qed.

Lemma Format_solid (t : Time.Time) :
  canonicalTime t = true ->
  Time.Format t <> [] /\ Forall (fun c => solidChar c = true) (Time.Format t).
Proof.
  intros H. pose proof (Format_Parse (Time.Format t) (Format_canonical t H))
    as (t' & Hp & _).
  split; [intros E; rewrite E in Hp; discriminate Hp|].
  apply canonicalTime_bounds in H
    as (Hy & Hmo & Hd & Hh & Hmi & Hs & Hn & Hom & Hor).
  pose proof (daysIn_bounds (Time.month t) (Time.year t) Hmo) as H31.
  assert (forall x rest,
             (0 <= x <= 99)%Z ->
             Forall (fun c => solidChar c = true) rest ->
             Forall (fun c => solidChar c = true) (Time.appendInt x 2 ++ rest))
    as two.
  { intros x rest Hx Hrest. apply Forall_app. split; [|exact Hrest].
    apply (appendInt_solid 1). change (10 ^ Z.of_nat 2)%Z with 100%Z. lia. }
  assert (forall c rest,
             solidChar c = true ->
             Forall (fun c => solidChar c = true) rest ->
             Forall (fun c => solidChar c = true) ([c] ++ rest))
    as one by (intros; constructor; assumption).
  unfold Time.Format.
  apply Forall_app. split.
  { apply (appendInt_solid 3). change (10 ^ Z.of_nat 4)%Z with 10000%Z. lia. }
  apply one; [reflexivity|]. apply two; [lia|].
  apply one; [reflexivity|]. apply two; [lia|].
  apply one; [reflexivity|]. apply two; [lia|].
  apply one; [reflexivity|]. apply two; [lia|].
  apply one; [reflexivity|]. apply two; [lia|].
  unfold Time.formatZone.
  destruct (Time.offset t =? 0)%Z; [constructor; [reflexivity|constructor]|].
  set (zone := Z.quot (Time.offset t) 60).
  assert (Z.abs zone < 1440)%Z as Hz.
  { unfold zone. pose proof (Z.quot_rem' (Time.offset t) 60) as Hq.
    assert (Z.rem (Time.offset t) 60 = 0)%Z as Hrem.
    { apply Z.rem_divide; [lia|]. apply Z.mod_divide; [lia|exact Hom]. }
    lia. }
  pose proof (Z.mod_pos_bound (Z.abs zone) 60 ltac:(lia)) as Hmb.
  assert (0 <= Z.abs zone / 60 <= 23)%Z as Hq.
  { split; [apply Z.div_pos; lia|].
    apply Z.lt_succ_r. apply Z.div_lt_upper_bound; lia. }
  apply Forall_app. split.
  { destruct (zone <? 0)%Z; constructor; try reflexivity; constructor. }
  apply two; [lia|]. apply one; [reflexivity|].
  rewrite <- (app_nil_r (Time.appendInt _ 2)). apply two; [lia|constructor].
Qed.

Lemma FormatInt_solid (n : Z) :
  Strconv.FormatInt n <> []
  /\ Forall (fun c => solidChar c = true) (Strconv.FormatInt n).
Proof.
  unfold Strconv.FormatInt. destruct (Z.ltb_spec n 0).
  - split; [discriminate|]. constructor; [reflexivity|].
    apply digits_solid. apply utoa_spec. lia.
  - split; [apply utoa_nonempty; lia|].
    apply digits_solid. apply utoa_spec. lia.
Qed.

(** The line [String] prints splits into the four fields printed. *)
Lemma Split_Event_String (e : Event) :
  canonicalTime (Timestamp e) = true ->
  splitsClean (EventType e) = true ->
  Contains (Payload e) fieldSep = false ->
  Split (Event_String e) fieldSep
  = [Time.Format (Timestamp e); Strconv.FormatInt (UserID e);
     EventType e; Payload e].
Proof.
  intros Ht Hty Hpl.
  destruct (Format_solid _ Ht) as [Hne Hs].
  destruct (solid_field _ Hne Hs) as (_ & Hc1 & _).
  destruct (FormatInt_solid (UserID e)) as [Hne' Hs'].
  destruct (solid_field _ Hne' Hs') as (_ & Hc2 & _).
  unfold Event_String.
  rewrite (Split_field _ _ Hc1), (Split_field _ _ Hc2),
    (Split_field _ _ Hty), (Split_one _ Hpl).
  reflexivity.
Qed.

End Codec.

(** ** The round-trip laws and the field count *)

(** C1, as stated, fails: a user id spelt with leading zeros is a decimal
    [int64] the decoder accepts, in a line whose fields carry no
    surrounding white space and whose timestamp is canonical, yet the
    encoder prints the number without the zeros. *)
Lemma C1_counterexample :
  let L := str "2023-08-14T10:00:00Z | 007 | login | {}" in
  Strings.Split L fieldSep
  = [str "2023-08-14T10:00:00Z"; str "007"; str "login"; str "{}"]
  /\ Forall (fun p => Strings.TrimSpace p = p) (Strings.Split L fieldSep)
  /\ canonicalTimestamp (str "2023-08-14T10:00:00Z") = true
  /\ Strconv.ParseInt (str "007") = inl 7%Z
  /\ JSON.Valid (str "{}") = true
  /\ exists e, ParseEvent L = inl e
               /\ Event_String e = str "2023-08-14T10:00:00Z | 7 | login | {}"
               /\ Event_String e <> L.
Proof.
  cbv zeta.
  split; [vm_compute; reflexivity|].
  split; [vm_compute; repeat constructor|].
  split; [vm_compute; reflexivity|].
  split; [vm_compute; reflexivity|].
  split; [vm_compute; reflexivity|].
  eexists. split; [vm_compute; reflexivity|].
  split; [vm_compute; reflexivity|]. vm_compute. discriminate.
Qed.

(** C1, amended: a line of exactly four fields, none with surrounding
    white space, whose timestamp and user id are both in the form the
    encoder emits, whose event type is not empty and whose payload is
    valid JSON, is decoded, and encoding the event gives the line back
    byte for byte. *)
Theorem C1_encode_decode (L p0 p1 p2 p3 : gostring) :
  Strings.Split L fieldSep = [p0; p1; p2; p3] ->
  Strings.TrimSpace p0 = p0 -> Strings.TrimSpace p1 = p1 ->
  Strings.TrimSpace p2 = p2 -> Strings.TrimSpace p3 = p3 ->
  canonicalTimestamp p0 = true ->
  canonicalInt p1 = true ->
  p2 <> [] ->
  JSON.Valid p3 = true ->
  exists e, ParseEvent L = inl e /\ Event_String e = L.
Proof.
  intros Hsplit T0 T1 T2 T3 Hts Hid Hty Hpl.
  destruct (Format_Parse p0 Hts) as (t & Hparse & Hformat & _).
  destruct (FormatInt_ParseInt p1 Hid) as (n & Hint & Hprint).
  assert (JSON.UnmarshalRaw p3 = Some p3) as Hraw.
  { rewrite <- T3. apply UnmarshalRaw_trimmed. rewrite T3. exact Hpl. }
  exists (mkEvent t n p2 p3). split.
  - unfold ParseEvent. rewrite Hsplit, T0, T1, T2, T3, Hparse, Hint, Hraw.
    destruct p2; [contradiction|reflexivity].
  - unfold Event_String. cbn [Timestamp UserID EventType Payload].
    rewrite Hformat, Hprint.
    pose proof (Join_Split L) as J. rewrite Hsplit in J. exact J.
Qed.

Lemma C1_encode_decode_witness :
  exists e,
    ParseEvent scenarioLine = inl e /\ Event_String e = scenarioLine.
Proof.
  apply (C1_encode_decode scenarioLine
           (str "2023-08-14T10:00:00Z") (str "42") (str "login")
           scenarioPayload);
    try (vm_compute; reflexivity).
  discriminate.
Defined.

(** C2, as stated, fails: an event type may be any non-empty string, and
    one that contains the separator makes the encoded line split into
    five fields, so decoding fails; one with surrounding white space
    comes back trimmed. *)
Lemma C2_counterexample :
  let t := Time.mkTime 2023 8 14 10 0 0 0 0 in
  let e1 := mkEvent t 42 (str "a | b") (str "{}") in
  let e2 := mkEvent t 42 (str " login") (str "{}") in
  JSON.Valid (str "{}") = true
  /\ ParseEvent (Event_String e1) = inr (MalformedLine 5)
  /\ ParseEvent (Event_String e2) = inl (mkEvent t 42 (str "login") (str "{}"))
  /\ ParseEvent (Event_String e2) <> inl e2.
Proof.
  cbv zeta. repeat split; try (vm_compute; reflexivity).
  vm_compute. discriminate.
Qed.

(** C2, amended: an event whose timestamp is a whole second with a
    four-digit year and an offset of whole minutes below 24 hours, whose
    user id is an [int64], whose event type is not empty, has no
    surrounding white space, does not contain [" | "] and does not end
    with [" |"], and whose payload is valid JSON without surrounding white
    space and without [" | "], is decoded back from its encoding, field
    for field. *)
Theorem C2_decode_encode (e : Event) :
  canonicalTime (Timestamp e) = true ->
  int64 (UserID e) ->
  EventType e <> [] ->
  Strings.TrimSpace (EventType e) = EventType e ->
  splitsClean (EventType e) = true ->
  JSON.Valid (Payload e) = true ->
  Strings.TrimSpace (Payload e) = Payload e ->
  Strings.Contains (Payload e) fieldSep = false ->
  ParseEvent (Event_String e) = inl e.
Proof.
  intros Ht Hid Hne Tty Cty Hpl Tpl Cpl.
  destruct (Format_solid _ Ht) as [N0 S0].
  destruct (solid_field _ N0 S0) as (T0 & _ & _).
  destruct (FormatInt_solid (UserID e)) as [N1 S1].
  destruct (solid_field _ N1 S1) as (T1 & _ & _).
  assert (JSON.UnmarshalRaw (Payload e) = Some (Payload e)) as Hraw.
  { rewrite <- Tpl. apply UnmarshalRaw_trimmed. rewrite Tpl. exact Hpl. }
  unfold ParseEvent.
  rewrite (Split_Event_String e Ht Cty Cpl), T0, T1, Tty, Tpl.
  rewrite (Parse_Format _ Ht), (ParseInt_FormatInt _ Hid), Hraw.
  destruct e as [t n ty pl]. cbn [EventType] in *.
  destruct ty; [contradiction|reflexivity].
Qed.

Lemma C2_decode_encode_witness :
  let e := mkEvent (Time.mkTime 2023 8 14 10 0 0 0 19800) (-42)
                   (str "page view") scenarioPayload in
  ParseEvent (Event_String e) = inl e.
Proof.
  cbv zeta. apply C2_decode_encode; try (vm_compute; reflexivity).
  - unfold int64; cbn; lia.
  - discriminate.
Defined.

(** C7: whenever splitting on [" | "] does not yield exactly four fields
    [ParseEvent] returns the [MalformedLine] error carrying the number of
    fields found, whatever the fields contain; no field is examined and
    no event is produced. *)
Theorem C7_malformed_line (line : gostring) :
  length (Strings.Split line fieldSep) <> 4 ->
  ParseEvent line
  = inr (MalformedLine (length (Strings.Split line fieldSep))).
Proof.
  intros H. unfold ParseEvent.
  destruct (Strings.Split line fieldSep) as [|a [|b [|c [|d [|e r]]]]];
    try reflexivity.
  exfalso. apply H. reflexivity.
Qed.

Lemma C7_malformed_line_witness :
  ParseEvent (str "not-a-time | 42 | login") = inr (MalformedLine 3)
  /\ ParseEvent (str "2023-08-14T10:00:00Z | 42 | login | {} | {}")
     = inr (MalformedLine 5).
Proof.
  split.
  - apply (C7_malformed_line (str "not-a-time | 42 | login")).
    vm_compute. discriminate.
  - apply (C7_malformed_line
             (str "2023-08-14T10:00:00Z | 42 | login | {} | {}")).
    vm_compute. discriminate.
Defined.

(** ** Transactions and the loop of [Record] *)

Section Transactions.

Import SQL.

Lemma nth_error_setNth {A} (l : list A) :
  forall n x y, nth_error l n = Some x -> nth_error (setNth n y l) n = Some y.
Proof.
  induction l as [|a l IH]; intros [|n] x y H; simpl in *;
    try discriminate; [reflexivity|eauto].
Qed.

Lemma Exec_open (db : DB) (tx : nat) (staged : list Row) (r : Row) :
  nth_error (txs db) tx = Some (TxOpen staged) ->
  batches (Exec db tx r) = batches db
  /\ nth_error (txs (Exec db tx r)) tx = Some (TxOpen (staged ++ [r])).
Proof.
  intros H. unfold Exec. rewrite H. simpl. split; [reflexivity|].
  eapply nth_error_setNth. exact H.
Qed.

Lemma Commit_open (db : DB) (tx : nat) (staged : list Row) :
  nth_error (txs db) tx = Some (TxOpen staged) ->
  batches (Commit db tx) = batches db ++ [staged].
Proof. intros H. unfold Commit. rewrite H. reflexivity. Qed.

Lemma Rollback_batches (db : DB) (tx : nat) :
  batches (Rollback db tx) = batches db.
Proof.
  unfold Rollback. destruct (nth_error (txs db) tx) as [[]|]; reflexivity.
Qed.

Lemma Begin_open (db : DB) :
  batches (fst (Begin db)) = batches db
  /\ nth_error (txs (fst (Begin db))) (snd (Begin db)) = Some (TxOpen []).
Proof.
  unfold Begin. simpl. split; [reflexivity|].
  rewrite nth_error_app2 by lia. rewrite Nat.sub_diag. reflexivity.
Qed.

Lemma table_app (db : DB) (bs : list (list Row)) (db' : DB) :
  batches db' = batches db ++ bs -> table db' = table db ++ concat bs.
Proof. unfold table. intros ->. apply concat_app. Qed.

End Transactions.

Section RecordLoop.

Variable F : SQL.Faults.
Variable B : nat.
Hypothesis HB : 0 < B.

(** What the loop does to the store and to the counters: the rows
    staged when it starts, followed by the rows of the [j] events it
    got to insert, are the batches it committed followed by the rows
    in flight when it stopped. *)
Lemma recordLoop_spec (ls : list gostring) :
  forall st staged st' e,
    nth_error (SQL.txs (rs_db st)) (rs_tx st) = Some (SQL.TxOpen staged) ->
    length staged = rs_batchSize st ->
    rs_batchSize st < B ->
    recordLoop F B ls st = (st', e) ->
    exists bs j inflight,
      j <= length (decoded ls)
      /\ staged ++ map rowOf (firstn j (decoded ls)) = concat bs ++ inflight
      /\ SQL.batches (rs_db st') = SQL.batches (rs_db st) ++ bs
      /\ Forall (fun b => length b = B) bs
      /\ rs_commits st' = rs_commits st + length bs
      /\ rs_count st' = rs_count st + j
      /\ length inflight <= B
      /\ (e = None ->
          j = length (decoded ls)
          /\ nth_error (SQL.txs (rs_db st')) (rs_tx st')
             = Some (SQL.TxOpen inflight)
          /\ length inflight < B).
Proof.
  induction ls as [|line ls IH]; intros st staged st' e Htx Hlen Hlt Hrun.
  - simpl in Hrun. inversion Hrun; subst st' e.
    exists [], 0, staged. simpl. rewrite !app_nil_r, !Nat.add_0_r.
    repeat split; auto; lia.
  - destruct line as [|c line]; [exact (IH _ _ _ _ Htx Hlen Hlt Hrun)|].
    cbn [recordLoop decoded] in *.
    destruct (ParseEvent (c :: line)) as [event|err].
    + destruct (SQL.exec_fails F (rs_count st)).
      { inversion Hrun; subst st' e.
        exists [], 0, staged. simpl. rewrite !app_nil_r, !Nat.add_0_r.
        repeat split; auto; try lia; discriminate. }
      destruct (Exec_open (rs_db st) (rs_tx st) staged (rowOf event) Htx)
        as [Hb1 Htx1].
      destruct (Nat.leb_spec B (S (rs_batchSize st))) as [Hfull|Hroom].
      * destruct (SQL.commit_fails F (rs_commits st)).
        { inversion Hrun; subst st' e. cbn [rs_db rs_commits rs_count].
          exists [], 1, (staged ++ [rowOf event]). simpl.
          rewrite Rollback_batches, Hb1, !app_nil_r, !Nat.add_0_r.
          rewrite length_app. simpl.
          repeat split; auto; try lia; discriminate. }
        pose proof (Commit_open _ _ _ Htx1) as Hb2. rewrite Hb1 in Hb2.
        destruct (SQL.begin_fails F (S (rs_commits st))).
        { inversion Hrun; subst st' e. cbn [rs_db rs_commits rs_count].
          exists [staged ++ [rowOf event]], 1, []. simpl.
          rewrite Hb2, !app_nil_r.
          repeat split; auto; try lia; try discriminate.
          constructor; [|constructor]. rewrite length_app. simpl. lia. }
        destruct (Begin_open
                    (SQL.Commit (SQL.Exec (rs_db st) (rs_tx st) (rowOf event))
                                (rs_tx st))) as [Hb3 Htx3].
        destruct (SQL.Begin _) as [db3 tx3] eqn:Ebegin.
        cbn [fst snd] in Hb3, Htx3.
        apply (IH _ [] _ _) in Hrun; [|exact Htx3|reflexivity|exact HB].
        destruct Hrun as (bs & j & inflight & Hj & Hrows & Hbs & Hall & Hc
                          & Hn & Hin & Hok).
        cbn [rs_db rs_commits rs_count] in *.
        exists ((staged ++ [rowOf event]) :: bs), (S j), inflight.
        split; [simpl; lia|].
        split.
        { simpl in Hrows |- *. rewrite <- !app_assoc. simpl.
          rewrite Hrows. reflexivity. }
        split; [rewrite Hbs, Hb3, Hb2, <- app_assoc; reflexivity|].
        split.
        { constructor; [|exact Hall]. rewrite length_app. simpl. lia. }
        split; [simpl; lia|]. split; [lia|]. split; [exact Hin|].
        intros E. destruct (Hok E) as (-> & Ho & Hl). auto.
      * apply (IH _ (staged ++ [rowOf event]) _ _) in Hrun;
          [|exact Htx1|rewrite length_app; simpl; cbn [rs_batchSize]; lia
           |cbn [rs_batchSize]; lia].
        destruct Hrun as (bs & j & inflight & Hj & Hrows & Hbs & Hall & Hc
                          & Hn & Hin & Hok).
        cbn [rs_db rs_commits rs_count] in *.
        exists bs, (S j), inflight.
        split; [simpl; lia|].
        split.
        { simpl. rewrite <- Hrows, <- app_assoc. reflexivity. }
        split; [rewrite Hbs, Hb1; reflexivity|].
        split; [exact Hall|].
        split; [exact Hc|]. split; [lia|]. split; [exact Hin|].
        intros E. destruct (Hok E) as (-> & Ho & Hl). auto.
    + apply (IH _ staged _ _) in Hrun; assumption.
Qed.

(** The warnings printed by a loop that runs to the end are the decode
    errors of the lines, in order. *)
Lemma recordLoop_warnings (ls : list gostring) :
  forall st st',
    recordLoop F B ls st = (st', None) ->
    warningsOf (rs_out st') = warningsOf (rs_out st) ++ decodeErrors ls.
Proof.
  assert (forall a e, warningsOf (a ++ [Warning e]) = warningsOf a ++ [e])
    as Hw.
  { induction a as [|[] a IHa]; intros; simpl; rewrite ?IHa; reflexivity. }
  assert (forall a n, warningsOf (a ++ [Processed n]) = warningsOf a) as Hp.
  { induction a as [|[] a IHa]; intros; simpl; rewrite ?IHa; reflexivity. }
  induction ls as [|line ls IH]; intros st st' Hrun.
  - simpl in Hrun. inversion Hrun. rewrite app_nil_r. reflexivity.
  - destruct line as [|c line]; [exact (IH _ _ Hrun)|].
    cbn [recordLoop decodeErrors] in *.
    destruct (ParseEvent (c :: line)) as [event|err].
    + destruct (SQL.exec_fails F (rs_count st)); [discriminate|].
      destruct (B <=? S (rs_batchSize st)).
      * destruct (SQL.commit_fails F (rs_commits st)); [discriminate|].
        destruct (SQL.begin_fails F (S (rs_commits st))); [discriminate|].
        destruct (SQL.Begin _) as [db3 tx3].
        apply IH in Hrun. cbn [rs_out] in Hrun. rewrite Hp in Hrun.
        exact Hrun.
      * apply IH in Hrun. exact Hrun.
    + apply IH in Hrun. cbn [rs_out] in Hrun.
      rewrite Hw, <- app_assoc in Hrun. exact Hrun.
Qed.

(** Empty lines leave no trace. *)
Lemma recordLoop_skips_empty (ls : list gostring) :
  forall st, recordLoop F B ls st = recordLoop F B (filter nonEmpty ls) st.
Proof.
  induction ls as [|line ls IH]; intros st; [reflexivity|].
  destruct line as [|c line]; [exact (IH st)|].
  cbn [filter nonEmpty recordLoop].
  destruct (ParseEvent (c :: line)); [|apply IH].
  destruct (SQL.exec_fails F (rs_count st)); [reflexivity|].
  destruct (B <=? S (rs_batchSize st)); [|apply IH].
  destruct (SQL.commit_fails F (rs_commits st)); [reflexivity|].
  destruct (SQL.begin_fails F (S (rs_commits st))); [reflexivity|].
  destruct (SQL.Begin _). apply IH.
Qed.

End RecordLoop.

Section RecordHealthy.

Variable B : nat.

(** With a store that does not fail the loop runs to the end. *)
Lemma recordLoop_healthy (ls : list gostring) :
  forall st st' e, recordLoop SQL.healthy B ls st = (st', e) -> e = None.
Proof.
  induction ls as [|line ls IH]; intros st st' e Hrun.
  - simpl in Hrun. inversion Hrun. reflexivity.
  - destruct line as [|c line]; [exact (IH _ _ _ Hrun)|].
    cbn [recordLoop] in Hrun.
    destruct (ParseEvent (c :: line)); [|exact (IH _ _ _ Hrun)].
    cbn [SQL.exec_fails SQL.commit_fails SQL.begin_fails SQL.healthy] in Hrun.
    destruct (B <=? S (rs_batchSize st)); [|exact (IH _ _ _ Hrun)].
    destruct (SQL.Begin _). exact (IH _ _ _ Hrun).
Qed.

End RecordHealthy.

Section RecordCall.

Variable B : nat.
Hypothesis HB : 0 < B.


(** What one call of [Record] leaves behind: the batches it committed,
    and the rows in flight when it returned, which are lost.  Together
    they are the rows of the first [count] events. *)
Lemma recordWith_spec (F : SQL.Faults) (db : SQL.DB) (f : Stream) :
  let r := recordWith B F db (Some f) in
  exists bs inflight,
    SQL.batches (rr_db r) = SQL.batches db ++ bs
    /\ concat bs ++ inflight
       = map rowOf (firstn (rr_count r) (decoded (lines f)))
    /\ rr_count r <= length (decoded (lines f))
    /\ length inflight <= B
    /\ (rr_err r <> None -> Forall (fun b => length b = B) bs)
    /\ (rr_err r = None ->
        inflight = []
        /\ rr_count r = length (decoded (lines f))
        /\ exists full last,
             bs = full ++ [last]
             /\ Forall (fun b => length b = B) full
             /\ length last < B).
Proof.
  cbv zeta. unfold recordWith.
  destruct (SQL.begin_fails F 0).
  { exists [], []. cbn [rr_db rr_count rr_err]. rewrite app_nil_r.
    repeat split; auto; try (simpl; lia); try discriminate. }
  destruct (Begin_open db) as [Hb0 Htx0].
  destruct (SQL.Begin db) as [db0 tx0]. cbn [fst snd] in Hb0, Htx0.
  destruct (recordLoop F B (lines f) (mkRecordState db0 tx0 0 0 0 []))
    as [st e] eqn:Hrun.
  apply (recordLoop_spec F B HB (lines f) (mkRecordState db0 tx0 0 0 0 []) []
           st e Htx0 eq_refl HB) in Hrun.
  destruct Hrun as (bs & j & inflight & Hj & Hrows & Hbs & Hall & Hc & Hn
                    & Hin & Hok).
  cbn [rs_db rs_count rs_commits] in *. simpl in Hrows, Hn. subst j.
  rewrite Hb0 in Hbs.
  assert (forall (e' : option RecordError) (d : SQL.DB),
             e' <> None ->
             SQL.batches d = SQL.batches (rs_db st) ->
             exists bs0 inflight0,
               SQL.batches d = SQL.batches db ++ bs0
               /\ concat bs0 ++ inflight0
                  = map rowOf (firstn (rs_count st) (decoded (lines f)))
               /\ rs_count st <= length (decoded (lines f))
               /\ length inflight0 <= B
               /\ (e' <> None -> Forall (fun b => length b = B) bs0)
               /\ (e' = None ->
                   inflight0 = []
                   /\ rs_count st = length (decoded (lines f))
                   /\ exists full last,
                        bs0 = full ++ [last]
                        /\ Forall (fun b => length b = B) full
                        /\ length last < B)) as Hfail.
  { intros e' d He' Hd. exists bs, inflight. rewrite Hd, Hbs.
    repeat split; auto; try contradiction. }
  destruct e as [err|].
  - cbn [rr_db rr_count rr_err].
    apply Hfail; [discriminate|apply Rollback_batches].
  - destruct (Hok eq_refl) as (Hcount & Hopen & Hlast).
    destruct (read_error f).
    { cbn [rr_db rr_count rr_err].
      apply Hfail; [discriminate|apply Rollback_batches]. }
    destruct (SQL.commit_fails F (rs_commits st)).
    { cbn [rr_db rr_count rr_err].
      apply Hfail; [discriminate|].
      rewrite !Rollback_batches. reflexivity. }
    cbn [rr_db rr_count rr_err].
    exists (bs ++ [inflight]), [].
    rewrite Rollback_batches, (Commit_open _ _ _ Hopen), Hbs.
    rewrite concat_app. simpl. rewrite !app_nil_r, <- app_assoc.
    repeat split; auto; try (simpl; lia); try contradiction.
    exists bs, inflight. repeat split; auto.
Qed.

Lemma recordWith_healthy (db : SQL.DB) (ls : list gostring) :
  rr_err (recordWith B SQL.healthy db (Some (mkStream ls false))) = None.
Proof.
  unfold recordWith. cbn [SQL.begin_fails SQL.healthy lines read_error].
  destruct (SQL.Begin db) as [db0 tx0].
  destruct (recordLoop _ _ _ _) as [st e] eqn:Hrun.
  apply recordLoop_healthy in Hrun. subst e. reflexivity.
Qed.

Lemma recordWith_warnings (F : SQL.Faults) (db : SQL.DB) (f : Stream) :
  rr_err (recordWith B F db (Some f)) = None ->
  warningsOf (rr_out (recordWith B F db (Some f))) = decodeErrors (lines f).
Proof.
  unfold recordWith. destruct (SQL.begin_fails F 0); [discriminate|].
  destruct (SQL.Begin db) as [db0 tx0].
  destruct (recordLoop _ _ _ _) as [st e] eqn:Hrun.
  destruct e as [err|]; [discriminate|].
  apply recordLoop_warnings in Hrun. cbn [rs_out warningsOf app] in Hrun.
  destruct (read_error f); [discriminate|].
  destruct (SQL.commit_fails F (rs_commits st)); [discriminate|].
  intros _. exact Hrun.
Qed.

Lemma recordWith_skips_empty (F : SQL.Faults) (db : SQL.DB)
  (ls : list gostring) (re : bool) :
  recordWith B F db (Some (mkStream ls re))
  = recordWith B F db (Some (mkStream (filter nonEmpty ls) re)).
Proof.
  unfold recordWith. cbn [lines read_error].
  destruct (SQL.begin_fails F 0); [reflexivity|].
  destruct (SQL.Begin db) as [db0 tx0].
  rewrite recordLoop_skips_empty. reflexivity.
Qed.

End RecordCall.

Section Lines.

Lemma decoded_length (ls : list gostring) :
  length (decoded ls) + length (decodeErrors ls)
  = length (filter nonEmpty ls).
Proof.
  induction ls as [|l ls IH]; [reflexivity|].
  destruct l as [|c l]; [exact IH|].
  cbn [decoded decodeErrors filter nonEmpty].
  destruct (ParseEvent (c :: l)); simpl; lia.
Qed.

Lemma filter_nonEmpty_all (ls : list gostring) :
  Forall (fun l => nonEmpty l = true) ls -> filter nonEmpty ls = ls.
Proof.
  induction 1 as [|l ls Hl _ IH]; [reflexivity|].
  simpl. rewrite Hl, IH. reflexivity.
Qed.


Lemma prefix_firstn {A} (a b l : list A) (n : nat) :
  a ++ b = firstn n l -> a = firstn (length a) l.
Proof.
  intros H.
  assert (length a <= n) as Hle.
  { apply (f_equal (@length A)) in H.
    rewrite length_app, length_firstn in H. lia. }
  assert (firstn (length a) (a ++ b) = a) as Ha.
  { rewrite firstn_app, Nat.sub_diag, firstn_all. simpl.
    apply app_nil_r. }
  rewrite H, firstn_firstn, Nat.min_l in Ha by exact Hle.
  symmetry. exact Ha.
Qed.


(** A line of white space only is one field. *)
Lemma ParseEvent_blank (line : gostring) :
  line <> [] -> Strings.TrimSpace line = [] ->
  ParseEvent line = inr (MalformedLine 1).
Proof.
  intros Hne Ht. apply TrimSpace_nil in Ht.
  assert (~ In "|"%char line) as Hbar.
  { intros Hin. rewrite Forall_forall in Ht. apply Ht in Hin.
    discriminate Hin. }
  unfold ParseEvent. rewrite (Split_one _ (Contains_no_bar _ Hbar)).
  reflexivity.
Qed.

End Lines.

(** ** Ingestion: batches, skipped lines, failures *)




(** C5, as stated, fails in its last part: the warning carries the decode
    error and nothing of the line, so two different malformed lines
    print the same warning. *)
Lemma C5_counterexample :
  let ingest l := EventStore_Record SQL.healthy SQL.empty
                    (Some (mkStream [l] false)) in
  str "a" <> str "b"
  /\ rr_out (ingest (str "a")) = [Warning (MalformedLine 1)]
  /\ rr_out (ingest (str "b")) = [Warning (MalformedLine 1)].
Proof.
  cbv zeta. split; [discriminate|].
  split; vm_compute; reflexivity.
Qed.

(** C5, amended: with a store and a stream that do not fail, [Record] of
    [N] non-empty lines of which [M] fail to decode runs to the end,
    returns the count [N - M] and persists the events of the other lines
    in order; for each failing line it prints one warning, which carries
    the decode error (not the line), in the order of the lines. *)
Theorem C5_skip_malformed (B : nat) (db : SQL.DB) (ls : list gostring) :
  0 < B ->
  Forall (fun l => nonEmpty l = true) ls ->
  let r := recordWith B SQL.healthy db (Some (mkStream ls false)) in
  rr_err r = None
  /\ rr_count r = length ls - length (decodeErrors ls)
  /\ length (decodeErrors ls) <= length ls
  /\ warningsOf (rr_out r) = decodeErrors ls
  /\ SQL.table (rr_db r) = SQL.table db ++ map rowOf (decoded ls).
Proof.
  intros HB Hne. cbv zeta.
  pose proof (recordWith_healthy B db ls) as Hok.
  destruct (recordWith_spec B HB SQL.healthy db (mkStream ls false))
    as (bs & inflight & Hbs & Hrows & _ & _ & _ & Hsucc).
  destruct (Hsucc Hok) as (-> & Hcount & _).
  cbn [lines] in *.
  pose proof (decoded_length ls) as Hlen.
  rewrite (filter_nonEmpty_all ls Hne) in Hlen.
  split; [exact Hok|]. split; [lia|]. split; [lia|].
  split; [apply (recordWith_warnings B SQL.healthy db (mkStream ls false) Hok)|].
  rewrite (table_app db bs _ Hbs).
  rewrite app_nil_r, Hcount, firstn_all in Hrows. rewrite Hrows. reflexivity.
Qed.

Lemma C5_skip_malformed_witness :
  let ls := [str "2023-08-14T10:00:00Z | 42 | login | {}";
             str "garbage";
             str "2023-08-14T10:00:01Z | 42 | logout | {";
             str "2023-08-14T10:00:02Z | 43 | login | null"] in
  let r := recordWith maxBatchSize SQL.healthy SQL.empty
             (Some (mkStream ls false)) in
  rr_err r = None
  /\ rr_count r = length ls - length (decodeErrors ls)
  /\ length (decodeErrors ls) <= length ls
  /\ warningsOf (rr_out r) = decodeErrors ls
  /\ SQL.table (rr_db r) = SQL.table SQL.empty ++ map rowOf (decoded ls).
Proof.
  cbv zeta. apply C5_skip_malformed.
  - vm_compute. lia.
  - repeat constructor.
Defined.




(** C9, as stated, fails: only a line that is exactly empty is skipped
    in silence; a line of blanks goes to [ParseEvent], which finds one
    field, and the warning is printed. *)
Lemma C9_counterexample :
  let line := str "   " in
  let r := EventStore_Record SQL.healthy SQL.empty
             (Some (mkStream [line] false)) in
  Strings.TrimSpace line = []
  /\ rr_out r = [Warning (MalformedLine 1)]
  /\ rr_count r = 0.
Proof. cbv zeta. vm_compute. repeat split; reflexivity. Qed.

(** C9, amended: [Record] skips in silence the lines that are exactly
    empty: dropping them from the stream changes neither the count, nor
    the store, nor the output.  A line that is not empty but consists of
    white space only is neither recorded nor counted either, but not in
    silence: decoding it fails with one field found, and the loop prints
    that warning and goes on. *)
Theorem C9_empty_lines (B : nat) (F : SQL.Faults) :
  (forall db ls re,
      recordWith B F db (Some (mkStream ls re))
      = recordWith B F db (Some (mkStream (filter nonEmpty ls) re)))
  /\ (forall line rest st,
        line <> [] -> Strings.TrimSpace line = [] ->
        ParseEvent line = inr (MalformedLine 1)
        /\ recordLoop F B (line :: rest) st
           = recordLoop F B rest
               (mkRecordState (rs_db st) (rs_tx st) (rs_count st)
                  (rs_batchSize st) (rs_commits st)
                  (rs_out st ++ [Warning (MalformedLine 1)]))).
Proof.
  split.
  - intros db ls re. apply recordWith_skips_empty.
  - intros line rest st Hne Ht.
    pose proof (ParseEvent_blank line Hne Ht) as Hp.
    split; [exact Hp|].
    destruct line as [|c line]; [contradiction|].
    cbn [recordLoop]. rewrite Hp. reflexivity.
Qed.

Lemma C9_empty_lines_witness :
  let line := [" "%char; "009"%char; " "%char] in
  ParseEvent line = inr (MalformedLine 1)
  /\ forall rest st,
       recordLoop SQL.healthy maxBatchSize (line :: rest) st
       = recordLoop SQL.healthy maxBatchSize rest
           (mkRecordState (rs_db st) (rs_tx st) (rs_count st)
              (rs_batchSize st) (rs_commits st)
              (rs_out st ++ [Warning (MalformedLine 1)])).
Proof.
  cbv zeta.
  assert ([" "%char; "009"%char; " "%char] <> []) as Hne by discriminate.
  assert (Strings.TrimSpace [" "%char; "009"%char; " "%char] = []) as Ht
    by (vm_compute; reflexivity).
  split.
  - apply (proj2 (C9_empty_lines maxBatchSize SQL.healthy) _ [] 
             (mkRecordState SQL.empty 0 0 0 0 []) Hne Ht).
  - intros rest st.
    apply (proj2 (C9_empty_lines maxBatchSize SQL.healthy) _ rest st Hne Ht).
Defined.

(** ** The query: text order, selection, the loop over the rows *)

Section TextOrder.

Import SQL.

Lemma text_compare_refl (a : gostring) : text_compare a a = Eq.
Proof.
  induction a as [|x a IH]; [reflexivity|].
  simpl. rewrite N.compare_refl. exact IH.
Qed.

Lemma text_compare_antisym (a : gostring) :
  forall b, text_compare b a = CompOpp (text_compare a b).
Proof.
  induction a as [|x a IH]; intros [|y b]; try reflexivity.
  simpl. rewrite (N.compare_antisym (N_of_ascii x) (N_of_ascii y)).
  destruct (N.compare (N_of_ascii x) (N_of_ascii y)); simpl;
    [apply IH|reflexivity|reflexivity].
Qed.

Lemma text_leb_total (a b : gostring) :
  text_leb a b = false -> text_leb b a = true.
Proof.
  unfold text_leb. rewrite (text_compare_antisym a b).
  destruct (text_compare a b); simpl; intros H; try discriminate; reflexivity.
Qed.

Lemma text_leb_refl (a : gostring) : text_leb a a = true.
Proof. unfold text_leb. rewrite text_compare_refl. reflexivity. Qed.

Lemma text_leb_trans (a : gostring) :
  forall b c, text_leb a b = true -> text_leb b c = true ->
              text_leb a c = true.
Proof.
  unfold text_leb.
  induction a as [|x a IH]; intros [|y b] [|z c]; simpl; intros H1 H2;
    try reflexivity; try discriminate.
  destruct (N.compare_spec (N_of_ascii x) (N_of_ascii y)) as [E1|L1|G1];
    try discriminate;
    destruct (N.compare_spec (N_of_ascii y) (N_of_ascii z)) as [E2|L2|G2];
    try discriminate.
  - rewrite E1, E2, N.compare_refl. apply (IH b c); assumption.
  - rewrite E1. destruct (N.compare_spec (N_of_ascii y) (N_of_ascii z));
      try reflexivity; lia.
  - rewrite <- E2. destruct (N.compare_spec (N_of_ascii x) (N_of_ascii y));
      try reflexivity; lia.
  - destruct (N.compare_spec (N_of_ascii x) (N_of_ascii z));
      try reflexivity; lia.
Qed.

Lemma rowLe_trans (a b c : Row) : rowLe a b -> rowLe b c -> rowLe a c.
Proof. unfold rowLe. apply text_leb_trans. Qed.

Lemma insertRow_perm (r : Row) (l : list Row) :
  Permutation (insertRow r l) (r :: l).
Proof.
  induction l as [|x l IH]; simpl; [apply Permutation_refl|].
  destruct (text_leb (timestamp r) (timestamp x)); [apply Permutation_refl|].
  eapply perm_trans; [apply perm_skip; exact IH|apply perm_swap].
Qed.

Lemma orderByTimestamp_perm (l : list Row) :
  Permutation (orderByTimestamp l) l.
Proof.
  induction l as [|r l IH]; simpl; [constructor|].
  eapply perm_trans; [apply insertRow_perm|apply perm_skip; exact IH].
Qed.

Lemma insertRow_sorted (r : Row) (l : list Row) :
  StronglySorted rowLe l -> StronglySorted rowLe (insertRow r l).
Proof.
  induction 1 as [|x l Hs IH Hx]; simpl.
  - constructor; constructor.
  - destruct (text_leb (timestamp r) (timestamp x)) eqn:E.
    + constructor; [constructor; assumption|].
      constructor; [exact E|].
      eapply Forall_impl; [|exact Hx].
      intros y Hy. eapply rowLe_trans; [exact E|exact Hy].
    + constructor; [exact IH|].
      apply text_leb_total in E.
      eapply Permutation_Forall;
        [apply Permutation_sym; apply insertRow_perm|].
      constructor; assumption.
Qed.

Lemma orderByTimestamp_sorted (l : list Row) :
  StronglySorted rowLe (orderByTimestamp l).
Proof.
  induction l as [|r l IH]; simpl; [constructor|].
  apply insertRow_sorted. exact IH.
Qed.

Lemma Select_sorted (db : DB) (w : list Cond) :
  StronglySorted rowLe (Select db w).
Proof. apply orderByTimestamp_sorted. Qed.

Lemma Select_perm (db : DB) (w : list Cond) :
  Permutation (Select db w)
    (filter (fun r => forallb (fun c => holds c r) w) (table db)).
Proof. apply orderByTimestamp_perm. Qed.

Lemma Select_In (db : DB) (w : list Cond) (r : Row) :
  In r (Select db w) -> In r (table db).
Proof.
  intros H. apply (Permutation_in _ (Select_perm db w)) in H.
  apply filter_In in H. apply H.
Qed.

Lemma In_firstn {A} (n : nat) (l : list A) (x : A) :
  In x (firstn n l) -> In x l.
Proof.
  intros H. rewrite <- (firstn_skipn n l). apply in_or_app. left. exact H.
Qed.

Lemma StronglySorted_firstn {A} (R : A -> A -> Prop) (l : list A) :
  StronglySorted R l -> forall n, StronglySorted R (firstn n l).
Proof.
  induction 1 as [|x l Hs IH Hx]; intros [|n]; simpl; try constructor.
  - apply IH.
  - rewrite Forall_forall in Hx |- *. intros y Hy. apply Hx.
    eapply In_firstn; eassumption.
Qed.

Lemma StronglySorted_map {A C} (f : A -> C) (R : C -> C -> Prop)
  (l : list A) :
  StronglySorted R (map f l) <-> StronglySorted (fun a b => R (f a) (f b)) l.
Proof.
  induction l as [|x l IH]; simpl; split; intros H; try constructor;
    inversion H; subst; try (apply IH; assumption).
  - rewrite Forall_forall in *. intros y Hy. auto using in_map.
  - rewrite Forall_forall in *. intros y Hy.
    apply in_map_iff in Hy as (a & <- & Ha). auto.
Qed.

End TextOrder.

Section QueryLoop.

Variable F : SQL.QueryFaults.

(** The loop yields the events of a prefix of the rows, in their
    order; without an error, of all the rows. *)
Lemma queryLoop_spec (rows : list SQL.Row) :
  forall count out count' out' e,
    queryLoop F rows count out = (count', out', e) ->
    exists k evs,
      out' = out ++ evs
      /\ count' = count + k
      /\ length evs = k
      /\ Forall2 (fun r ev =>
                    exists t, Time.Parse (SQL.timestamp r) = Some t
                              /\ ev = eventOf r t)
                 (firstn k rows) evs
      /\ (e = None -> k = length rows).
Proof.
  induction rows as [|r rows IH]; intros count out count' out' e H.
  - simpl in H. inversion H; subst.
    exists 0, []. rewrite app_nil_r, Nat.add_0_r.
    repeat split; auto; try constructor.
  - cbn [queryLoop] in H.
    destruct (SQL.scan_fails F count).
    { inversion H; subst. exists 0, []. rewrite app_nil_r, Nat.add_0_r.
      repeat split; auto; try discriminate; try constructor. }
    destruct (Time.Parse (SQL.timestamp r)) as [t|] eqn:Ep.
    + apply IH in H as (k & evs & -> & -> & Hlen & Hall & Hok).
      exists (S k), (eventOf r t :: evs).
      split; [rewrite <- app_assoc; reflexivity|].
      split; [lia|]. split; [simpl; lia|].
      split; [simpl; constructor; [exists t; auto|exact Hall]|].
      intros E. simpl. rewrite (Hok E). reflexivity.
    + inversion H; subst. exists 0, []. rewrite app_nil_r, Nat.add_0_r.
      repeat split; auto; try discriminate; try constructor.
Qed.

(** Over rows whose timestamps all parse, only a failing [Scan] stops
    the loop. *)
Lemma queryLoop_total (rows : list SQL.Row) :
  (forall n, SQL.scan_fails F n = false) ->
  Forall (fun r => canonicalTimestamp (SQL.timestamp r) = true) rows ->
  forall count out,
    snd (queryLoop F rows count out) = None.
Proof.
  intros Hscan. induction 1 as [|r rows Hr _ IH]; intros count out;
    [reflexivity|].
  cbn [queryLoop]. rewrite Hscan.
  destruct (Format_Parse _ Hr) as (t & -> & _). apply IH.
Qed.

End QueryLoop.

Section QueryCall.

(** The events [Query] yields are those of a prefix of the selected
    rows. *)
Lemma Query_events (F : SQL.QueryFaults) (db : SQL.DB) (u : Z)
  (filters : QueryFilters) :
  let r := EventStore_Query F db u filters in
  exists k,
    Forall2 (fun row ev =>
               exists t, Time.Parse (SQL.timestamp row) = Some t
                         /\ ev = eventOf row t)
            (firstn k (SQL.Select db (whereClause u filters)))
            (qr_events r)
    /\ qr_count r = length (qr_events r).
Proof.
  cbv zeta. unfold EventStore_Query.
  destruct (QueryFilters_Validate filters).
  { exists 0. split; [constructor|reflexivity]. }
  destruct (SQL.query_fails F).
  { exists 0. split; [constructor|reflexivity]. }
  set (rows := SQL.Select db (whereClause u filters)).
  set (delivered := match SQL.rows_err F with
                    | Some n => firstn n rows
                    | None => rows
                    end).
  destruct (queryLoop F delivered 0 []) as [[count out] e] eqn:Hrun.
  apply queryLoop_spec in Hrun as (k & evs & Hout & Hc & Hlen & Hall & _).
  simpl in Hout, Hc. subst out count.
  assert (exists k', firstn k delivered = firstn k' rows) as [k' Hk].
  { unfold delivered. destruct (SQL.rows_err F) as [n|].
    - exists (Nat.min k n). apply firstn_firstn.
    - exists k. reflexivity. }
  rewrite Hk in Hall.
  exists k'.
  destruct e as [err|]; [split; [exact Hall|symmetry; exact Hlen]|].
  destruct (SQL.rows_err F) as [n|];
    [destruct (n <? length rows)|];
    (split; [exact Hall|symmetry; exact Hlen]).
Qed.

End QueryCall.

Section QueryHealthy.

(** On a store that does not fail and whose timestamps are canonical,
    [Query] with valid filters yields one event per selected row. *)
Lemma Query_healthy (db : SQL.DB) (u : Z) (filters : QueryFilters) :
  storedCanonical db ->
  QueryFilters_Validate filters = None ->
  let r := EventStore_Query SQL.healthyQuery db u filters in
  qr_err r = None
  /\ qr_count r = length (SQL.Select db (whereClause u filters))
  /\ qr_queries r = [whereClause u filters]
  /\ Forall2 (fun row ev =>
                exists t, Time.Parse (SQL.timestamp row) = Some t
                          /\ ev = eventOf row t)
             (SQL.Select db (whereClause u filters)) (qr_events r).
Proof.
  intros Hcan Hval. cbv zeta. unfold EventStore_Query. rewrite Hval.
  cbn [SQL.query_fails SQL.rows_err SQL.healthyQuery].
  set (rows := SQL.Select db (whereClause u filters)).
  assert (Forall (fun r => canonicalTimestamp (SQL.timestamp r) = true) rows)
    as Hrows.
  { apply Forall_forall. intros r Hin. apply Select_In in Hin.
    unfold storedCanonical in Hcan. rewrite Forall_forall in Hcan. auto. }
  pose proof (queryLoop_total SQL.healthyQuery rows (fun _ => eq_refl)
                Hrows 0 []) as Hnone.
  destruct (queryLoop SQL.healthyQuery rows 0 []) as [[count out] e] eqn:Hrun.
  simpl in Hnone. subst e.
  apply queryLoop_spec in Hrun as (k & evs & Hout & Hc & Hlen & Hall & Hk).
  specialize (Hk eq_refl). subst k. rewrite Hk, firstn_all in Hall.
  simpl in Hout, Hc. subst out count.
  cbn [qr_err qr_count qr_queries qr_events]. repeat split; auto.
Qed.

End QueryHealthy.

(** ** Filters *)

(** C6: [Validate] returns its error exactly when both bounds are set
    and [From] is strictly after [To] as instants; in every other case,
    empty filters included, it returns no error.  With invalid filters
    [Query] returns that error and the count 0 without sending a query
    to the store.  With empty filters the only condition sent is the one
    on the user id, the rows selected are all the rows of that user, and
    on a store that does not fail each of them is yielded. *)
Theorem C6_validate :
  (forall f,
      QueryFilters_Validate f = Some InvalidRange
      <-> (Time.IsZero (From f) = false /\ Time.IsZero (To f) = false
           /\ Time.After (From f) (To f) = true))
  /\ (forall f,
        QueryFilters_Validate f <> Some InvalidRange ->
        QueryFilters_Validate f = None)
  /\ (forall a b,
        Time.After a b = true
        <-> (Time.instant b < Time.instant a
             \/ (Time.instant a = Time.instant b
                 /\ Time.nsec b < Time.nsec a))%Z)
  /\ (forall F db u f,
        QueryFilters_Validate f = Some InvalidRange ->
        EventStore_Query F db u f
        = mkQueryResult 0 (Some (InvalidFilters InvalidRange)) [] [])
  /\ (forall db u f,
        QueryFilters_IsEmpty f = true ->
        QueryFilters_Validate f = None
        /\ whereClause u f = [SQL.UserIs u]
        /\ Permutation (SQL.Select db (whereClause u f))
             (filter (fun r => (SQL.user_id r =? u)%Z) (SQL.table db))
        /\ (storedCanonical db ->
            let r := EventStore_Query SQL.healthyQuery db u f in
            qr_err r = None
            /\ qr_count r
               = length (filter (fun r => (SQL.user_id r =? u)%Z)
                                (SQL.table db))
            /\ Forall2 (fun row ev =>
                          exists t, Time.Parse (SQL.timestamp row) = Some t
                                    /\ ev = eventOf row t)
                       (SQL.Select db (whereClause u f)) (qr_events r))).
Proof.
  split; [|split; [|split; [|split]]].
  - intros f. unfold QueryFilters_Validate.
    destruct (Time.IsZero (From f)), (Time.IsZero (To f)),
      (Time.After (From f) (To f)); simpl; split;
      try discriminate; try (intros (? & ? & ?); discriminate); auto.
  - intros f. unfold QueryFilters_Validate.
    destruct (_ && _); [intros H; exfalso; apply H; reflexivity|reflexivity].
  - intros a b. unfold Time.After.
    rewrite orb_true_iff, andb_true_iff, Z.ltb_lt, Z.ltb_lt, Z.eqb_eq.
    reflexivity.
  - intros F db u f H. unfold EventStore_Query. rewrite H. reflexivity.
  - intros db u f H. unfold QueryFilters_IsEmpty in H.
    apply andb_prop in H as [H Hto]. apply andb_prop in H as [Hty Hfrom].
    assert (QueryFilters_Validate f = None) as Hval
      by (unfold QueryFilters_Validate; rewrite Hfrom; reflexivity).
    assert (whereClause u f = [SQL.UserIs u]) as Hwhere.
    { unfold whereClause. rewrite Hfrom, Hto.
      destruct (FilterEventType f); [reflexivity|discriminate Hty]. }
    assert (forall db0,
               filter (fun r => forallb (fun c => SQL.holds c r) [SQL.UserIs u])
                      (SQL.table db0)
               = filter (fun r => (SQL.user_id r =? u)%Z) (SQL.table db0))
      as Hfilter.
    { intros db0. apply filter_ext. intros r. simpl. apply andb_true_r. }
    split; [exact Hval|]. split; [exact Hwhere|]. split.
    + rewrite Hwhere, <- Hfilter. apply Select_perm.
    + intros Hcan. cbv zeta.
      destruct (Query_healthy db u f Hcan Hval) as (He & Hc & _ & Hall).
      split; [exact He|]. split; [|exact Hall].
      rewrite Hc, Hwhere, <- Hfilter.
      apply Permutation_length. apply Select_perm.
Qed.

Lemma C6_validate_witness :
  let t10 := Time.mkTime 2023 8 14 10 0 0 0 0 in
  let t11 := Time.mkTime 2023 8 14 11 0 0 0 0 in
  let bad := mkQueryFilters [] t11 t10 in
  let none := mkQueryFilters [] Time.zero Time.zero in
  QueryFilters_Validate bad = Some InvalidRange
  /\ EventStore_Query SQL.healthyQuery SQL.empty 42 bad
     = mkQueryResult 0 (Some (InvalidFilters InvalidRange)) [] []
  /\ QueryFilters_Validate none = None
  /\ whereClause 42 none = [SQL.UserIs 42].
Proof.
  cbv zeta.
  destruct C6_validate as (Hiff & _ & _ & Hquery & Hempty).
  assert (QueryFilters_Validate
            (mkQueryFilters [] (Time.mkTime 2023 8 14 11 0 0 0 0)
                            (Time.mkTime 2023 8 14 10 0 0 0 0))
          = Some InvalidRange) as Hbad.
  { apply Hiff. repeat split; reflexivity. }
  split; [exact Hbad|].
  split; [apply Hquery; exact Hbad|].
  destruct (Hempty SQL.empty 42%Z (mkQueryFilters [] Time.zero Time.zero)
              eq_refl) as (Hv & Hw & _).
  split; [exact Hv|exact Hw].
Defined.

(** C10: a bound whose instant is the zero time counts as absent.  When
    [From] is the zero instant, [Validate] returns no error, the
    condition on the lower bound is not sent, and [Query] answers as it
    does when [From] is the zero value; likewise for [To] and the upper
    bound.  So no filter states the bound "from the zero instant on". *)
Theorem C10_zero_bound_absent :
  (forall f,
      Time.IsZero (From f) = true ->
      QueryFilters_Validate f = None
      /\ forall u,
          (forall s, ~ In (SQL.TimestampGe s) (whereClause u f))
          /\ forall F db,
              EventStore_Query F db u f
              = EventStore_Query F db u
                  (mkQueryFilters (FilterEventType f) Time.zero (To f)))
  /\ (forall f,
        Time.IsZero (To f) = true ->
        QueryFilters_Validate f = None
        /\ forall u,
            (forall s, ~ In (SQL.TimestampLe s) (whereClause u f))
            /\ forall F db,
                EventStore_Query F db u f
                = EventStore_Query F db u
                    (mkQueryFilters (FilterEventType f) (From f) Time.zero)).
Proof.
  split; intros f Hz.
  - assert (QueryFilters_Validate f = None) as Hval
      by (unfold QueryFilters_Validate; rewrite Hz; reflexivity).
    split; [exact Hval|]. intros u. split.
    + intros s. unfold whereClause. rewrite Hz. cbn [negb].
      destruct (FilterEventType f); destruct (Time.IsZero (To f));
        cbn [negb app In]; intuition discriminate.
    + intros F db. unfold EventStore_Query. rewrite Hval.
      unfold QueryFilters_Validate, whereClause.
      cbn [From To FilterEventType]. rewrite Hz. reflexivity.
  - assert (QueryFilters_Validate f = None) as Hval
      by (unfold QueryFilters_Validate; rewrite Hz, andb_false_r; reflexivity).
    split; [exact Hval|]. intros u. split.
    + intros s. unfold whereClause. rewrite Hz. cbn [negb].
      destruct (FilterEventType f); destruct (Time.IsZero (From f));
        cbn [negb app In]; intuition discriminate.
    + intros F db. unfold EventStore_Query. rewrite Hval.
      unfold QueryFilters_Validate, whereClause.
      cbn [From To FilterEventType]. rewrite Hz.
      change (Time.IsZero Time.zero) with true.
      rewrite andb_false_r. reflexivity.
Qed.

Lemma C10_zero_bound_absent_witness :
  let from := Time.mkTime 1 1 1 1 0 0 0 3600 in
  let f := mkQueryFilters [] from (Time.mkTime 2023 8 14 10 0 0 0 0) in
  let old := SQL.mkRow 42 (str "0000-06-01T00:00:00Z") (str "login")
                       (str "{}") in
  let db := SQL.mkDB [[old]] [] in
  Time.IsZero from = true
  /\ QueryFilters_Validate f = None
  /\ (forall s, ~ In (SQL.TimestampGe s) (whereClause 42 f))
  /\ qr_printed (EventStore_Query SQL.healthyQuery db 42 f)
     = [str "0000-06-01T00:00:00Z | 42 | login | {}"].
Proof.
  cbv zeta.
  destruct (proj1 C10_zero_bound_absent
              (mkQueryFilters [] (Time.mkTime 1 1 1 1 0 0 0 3600)
                              (Time.mkTime 2023 8 14 10 0 0 0 0))
              eq_refl) as (Hv & Hu).
  destruct (Hu 42%Z) as (Hge & Hq).
  split; [reflexivity|]. split; [exact Hv|]. split; [exact Hge|].
  rewrite Hq. vm_compute. reflexivity.
Defined.

(** ** Text order and the order of instants *)

Section Calendar.

Local Open Scope Z_scope.
Import Time.

Lemma daysSinceEpoch_next (y : Z) :
  daysSinceEpoch (y + 1)
  = daysSinceEpoch y + 365 + (if isLeap y then 1 else 0).
Proof.
  unfold daysSinceEpoch, isLeap. cbv zeta.
  replace (y + 1 - 1) with y by lia.
  destruct (Z.eqb_spec (y mod 4) 0), (Z.eqb_spec (y mod 100) 0),
    (Z.eqb_spec (y mod 400) 0); cbn [andb orb negb];
    Z.div_mod_to_equations; lia.
Qed.

Lemma daysSinceEpoch_mono (y1 y2 : Z) :
  y1 <= y2 -> daysSinceEpoch y1 <= daysSinceEpoch y2.
Proof.
  unfold daysSinceEpoch. cbv zeta. intros H.
  Z.div_mod_to_equations. lia.
Qed.

Ltac calendar :=
  repeat match goal with
         | |- context [daysBefore ?m] =>
             let v := eval vm_compute in (daysBefore m) in
             change (daysBefore m) with v
         | |- context [(3 <=? ?m)] =>
             let v := eval vm_compute in (3 <=? m) in
             change (3 <=? m) with v
         end;
  cbn [andb].

(** The day within the year, counted from 0. *)
Lemma yearDay_bounds (y m d : Z) :
  1 <= m <= 12 -> 1 <= d <= daysIn m y ->
  0 <= daysBefore m + (if isLeap y && (3 <=? m) then 1 else 0) + (d - 1)
    <= 364 + (if isLeap y then 1 else 0).
Proof.
  intros Hm Hd. unfold daysIn in Hd.
  destruct (month_cases m Hm) as [E|[E|[E|[E|[E|[E|[E|[E|[E|[E|[E|E]]]]]]]]]]];
    subst m; destruct (isLeap y); cbn in Hd; calendar; lia.
Qed.

Lemma yearDay_month_mono (y m1 d1 m2 d2 : Z) :
  1 <= m1 <= 12 -> 1 <= d1 <= daysIn m1 y ->
  1 <= m2 <= 12 -> 1 <= d2 <= daysIn m2 y ->
  m1 < m2 ->
  daysBefore m1 + (if isLeap y && (3 <=? m1) then 1 else 0) + (d1 - 1)
  < daysBefore m2 + (if isLeap y && (3 <=? m2) then 1 else 0) + (d2 - 1).
Proof.
  intros Hm1 Hd1 Hm2 Hd2 Hlt. unfold daysIn in Hd1, Hd2.
  destruct (month_cases m1 Hm1)
    as [E|[E|[E|[E|[E|[E|[E|[E|[E|[E|[E|E]]]]]]]]]]]; subst m1;
    destruct (month_cases m2 Hm2)
      as [E|[E|[E|[E|[E|[E|[E|[E|[E|[E|[E|E]]]]]]]]]]]; subst m2;
    try lia; destruct (isLeap y); cbn in Hd1, Hd2; calendar; lia.
Qed.

(** Among valid dates the day number grows with the date. *)
Lemma dayNumber_year_mono (y1 m1 d1 y2 m2 d2 : Z) :
  1 <= m1 <= 12 -> 1 <= d1 <= daysIn m1 y1 ->
  1 <= m2 <= 12 -> 1 <= d2 <= daysIn m2 y2 ->
  y1 < y2 -> dayNumber y1 m1 d1 < dayNumber y2 m2 d2.
Proof.
  intros Hm1 Hd1 Hm2 Hd2 Hlt. unfold dayNumber.
  pose proof (yearDay_bounds y1 m1 d1 Hm1 Hd1) as B1.
  pose proof (yearDay_bounds y2 m2 d2 Hm2 Hd2) as B2.
  pose proof (daysSinceEpoch_next y1) as Hn.
  pose proof (daysSinceEpoch_mono (y1 + 1) y2 ltac:(lia)) as Hmono.
  lia.
Qed.

Lemma dayNumber_month_mono (y m1 d1 m2 d2 : Z) :
  1 <= m1 <= 12 -> 1 <= d1 <= daysIn m1 y ->
  1 <= m2 <= 12 -> 1 <= d2 <= daysIn m2 y ->
  m1 < m2 -> dayNumber y m1 d1 < dayNumber y m2 d2.
Proof.
  intros Hm1 Hd1 Hm2 Hd2 Hlt. unfold dayNumber.
  pose proof (yearDay_month_mono y m1 d1 m2 d2 Hm1 Hd1 Hm2 Hd2 Hlt). lia.
Qed.

Lemma dayNumber_day_mono (y m d1 d2 : Z) :
  d1 < d2 -> dayNumber y m d1 < dayNumber y m d2.
Proof. unfold dayNumber. lia. Qed.

End Calendar.

Section TextAndInstants.

Local Open Scope Z_scope.
Import Strconv.

Lemma text_compare_app (a1 a2 b1 b2 : gostring) :
  length a1 = length a2 ->
  SQL.text_compare (a1 ++ b1) (a2 ++ b2)
  = match SQL.text_compare a1 a2 with
    | Eq => SQL.text_compare b1 b2
    | c => c
    end.
Proof.
  revert a2. induction a1 as [|x a1 IH]; intros [|y a2] Hl;
    try discriminate Hl; [reflexivity|].
  simpl. destruct (N.compare (N_of_ascii x) (N_of_ascii y));
    try reflexivity.
  apply IH. simpl in Hl. lia.
Qed.

Lemma digitsValue_lt (s1 : gostring) :
  forall s2 n1 n2,
    length s1 = length s2 ->
    forallb isDigit s1 = true -> forallb isDigit s2 = true ->
    n1 < n2 -> digitsValue n1 s1 < digitsValue n2 s2.
Proof.
  induction s1 as [|c1 s1 IH]; intros [|c2 s2] n1 n2 Hl H1 H2 Hlt;
    try discriminate Hl; [exact Hlt|].
  simpl in H1, H2. apply andb_prop in H1 as [Hc1 H1], H2 as [Hc2 H2].
  pose proof (isDigit_digitVal c1 Hc1) as [B1 _].
  pose proof (isDigit_digitVal c2 Hc2) as [B2 _].
  change (digitsValue n1 (c1 :: s1)) with (digitsValue (n1 * 10 + digitVal c1) s1).
  change (digitsValue n2 (c2 :: s2)) with (digitsValue (n2 * 10 + digitVal c2) s2).
  apply IH; try assumption; [simpl in Hl; lia|lia].
Qed.

(** On runs of digits of the same length the byte order is the order of
    the numbers. *)
Lemma text_compare_digits (s1 : gostring) :
  forall s2 n,
    length s1 = length s2 ->
    forallb isDigit s1 = true -> forallb isDigit s2 = true ->
    SQL.text_compare s1 s2 = (digitsValue n s1 ?= digitsValue n s2).
Proof.
  induction s1 as [|c1 s1 IH]; intros [|c2 s2] n Hl H1 H2;
    try discriminate Hl.
  - simpl. symmetry. apply Z.compare_refl.
  - simpl in H1, H2. apply andb_prop in H1 as [Hc1 H1], H2 as [Hc2 H2].
    change (digitsValue n (c1 :: s1)) with (digitsValue (n * 10 + digitVal c1) s1).
    change (digitsValue n (c2 :: s2)) with (digitsValue (n * 10 + digitVal c2) s2).
    assert (length s1 = length s2) as Hl' by (simpl in Hl; lia).
    simpl.
    destruct (N.compare_spec (N_of_ascii c1) (N_of_ascii c2)) as [E|L|G].
    + unfold digitVal. rewrite E. apply IH; assumption.
    + symmetry. apply Z.compare_lt_iff.
      apply digitsValue_lt; try assumption. unfold digitVal. lia.
    + symmetry. apply Z.compare_gt_iff.
      apply digitsValue_lt; try assumption; [lia|]. unfold digitVal. lia.
Qed.

Lemma text_compare_appendInt (w : nat) (x y : Z) :
  0 <= x < 10 ^ Z.of_nat (S w) -> 0 <= y < 10 ^ Z.of_nat (S w) ->
  SQL.text_compare (Time.appendInt x (S w)) (Time.appendInt y (S w))
  = (x ?= y).
Proof.
  intros Hx Hy.
  destruct (appendInt_spec w x Hx) as (Lx & Dx & Vx).
  destruct (appendInt_spec w y Hy) as (Ly & Dy & Vy).
  rewrite (text_compare_digits _ _ 0) by (assumption || congruence).
  rewrite Vx, Vy. reflexivity.
Qed.

Lemma text_compare_field (w : nat) (x y : Z) (c : ascii)
  (r1 r2 : gostring) :
  0 <= x < 10 ^ Z.of_nat (S w) -> 0 <= y < 10 ^ Z.of_nat (S w) ->
  SQL.text_compare (Time.appendInt x (S w) ++ [c] ++ r1)
                   (Time.appendInt y (S w) ++ [c] ++ r2)
  = match x ?= y with
    | Eq => SQL.text_compare r1 r2
    | o => o
    end.
Proof.
  intros Hx Hy. rewrite text_compare_app.
  - rewrite text_compare_appendInt by assumption.
    destruct (x ?= y); try reflexivity.
    simpl. rewrite N.compare_refl. reflexivity.
  - destruct (appendInt_spec w x Hx) as (Lx & _).
    destruct (appendInt_spec w y Hy) as (Ly & _). congruence.
Qed.

(** For two readings in the same zone the text order of what [Format]
    prints is the order of the instants. *)
Lemma text_le_instant_le (t1 t2 : Time.Time) :
  canonicalTime t1 = true -> canonicalTime t2 = true ->
  Time.offset t1 = Time.offset t2 ->
  SQL.text_leb (Time.Format t1) (Time.Format t2) = true ->
  Time.instant t1 <= Time.instant t2.
Proof.
  intros H1 H2 Hoff.
  apply canonicalTime_bounds in H1
    as (Hy1 & Hmo1 & Hd1 & Hh1 & Hmi1 & Hs1 & _ & _ & _).
  apply canonicalTime_bounds in H2
    as (Hy2 & Hmo2 & Hd2 & Hh2 & Hmi2 & Hs2 & _ & _ & _).
  pose proof (daysIn_bounds _ (Time.year t1) Hmo1) as D1.
  pose proof (daysIn_bounds _ (Time.year t2) Hmo2) as D2.
  unfold SQL.text_leb, Time.Format. rewrite Hoff.
  rewrite (text_compare_field 3)
    by (change (10 ^ Z.of_nat 4) with 10000; lia).
  rewrite !(text_compare_field 1)
    by (change (10 ^ Z.of_nat 2) with 100; lia).
  rewrite text_compare_app.
  2:{ destruct (appendInt_spec 1 (Time.second t1)) as (L1 & _);
        [change (10 ^ Z.of_nat 2) with 100; lia|].
      destruct (appendInt_spec 1 (Time.second t2)) as (L2 & _);
        [change (10 ^ Z.of_nat 2) with 100; lia|]. congruence. }
  rewrite (text_compare_appendInt 1)
    by (change (10 ^ Z.of_nat 2) with 100; lia).
  rewrite text_compare_refl.
  unfold Time.instant. rewrite Hoff.
  destruct t1 as [y1 mo1 d1 h1 mi1 s1 n1 o1].
  destruct t2 as [y2 mo2 d2 h2 mi2 s2 n2 o2].
  cbn [Time.year Time.month Time.day Time.hour Time.minute Time.second
       Time.nsec Time.offset] in *.
  destruct (Z.compare_spec y1 y2) as [Ey|Ly|Gy]; try discriminate.
  2:{ intros _.
      pose proof (dayNumber_year_mono y1 mo1 d1 y2 mo2 d2 Hmo1 Hd1 Hmo2 Hd2 Ly).
      lia. }
  subst y2.
  destruct (Z.compare_spec mo1 mo2) as [Em|Lm|Gm]; try discriminate.
  2:{ intros _.
      pose proof (dayNumber_month_mono y1 mo1 d1 mo2 d2 Hmo1 Hd1 Hmo2 Hd2 Lm).
      lia. }
  subst mo2.
  destruct (Z.compare_spec d1 d2) as [Ed|Ld|Gd]; try discriminate.
  2:{ intros _. pose proof (dayNumber_day_mono y1 mo1 d1 d2 Ld). lia. }
  subst d2.
  destruct (Z.compare_spec h1 h2) as [Eh|Lh|Gh]; try discriminate;
    [|intros _; lia].
  subst h2.
  destruct (Z.compare_spec mi1 mi2) as [Emi|Lmi|Gmi]; try discriminate;
    [|intros _; lia].
  subst mi2.
  destruct (Z.compare_spec s1 s2) as [Es|Ls|Gs]; try discriminate;
    intros _; lia.
Qed.

End TextAndInstants.

(** ** The order of the results *)

Section ResultOrder.

Lemma Forall2_strengthen {A C} (S : A -> Prop) (P Q : A -> C -> Prop)
  (l1 : list A) (l2 : list C) :
  (forall a b, S a -> P a b -> Q a b) ->
  Forall S l1 -> Forall2 P l1 l2 -> Forall2 Q l1 l2.
Proof.
  intros HQ HS HP. induction HP as [|a b l1 l2 Hab _ IH]; [constructor|].
  inversion HS; subst. constructor; auto.
Qed.

Lemma Forall2_sorted {A C} (Q : A -> C -> Prop) (R1 : A -> A -> Prop)
  (R2 : C -> C -> Prop) (l1 : list A) (l2 : list C) :
  (forall a b a' b', Q a a' -> Q b b' -> R1 a b -> R2 a' b') ->
  Forall2 Q l1 l2 -> StronglySorted R1 l1 -> StronglySorted R2 l2.
Proof.
  intros HR HQ. induction HQ as [|a a' l1 l2 Ha HQ IH]; intros Hs;
    [constructor|].
  inversion Hs as [|? ? Hs' Hall]; subst. constructor; [apply IH; exact Hs'|].
  clear IH Hs Hs'. induction HQ as [|b b' l1 l2 Hb _ IH]; [constructor|].
  inversion Hall; subst. constructor; [eapply HR; eassumption|].
  apply IH. assumption.
Qed.

Lemma Forall2_right {A C} (Q : A -> C -> Prop) (P : C -> Prop)
  (l1 : list A) (l2 : list C) :
  (forall a b, Q a b -> P b) -> Forall2 Q l1 l2 -> Forall P l2.
Proof.
  intros H HQ. induction HQ; constructor; eauto.
Qed.

Lemma StronglySorted_impl_In {A} (R R' : A -> A -> Prop) (l : list A) :
  (forall a b, In a l -> In b l -> R a b -> R' a b) ->
  StronglySorted R l -> StronglySorted R' l.
Proof.
  intros H Hs. induction Hs as [|x l Hs IH Hx]; [constructor|].
  constructor.
  - apply IH. intros a b Ha Hb. apply H; right; assumption.
  - rewrite Forall_forall in Hx |- *. intros y Hy.
    apply H; [left; reflexivity|right; exact Hy|apply Hx; exact Hy].
Qed.

(** The events yielded, against the rows they come from: the text of
    the timestamp is kept, and the reading is canonical. *)
Lemma Query_events_canonical (F : SQL.QueryFaults) (db : SQL.DB) (u : Z)
  (filters : QueryFilters) :
  storedCanonical db ->
  exists k,
    Forall2 (fun row ev =>
               Time.Format (Timestamp ev) = SQL.timestamp row
               /\ canonicalTime (Timestamp ev) = true)
            (firstn k (SQL.Select db (whereClause u filters)))
            (qr_events (EventStore_Query F db u filters)).
Proof.
  intros Hcan. destruct (Query_events F db u filters) as (k & Hall & _).
  exists k.
  eapply (Forall2_strengthen
            (fun row => canonicalTimestamp (SQL.timestamp row) = true));
    [| |exact Hall].
  - intros row ev Hrow (t & Hp & ->).
    destruct (Format_Parse _ Hrow) as (t' & Hp' & Hf & Hc).
    rewrite Hp in Hp'. inversion Hp'; subst t'.
    split; assumption.
  - apply Forall_forall. intros row Hin.
    apply In_firstn in Hin. apply Select_In in Hin.
    unfold storedCanonical in Hcan. rewrite Forall_forall in Hcan. auto.
Qed.

Lemma ParseEvent_timestamp (line : gostring) (e : Event) :
  ParseEvent line = inl e ->
  exists s, Time.Parse s = Some (Timestamp e).
Proof.
  unfold ParseEvent.
  destruct (Strings.Split line fieldSep) as [|p0 [|p1 [|p2 [|p3 [|p4 r]]]]];
    try discriminate.
  destruct (Time.Parse (Strings.TrimSpace p0)) as [t|] eqn:Ep;
    [|discriminate].
  destruct (Strconv.ParseInt _); [|discriminate].
  destruct (Strings.TrimSpace p2); [discriminate|].
  destruct (JSON.UnmarshalRaw _); [|discriminate].
  intros E; inversion E; subst. exists (Strings.TrimSpace p0). exact Ep.
Qed.

Lemma decoded_canonical (ls : list gostring) :
  Forall (fun e => canonicalTimestamp (SQL.timestamp (rowOf e)) = true)
         (decoded ls).
Proof.
  induction ls as [|l ls IH]; [constructor|].
  destruct l as [|c l]; [exact IH|]. cbn [decoded].
  destruct (ParseEvent (c :: l)) as [e|] eqn:Ep; [|exact IH].
  constructor; [|exact IH].
  destruct (ParseEvent_timestamp _ _ Ep) as (s & Hs).
  apply (Format_Parse_canonical s). exact Hs.
Qed.

(** [Record] keeps the stored timestamps canonical. *)
Lemma Record_keeps_canonical (B : nat) (F : SQL.Faults) (db : SQL.DB)
  (file : option Stream) :
  0 < B -> storedCanonical db ->
  storedCanonical (rr_db (recordWith B F db file)).
Proof.
  intros HB Hcan. destruct file as [f|]; [|exact Hcan].
  destruct (recordWith_spec B HB F db f)
    as (bs & inflight & Hbs & Hrows & _).
  unfold storedCanonical. rewrite (table_app db bs _ Hbs).
  apply Forall_app. split; [exact Hcan|].
  assert (Forall (fun r => canonicalTimestamp (SQL.timestamp r) = true)
                 (concat bs ++ inflight)) as Hall.
  { rewrite Hrows. apply Forall_map.
    apply Forall_forall. intros e Hin. apply In_firstn in Hin.
    pose proof (decoded_canonical (lines f)) as Hd.
    rewrite Forall_forall in Hd. auto. }
  apply Forall_app in Hall. apply Hall.
Qed.

End ResultOrder.

(** C3, as stated, fails: the rows are ordered by the text of the stored
    timestamp, and across different offsets the byte order of RFC 3339
    text is not the order of the instants.  After ingesting an event at
    10:00 in zone +05:00 (05:00 UTC) and one at 09:00 UTC, the query
    yields the 09:00 UTC event first: the instants decrease. *)
Lemma C3_counterexample :
  let ls := [str "2023-08-14T10:00:00+05:00 | 42 | login | {}";
             str "2023-08-14T09:00:00Z | 42 | logout | {}"] in
  let db := rr_db (EventStore_Record SQL.healthy SQL.empty
                     (Some (mkStream ls false))) in
  let r := EventStore_Query SQL.healthyQuery db 42
             (mkQueryFilters [] Time.zero Time.zero) in
  qr_err r = None
  /\ qr_printed r = [str "2023-08-14T09:00:00Z | 42 | logout | {}";
                     str "2023-08-14T10:00:00+05:00 | 42 | login | {}"]
  /\ map (fun e => Time.instant (Timestamp e)) (qr_events r)
     = [63827600400; 63827586000]%Z
  /\ exists a b, qr_events r = [a; b] /\ ~ instantLe a b.
Proof.
  cbv zeta. split; [vm_compute; reflexivity|].
  split; [vm_compute; reflexivity|].
  split; [vm_compute; reflexivity|].
  eexists. eexists. split; [vm_compute; reflexivity|].
  unfold instantLe. vm_compute. intros H. apply H. reflexivity.
Qed.

(** C3, amended: over a store whose timestamps are in the form [Record]
    writes, the events [Query] yields are in non-decreasing byte order of
    their RFC 3339 timestamp text, whatever the filters and whatever
    fails on the way; when the events yielded all carry the same UTC
    offset, that is the non-decreasing order of their instants. *)
Theorem C3_query_order (F : SQL.QueryFaults) (db : SQL.DB) (u : Z)
  (filters : QueryFilters) :
  storedCanonical db ->
  let evs := qr_events (EventStore_Query F db u filters) in
  StronglySorted textLe evs
  /\ ((forall a b, In a evs -> In b evs ->
         Time.offset (Timestamp a) = Time.offset (Timestamp b)) ->
      StronglySorted instantLe evs).
Proof.
  intros Hcan. cbv zeta.
  destruct (Query_events_canonical F db u filters Hcan) as (k & Hall).
  assert (StronglySorted textLe (qr_events (EventStore_Query F db u filters)))
    as Htext.
  { eapply Forall2_sorted; [|exact Hall|].
    - intros a b a' b' [Ha _] [Hb _] Hab. unfold textLe, rowLe in *.
      rewrite Ha, Hb. exact Hab.
    - apply StronglySorted_firstn. apply Select_sorted. }
  split; [exact Htext|].
  intros Hzone.
  pose proof (Forall2_right _ (fun ev => canonicalTime (Timestamp ev) = true)
                _ _ (fun a b H => proj2 H) Hall) as Hct.
  rewrite Forall_forall in Hct.
  eapply StronglySorted_impl_In; [|exact Htext].
  intros a b Ha Hb Hab. unfold instantLe, textLe in *.
  apply text_le_instant_le;
    [apply Hct; exact Ha|apply Hct; exact Hb|apply Hzone; assumption
    |exact Hab].
Qed.

Lemma C3_query_order_witness :
  let ls := [str "2023-08-14T11:00:00Z | 42 | logout | {}";
             str "2023-08-14T09:30:00Z | 42 | login | {}";
             str "2023-08-14T10:00:00Z | 7 | login | {}";
             str "2023-02-28T23:59:59Z | 42 | signup | {}"] in
  let db := rr_db (EventStore_Record SQL.healthy SQL.empty
                     (Some (mkStream ls false))) in
  let evs := qr_events (EventStore_Query SQL.healthyQuery db 42
                          (mkQueryFilters [] Time.zero Time.zero)) in
  StronglySorted textLe evs
  /\ ((forall a b, In a evs -> In b evs ->
         Time.offset (Timestamp a) = Time.offset (Timestamp b)) ->
      StronglySorted instantLe evs).
Proof.
  cbv zeta. apply C3_query_order.
  apply Record_keeps_canonical; [unfold maxBatchSize; lia|constructor].
Defined.

(* ================================================================== *)
(** * Part III: further properties of the code *)
(* ================================================================== *)

(** ** What [ParseEvent] returns *)

Section DecodedEvents.

Import Strings.













End DecodedEvents.





(** ** What [Query] selects and what [Record] appends *)

Section Selection.

Lemma gostring_eqb_eq (a b : gostring) : gostring_eqb a b = true <-> a = b.
Proof.
unfold gostring_eqb. destruct (list_eq_dec ascii_dec a b); split;
  intros H; try reflexivity; try assumption; try discriminate; contradiction.
Qed.

(** What the assembled [WHERE] clause asks of a row. *)
Lemma matches_spec (u : Z) (f : QueryFilters) (r : SQL.Row) :
matches u f r = true <->
SQL.user_id r = u
/\ (FilterEventType f <> [] -> SQL.event_type r = FilterEventType f)
/\ (Time.IsZero (From f) = false ->
    SQL.text_leb (Time.Format (From f)) (SQL.timestamp r) = true)
/\ (Time.IsZero (To f) = false ->
    SQL.text_leb (SQL.timestamp r) (Time.Format (To f)) = true).
Proof.
unfold matches, whereClause.
rewrite !forallb_app. cbn [forallb SQL.holds].
rewrite !andb_true_iff, Z.eqb_eq.
destruct (FilterEventType f) as [|c ty] eqn:Ety;
  destruct (Time.IsZero (From f)); destruct (Time.IsZero (To f));
  cbn [negb forallb SQL.holds]; rewrite ?andb_true_iff, ?gostring_eqb_eq;
  intuition (try discriminate; try congruence).
Qed.

Lemma Forall2_In_r {A C} (P : A -> C -> Prop) (l1 : list A) (l2 : list C)
(y : C) :
Forall2 P l1 l2 -> In y l2 -> exists x, In x l1 /\ P x y.
Proof.
induction 1 as [|a b l1 l2 Hab _ IH]; intros Hin; [contradiction|].
destruct Hin as [<-|Hin].
- exists a. split; [left; reflexivity|exact Hab].
- destruct (IH Hin) as (x & Hx & Hp). exists x. split; [right|]; assumption.
Qed.

Lemma Forall2_map_eq {A C} (g : C -> A) (l1 : list A) (l2 : list C) :
Forall2 (fun a b => g b = a) l1 l2 -> map g l2 = l1.
Proof.
induction 1 as [|a b l1 l2 Hab _ IH]; [reflexivity|].
simpl. rewrite Hab, IH. reflexivity.
Qed.

Lemma Select_matches (db : SQL.DB) (u : Z) (f : QueryFilters) (r : SQL.Row) :
In r (SQL.Select db (whereClause u f)) ->
In r (SQL.table db) /\ matches u f r = true.
Proof.
intros H. apply (Permutation_in _ (Select_perm db (whereClause u f))) in H.
apply filter_In in H. exact H.
Qed.

(** On a canonical store the row of a yielded event is the row it was
  read from. *)
Lemma Query_rows (db : SQL.DB) (u : Z) (f : QueryFilters) :
storedCanonical db -> QueryFilters_Validate f = None ->
let r := EventStore_Query SQL.healthyQuery db u f in
qr_err r = None
/\ qr_count r = length (SQL.Select db (whereClause u f))
/\ map rowOf (qr_events r) = SQL.Select db (whereClause u f)
/\ qr_printed r = map rowLine (SQL.Select db (whereClause u f)).
Proof.
intros Hcan Hval. cbv zeta.
destruct (Query_healthy db u f Hcan Hval) as (He & Hc & _ & Hall).
assert (Forall2 (fun row ev => rowOf ev = row /\ Event_String ev = rowLine row)
                (SQL.Select db (whereClause u f))
                (qr_events (EventStore_Query SQL.healthyQuery db u f)))
  as Hrows.
{ eapply (Forall2_strengthen
            (fun row => canonicalTimestamp (SQL.timestamp row) = true));
    [| |exact Hall].
  - intros row ev Hrow (t & Hp & ->).
    destruct (Format_Parse _ Hrow) as (t' & Hp' & Hf & _).
    rewrite Hp in Hp'. inversion Hp'; subst t'.
    unfold rowOf, eventOf, rowLine, Event_String.
    cbn [Timestamp UserID EventType Payload]. rewrite Hf.
    destruct row; split; reflexivity.
  - apply Forall_forall. intros row Hin. apply Select_In in Hin.
    unfold storedCanonical in Hcan. rewrite Forall_forall in Hcan. auto. }
split; [exact He|]. split; [exact Hc|]. split.
- apply Forall2_map_eq. eapply Forall2_impl; [|exact Hrows].
  intros a b [H _]. exact H.
- unfold qr_printed. symmetry.
  rewrite <- (Forall2_map_eq Event_String
                (map rowLine (SQL.Select db (whereClause u f)))
                (qr_events (EventStore_Query SQL.healthyQuery db u f)));
    [reflexivity|].
  clear -Hrows. induction Hrows as [|a b l1 l2 [_ Hab] _ IH];
    constructor; auto.
Qed.

Lemma filter_none {A} (p : A -> bool) (l : list A) :
(forall x, In x l -> p x = false) -> filter p l = [].
Proof.
induction l as [|x l IH]; intros H; [reflexivity|].
simpl. rewrite (H x (or_introl eq_refl)). apply IH.
intros y Hy. apply H. right. exact Hy.
Qed.


End Selection.

(** X3: every event [Query] yields, whatever fails on the way, comes
    from a stored row of the requested user; with an event type filter
    it has exactly that type, and the stored timestamp text lies within
    the bounds that are set, in byte order, bounds included. *)
Theorem X3_query_sound (F : SQL.QueryFaults) (db : SQL.DB) (u : Z)
  (f : QueryFilters) (ev : Event) :
  In ev (qr_events (EventStore_Query F db u f)) ->
  UserID ev = u
  /\ (FilterEventType f <> [] -> EventType ev = FilterEventType f)
  /\ exists row t,
       In row (SQL.table db)
       /\ Time.Parse (SQL.timestamp row) = Some t
       /\ ev = eventOf row t
       /\ (Time.IsZero (From f) = false ->
           SQL.text_leb (Time.Format (From f)) (SQL.timestamp row) = true)
       /\ (Time.IsZero (To f) = false ->
           SQL.text_leb (SQL.timestamp row) (Time.Format (To f)) = true).
Proof.
  intros Hin. destruct (Query_events F db u f) as (k & Hall & _).
  destruct (Forall2_In_r _ _ _ _ Hall Hin) as (row & Hrow & t & Hp & ->).
  apply In_firstn in Hrow. apply Select_matches in Hrow as [Htab Hm].
  apply matches_spec in Hm as (Hu & Hty & Hfrom & Hto).
  split; [exact Hu|]. split; [exact Hty|].
  exists row, t. repeat split; assumption.
Qed.

Lemma X3_query_sound_witness :
  let rows := [SQL.mkRow 42 (str "2023-08-14T09:00:00Z") (str "login") (str "{}");
               SQL.mkRow 7 (str "2023-08-14T09:30:00Z") (str "login") (str "{}");
               SQL.mkRow 42 (str "2023-08-14T10:00:00Z") (str "logout") (str "{}")] in
  let db := SQL.mkDB [rows] [] in
  let f := mkQueryFilters (str "login") Time.zero Time.zero in
  let ev := mkEvent (Time.mkTime 2023 8 14 9 0 0 0 0) 42 (str "login")
                    (str "{}") in
  qr_events (EventStore_Query SQL.healthyQuery db 42 f) = [ev]
  /\ UserID ev = 42%Z
  /\ (FilterEventType f <> [] -> EventType ev = FilterEventType f).
Proof.
  cbv zeta. split; [vm_compute; reflexivity|].
  match goal with
  | |- UserID ?ev = _ /\ (FilterEventType ?f <> _ -> _) =>
      destruct (X3_query_sound SQL.healthyQuery
                  (SQL.mkDB
                     [[SQL.mkRow 42 (str "2023-08-14T09:00:00Z") (str "login") (str "{}");
                       SQL.mkRow 7 (str "2023-08-14T09:30:00Z") (str "login") (str "{}");
                       SQL.mkRow 42 (str "2023-08-14T10:00:00Z") (str "logout") (str "{}")]]
                     [])
                  42%Z f ev) as (Hu & Hty & _)
  end.
  - vm_compute. left. reflexivity.
  - split; assumption.
Defined.

(** X4: on a store that does not fail and whose timestamps are
    canonical, [Query] with valid filters yields every matching row
    exactly once: no error, the count is the number of rows of the table
    that satisfy the conditions, the rows of the events yielded are a
    permutation of those rows, and what is printed are their lines. *)
Theorem X4_query_complete (db : SQL.DB) (u : Z) (f : QueryFilters) :
  storedCanonical db -> QueryFilters_Validate f = None ->
  let r := EventStore_Query SQL.healthyQuery db u f in
  qr_err r = None
  /\ qr_count r = length (filter (matches u f) (SQL.table db))
  /\ Permutation (map rowOf (qr_events r))
                 (filter (matches u f) (SQL.table db))
  /\ Permutation (qr_printed r)
                 (map rowLine (filter (matches u f) (SQL.table db))).
Proof.
  intros Hcan Hval. cbv zeta.
  destruct (Query_rows db u f Hcan Hval) as (He & Hc & Hrows & Hprint).
  pose proof (Select_perm db (whereClause u f)) as Hperm.
  fold (matches u f) in Hperm.
  split; [exact He|]. split; [|split].
  - rewrite Hc. apply Permutation_length. exact Hperm.
  - rewrite Hrows. exact Hperm.
  - rewrite Hprint. apply Permutation_map. exact Hperm.
Qed.

Lemma X4_query_complete_witness :
  let rows := [SQL.mkRow 42 (str "2023-08-14T10:00:00Z") (str "logout") (str "{}");
               SQL.mkRow 7 (str "2023-08-14T09:30:00Z") (str "login") (str "{}");
               SQL.mkRow 42 (str "2023-08-14T09:00:00Z") (str "login") (str "{}")] in
  let db := SQL.mkDB [rows] [] in
  let f := mkQueryFilters [] Time.zero (Time.mkTime 2023 8 14 9 30 0 0 0) in
  let r := EventStore_Query SQL.healthyQuery db 42 f in
  qr_err r = None
  /\ qr_count r = length (filter (matches 42 f) (SQL.table db))
  /\ Permutation (map rowOf (qr_events r))
                 (filter (matches 42 f) (SQL.table db))
  /\ Permutation (qr_printed r)
                 (map rowLine (filter (matches 42 f) (SQL.table db))).
Proof.
  cbv zeta. apply X4_query_complete.
  - unfold storedCanonical, SQL.table. cbn [SQL.batches concat app].
    repeat (constructor; [vm_compute; reflexivity|]). constructor.
  - vm_compute. reflexivity.
Defined.

(** X5: querying a user without stored events is no error: as long as
    the query itself does not fail, [Query] with valid filters returns
    the count 0, no error and no event. *)
Theorem X5_unknown_user (F : SQL.QueryFaults) (db : SQL.DB) (u : Z)
  (f : QueryFilters) :
  (forall row, In row (SQL.table db) -> SQL.user_id row <> u) ->
  QueryFilters_Validate f = None ->
  SQL.query_fails F = false ->
  EventStore_Query F db u f = mkQueryResult 0 None [] [whereClause u f].
Proof.
  intros Hnone Hval Hq. unfold EventStore_Query. rewrite Hval, Hq.
  assert (SQL.Select db (whereClause u f) = []) as Hsel.
  { unfold SQL.Select. rewrite filter_none; [reflexivity|].
    intros row Hin. fold (matches u f row).
    destruct (matches u f row) eqn:E; [|reflexivity].
    apply matches_spec in E as [Hu _]. exfalso. exact (Hnone row Hin Hu). }
  rewrite Hsel. destruct (SQL.rows_err F) as [n|].
  - rewrite firstn_nil. cbn [queryLoop length].
    destruct (n <? 0) eqn:E; [|reflexivity].
    apply Nat.ltb_lt in E. lia.
  - reflexivity.
Qed.

Lemma X5_unknown_user_witness :
  let db := SQL.mkDB
              [[SQL.mkRow 7 (str "2023-08-14T09:30:00Z") (str "login") (str "{}")]]
              [] in
  let f := mkQueryFilters (str "login") Time.zero Time.zero in
  EventStore_Query SQL.healthyQuery db 42 f
  = mkQueryResult 0 None [] [whereClause 42 f].
Proof.
  cbv zeta. apply X5_unknown_user; try reflexivity.
  intros row [<-|[]]. discriminate.
Defined.



(** X7: [Record] only appends.  Whatever fails, the table it leaves
    starts with the table it found, unchanged, and goes on with the rows
    of the first decoded events, never more of them than the count it
    returns; when it returns no error, with the rows of all of them, as
    many as the count. *)
Theorem X7_record_appends (B : nat) (F : SQL.Faults) (db : SQL.DB)
  (f : Stream) :
  0 < B ->
  let r := recordWith B F db (Some f) in
  exists added,
    SQL.table (rr_db r) = SQL.table db ++ added
    /\ added = firstn (length added) (map rowOf (decoded (lines f)))
    /\ length added <= rr_count r
    /\ (rr_err r = None ->
        added = map rowOf (decoded (lines f))
        /\ length added = rr_count r).
Proof.
  intros HB. cbv zeta.
  destruct (recordWith_spec B HB F db f)
    as (bs & inflight & Hbs & Hrows & Hle & _ & _ & Hsucc).
  exists (concat bs).
  split; [apply (table_app db bs _ Hbs)|].
  rewrite <- firstn_map in Hrows.
  split; [exact (prefix_firstn _ _ _ _ Hrows)|].
  assert (length (concat bs) + length inflight = rr_count (recordWith B F db (Some f)))
    as Hlen.
  { apply (f_equal (@length SQL.Row)) in Hrows.
    rewrite length_app, length_firstn, length_map in Hrows.
    rewrite (Nat.min_l _ _ Hle) in Hrows. exact Hrows. }
  split; [lia|].
  intros Hok. destruct (Hsucc Hok) as (-> & Hcount & _).
  rewrite app_nil_r, Hcount, <- (length_map rowOf), firstn_all in Hrows.
  split; [exact Hrows|]. cbn [length] in Hlen.
  rewrite Nat.add_0_r in Hlen. exact Hlen.
Qed.

Lemma X7_record_appends_witness :
  let F := SQL.mkFaults (fun _ => false) (fun n => Nat.eqb n 3)
                        (fun _ => false) in
  let old := SQL.mkRow 1 (str "2020-01-01T00:00:00Z") (str "signup") (str "{}") in
  let db := SQL.mkDB [[old]] [] in
  let f := mkStream (repeat (str "2023-08-14T10:00:00Z | 42 | login | {}") 5)
                    false in
  let r := recordWith 2 F db (Some f) in
  exists added,
    SQL.table (rr_db r) = SQL.table db ++ added
    /\ added = firstn (length added) (map rowOf (decoded (lines f)))
    /\ length added <= rr_count r
    /\ (rr_err r = None ->
        added = map rowOf (decoded (lines f))
        /\ length added = rr_count r).
Proof.
  cbv zeta. apply X7_record_appends. lia.
Defined.

(** ** Time ranges, statistics, the generator's choice, the command line *)

Section Ranges.

Lemma Format_withoutNsec (t : Time.Time) :
Time.Format (withoutNsec t) = Time.Format t.
Proof. reflexivity. Qed.

Lemma instant_withoutNsec (t : Time.Time) :
Time.instant (withoutNsec t) = Time.instant t.
Proof. destruct t. reflexivity. Qed.

Lemma minText_None (l : list gostring) : minText l = None -> l = [].
Proof.
destruct l as [|s l]; [reflexivity|].
simpl. destruct (minText l); discriminate.
Qed.

Lemma maxText_None (l : list gostring) : maxText l = None -> l = [].
Proof.
destruct l as [|s l]; [reflexivity|].
simpl. destruct (maxText l); discriminate.
Qed.

Lemma minText_spec (l : list gostring) :
forall m, minText l = Some m ->
          In m l /\ forall s, In s l -> SQL.text_leb m s = true.
Proof.
induction l as [|a l IH]; intros m H; [discriminate|].
simpl in H. destruct (minText l) as [m'|] eqn:E.
- destruct (IH m' eq_refl) as [Hin Hle].
  destruct (SQL.text_leb a m') eqn:Ea; inversion H; subst m.
  + split; [left; reflexivity|].
    intros s [<-|Hs]; [apply text_leb_refl|].
    apply (text_leb_trans _ _ _ Ea). apply Hle. exact Hs.
  + split; [right; exact Hin|].
    intros s [<-|Hs]; [apply text_leb_total; exact Ea|apply Hle; exact Hs].
- apply minText_None in E. subst l. inversion H; subst m.
  split; [left; reflexivity|].
  intros s [<-|[]]. apply text_leb_refl.
Qed.

Lemma maxText_spec (l : list gostring) :
forall m, maxText l = Some m ->
          In m l /\ forall s, In s l -> SQL.text_leb s m = true.
Proof.
induction l as [|a l IH]; intros m H; [discriminate|].
simpl in H. destruct (maxText l) as [m'|] eqn:E.
- destruct (IH m' eq_refl) as [Hin Hle].
  destruct (SQL.text_leb m' a) eqn:Ea; inversion H; subst m.
  + split; [left; reflexivity|].
    intros s [<-|Hs]; [apply text_leb_refl|].
    apply (text_leb_trans _ _ _ (Hle s Hs) Ea).
  + split; [right; exact Hin|].
    intros s [<-|Hs]; [apply text_leb_total; exact Ea|apply Hle; exact Hs].
- apply maxText_None in E. subst l. inversion H; subst m.
  split; [left; reflexivity|].
  intros s [<-|[]]. apply text_leb_refl.
Qed.

Lemma sumWeights_nonneg (weights : list Z) :
Forall (fun w => 0 <= w)%Z weights -> (0 <= sumWeights weights)%Z.
Proof.
induction 1 as [|w l Hw _ IH]; simpl; [lia|].
unfold sumWeights in *. simpl. lia.
Qed.

Lemma weightedLoop_spec (weights : list Z) (r : Z) :
Forall (fun w => 0 <= w)%Z weights ->
forall c i,
  (c <= r < c + sumWeights weights)%Z ->
  exists k,
    weightedLoop weights r c i = Some (i + k)
    /\ k < length weights
    /\ (c + sumWeights (firstn k weights) <= r
        < c + sumWeights (firstn (S k) weights))%Z.
Proof.
induction 1 as [|w l Hw Hl IH]; intros c i Hr.
- unfold sumWeights in Hr. simpl in Hr. lia.
- cbn [weightedLoop].
  destruct (Z.ltb_spec r (c + w)) as [Hlt|Hge].
  + exists 0. rewrite Nat.add_0_r. split; [reflexivity|].
    split; [simpl; lia|]. unfold sumWeights. simpl. lia.
  + destruct (IH (c + w)%Z (S i)) as (k & Hk & Hlen & Hint).
    { unfold sumWeights in *. simpl in Hr. lia. }
    exists (S k). rewrite Hk. split; [f_equal; lia|].
    split; [simpl; lia|].
    unfold sumWeights in *. cbn [firstn fold_right] in *. lia.
Qed.

Lemma weightedLoop_none (weights : list Z) (r : Z) :
Forall (fun w => 0 <= w)%Z weights ->
forall c i,
  (c + sumWeights weights <= r)%Z ->
  weightedLoop weights r c i = None.
Proof.
induction 1 as [|w l Hw Hl IH]; intros c i Hr; [reflexivity|].
cbn [weightedLoop].
pose proof (sumWeights_nonneg l Hl) as Hs.
unfold sumWeights in *. simpl in Hr.
destruct (Z.ltb_spec r (c + w)) as [Hlt|Hge]; [lia|].
apply IH. lia.
Qed.

Lemma Format_not_empty (t : Time.Time) :
canonicalTime t = true -> Time.Format t <> [].
Proof.
intros H E. apply Format_canonical in H. rewrite E in H. discriminate.
Qed.

End Ranges.

(** X8: the bounds of a query are inclusive bounds on the instants.  On
    a store whose timestamps are canonical, an event yielded by [Query]
    whose UTC offset is that of the bound [From] is not before [From],
    and one whose offset is that of [To] is not after [To], whole
    seconds compared; an event exactly at the bound is not excluded by
    this. *)
Theorem X8_range_instants (F : SQL.QueryFaults) (db : SQL.DB) (u : Z)
  (f : QueryFilters) (ev : Event) :
  storedCanonical db ->
  canonicalTime (withoutNsec (From f)) = true ->
  canonicalTime (withoutNsec (To f)) = true ->
  In ev (qr_events (EventStore_Query F db u f)) ->
  (Time.IsZero (From f) = false ->
   Time.offset (Timestamp ev) = Time.offset (From f) ->
   (Time.instant (From f) <= Time.instant (Timestamp ev))%Z)
  /\ (Time.IsZero (To f) = false ->
      Time.offset (Timestamp ev) = Time.offset (To f) ->
      (Time.instant (Timestamp ev) <= Time.instant (To f))%Z).
Proof.
  intros Hcan Hfrom Hto Hin.
  destruct (Query_events F db u f) as (k & Hall & _).
  destruct (Forall2_In_r _ _ _ _ Hall Hin) as (row & Hrow & t & Hp & ->).
  apply In_firstn in Hrow. apply Select_matches in Hrow as [Htab Hm].
  apply matches_spec in Hm as (_ & _ & Hge & Hle).
  unfold storedCanonical in Hcan. rewrite Forall_forall in Hcan.
  destruct (Format_Parse _ (Hcan row Htab)) as (t' & Hp' & Hf & Ht).
  rewrite Hp in Hp'. inversion Hp'; subst t'.
  unfold eventOf. cbn [Timestamp]. rewrite <- Hf in Hge, Hle.
  split.
  - intros Hz Hoff.
    rewrite <- (instant_withoutNsec (From f)).
    apply text_le_instant_le;
      [exact Hfrom|exact Ht|symmetry; exact Hoff|].
    rewrite Format_withoutNsec. exact (Hge Hz).
  - intros Hz Hoff.
    rewrite <- (instant_withoutNsec (To f)).
    apply text_le_instant_le; [exact Ht|exact Hto|exact Hoff|].
    rewrite Format_withoutNsec. exact (Hle Hz).
Qed.

Lemma X8_range_instants_witness :
  let rows := [SQL.mkRow 42 (str "2023-08-14T09:00:00Z") (str "login") (str "{}");
               SQL.mkRow 42 (str "2023-08-14T10:00:00Z") (str "view") (str "{}");
               SQL.mkRow 42 (str "2023-08-14T11:00:00Z") (str "logout") (str "{}")] in
  let db := SQL.mkDB [rows] [] in
  let f := mkQueryFilters [] (Time.mkTime 2023 8 14 10 0 0 0 0)
                          (Time.mkTime 2023 8 14 10 30 0 0 0) in
  let ev := mkEvent (Time.mkTime 2023 8 14 10 0 0 0 0) 42 (str "view")
                    (str "{}") in
  qr_events (EventStore_Query SQL.healthyQuery db 42 f) = [ev]
  /\ (Time.instant (From f) <= Time.instant (Timestamp ev))%Z
  /\ (Time.instant (Timestamp ev) <= Time.instant (To f))%Z.
Proof.
  cbv zeta. split; [vm_compute; reflexivity|].
  match goal with
  | |- (Time.instant (From ?f) <= Time.instant (Timestamp ?ev))%Z /\ _ =>
      destruct (X8_range_instants SQL.healthyQuery
                  (SQL.mkDB
                     [[SQL.mkRow 42 (str "2023-08-14T09:00:00Z") (str "login") (str "{}");
                       SQL.mkRow 42 (str "2023-08-14T10:00:00Z") (str "view") (str "{}");
                       SQL.mkRow 42 (str "2023-08-14T11:00:00Z") (str "logout") (str "{}")]]
                     [])
                  42%Z f ev) as [Hge Hle]
  end.
  - unfold storedCanonical, SQL.table. cbn [SQL.batches concat app].
    repeat (constructor; [vm_compute; reflexivity|]). constructor.
  - vm_compute. reflexivity.
  - vm_compute. reflexivity.
  - vm_compute. left. reflexivity.
  - split; [apply Hge|apply Hle]; vm_compute; reflexivity.
Defined.

(** X9: [GetStats] on a store without events returns an error, never
    the statistics: [MIN] and [MAX] over no rows are [NULL], which [Scan]
    cannot put into a [string], and that error is not [sql.ErrNoRows].
    When no query fails, this is the error returned. *)
Theorem X9_stats_empty (fails : nat -> bool) (db : SQL.DB) :
  SQL.table db = [] ->
  exists e,
    EventStore_GetStats fails db = inr e
    /\ ((forall n, fails n = false) -> e = StatsNullScan).
Proof.
  intros Hempty. unfold EventStore_GetStats. rewrite Hempty.
  cbn [map minText maxText].
  destruct (fails 0) eqn:E0.
  { eexists. split; [reflexivity|]. intros H. rewrite H in E0. discriminate. }
  destruct (fails 1) eqn:E1.
  { eexists. split; [reflexivity|]. intros H. rewrite H in E1. discriminate. }
  destruct (fails 2) eqn:E2.
  { eexists. split; [reflexivity|]. intros H. rewrite H in E2. discriminate. }
  eexists. split; reflexivity.
Qed.

Lemma X9_stats_empty_witness :
  exists e,
    EventStore_GetStats (fun _ => false) SQL.empty = inr e
    /\ ((forall n, (fun _ : nat => false) n = false) -> e = StatsNullScan).
Proof. apply X9_stats_empty. reflexivity. Defined.

(** X10: [GetStats] on a store with events, no query failing, returns
    the statistics: the total is the number of rows; the unique users
    are counted once each, at least one and at most the total; the time
    range goes from a stored timestamp that is least to a stored
    timestamp that is greatest in the byte order of the text. *)
Theorem X10_stats (db : SQL.DB) :
  SQL.table db <> [] ->
  exists s,
    EventStore_GetStats (fun _ => false) db = inl s
    /\ total_events s = length (SQL.table db)
    /\ 1 <= unique_users s <= total_events s
    /\ (exists users,
          NoDup users
          /\ (forall u, In u users <->
                        exists row, In row (SQL.table db)
                                    /\ SQL.user_id row = u)
          /\ unique_users s = length users)
    /\ (exists row, In row (SQL.table db)
                    /\ SQL.timestamp row = time_range_from s)
    /\ (exists row, In row (SQL.table db)
                    /\ SQL.timestamp row = time_range_to s)
    /\ (forall row, In row (SQL.table db) ->
          SQL.text_leb (time_range_from s) (SQL.timestamp row) = true
          /\ SQL.text_leb (SQL.timestamp row) (time_range_to s) = true).
Proof.
  intros Hne. unfold EventStore_GetStats, countAll, countDistinctUsers.
  set (rows := SQL.table db) in *.
  destruct (minText (map SQL.timestamp rows)) as [lo|] eqn:Emin.
  2:{ apply minText_None in Emin. destruct rows; [contradiction|discriminate]. }
  destruct (maxText (map SQL.timestamp rows)) as [hi|] eqn:Emax.
  2:{ apply maxText_None in Emax. destruct rows; [contradiction|discriminate]. }
  destruct (minText_spec _ _ Emin) as [Hlo_in Hlo].
  destruct (maxText_spec _ _ Emax) as [Hhi_in Hhi].
  eexists. split; [reflexivity|].
  cbn [total_events unique_users time_range_from time_range_to].
  split; [reflexivity|]. split; [split|].
  - destruct rows as [|r0 rows0]; [contradiction|].
    assert (In (SQL.user_id r0)
               (nodup Z.eq_dec (map SQL.user_id (r0 :: rows0)))) as Hin.
    { apply nodup_In. left. reflexivity. }
    destruct (nodup Z.eq_dec (map SQL.user_id (r0 :: rows0)));
      [contradiction|simpl; lia].
  - rewrite <- (length_map SQL.user_id rows).
    apply NoDup_incl_length; [apply NoDup_nodup|].
    intros x Hx. apply nodup_In in Hx. exact Hx.
  - split.
    { exists (nodup Z.eq_dec (map SQL.user_id rows)).
      split; [apply NoDup_nodup|]. split; [|reflexivity].
      intros u0. rewrite nodup_In, in_map_iff.
      split; intros (row & H1 & H2); exists row; split; assumption. }
    split.
    { apply in_map_iff in Hlo_in as (row & E & Hin). exists row. auto. }
    split.
    { apply in_map_iff in Hhi_in as (row & E & Hin). exists row. auto. }
    intros row Hin. split; [apply Hlo|apply Hhi]; apply in_map; exact Hin.
Qed.

Lemma X10_stats_witness :
  let rows := [SQL.mkRow 42 (str "2023-08-14T10:00:00Z") (str "login") (str "{}");
               SQL.mkRow 7 (str "2023-08-14T09:00:00Z") (str "login") (str "{}");
               SQL.mkRow 42 (str "2023-08-14T11:00:00Z") (str "logout") (str "{}")] in
  let db := SQL.mkDB [rows] [] in
  EventStore_GetStats (fun _ => false) db
  = inl (mkStats 3 2 (str "2023-08-14T09:00:00Z") (str "2023-08-14T11:00:00Z"))
  /\ exists s,
       EventStore_GetStats (fun _ => false) db = inl s
       /\ total_events s = length (SQL.table db)
       /\ 1 <= unique_users s <= total_events s
       /\ (exists users,
             NoDup users
             /\ (forall u, In u users <->
                           exists row, In row (SQL.table db)
                                       /\ SQL.user_id row = u)
             /\ unique_users s = length users)
       /\ (exists row, In row (SQL.table db)
                       /\ SQL.timestamp row = time_range_from s)
       /\ (exists row, In row (SQL.table db)
                       /\ SQL.timestamp row = time_range_to s)
       /\ (forall row, In row (SQL.table db) ->
             SQL.text_leb (time_range_from s) (SQL.timestamp row) = true
             /\ SQL.text_leb (SQL.timestamp row) (time_range_to s) = true).
Proof.
  cbv zeta. split; [vm_compute; reflexivity|].
  apply X10_stats. discriminate.
Defined.

(** X11: [weightedChoice] picks by the running sums of the weights.
    With weights that are not negative, their sum as the total, and as
    many choices as weights, a draw [r] below the total returns the
    choice at the one index [k] whose interval of the running sum holds
    [r]: so choice [k] is returned for exactly [weights[k]] of the draws
    and the call does not panic. *)
Theorem X11_weighted_choice (choices : list gostring) (weights : list Z)
  (totalWeight r : Z) :
  Forall (fun w => 0 <= w)%Z weights ->
  totalWeight = sumWeights weights ->
  length weights <= length choices ->
  (0 <= r < totalWeight)%Z ->
  exists k c,
    weightedChoice choices weights totalWeight r = Some c
    /\ nth_error choices k = Some c
    /\ k < length weights
    /\ (sumWeights (firstn k weights) <= r
        < sumWeights (firstn k weights) + nth k weights 0)%Z.
Proof.
  intros Hw -> Hlen Hr.
  destruct (weightedLoop_spec weights r Hw 0%Z 0) as (k & Hk & Hlt & Hint);
    [lia|].
  simpl in Hk.
  assert (k < length choices) as Hkc by lia.
  destruct (nth_error choices k) as [c|] eqn:Ec.
  2:{ apply nth_error_None in Ec. lia. }
  exists k, c. unfold weightedChoice.
  destruct (Z.leb_spec (sumWeights weights) 0) as [Hle|_]; [lia|].
  rewrite Hk. split; [exact Ec|]. split; [exact Ec|]. split; [exact Hlt|].
  assert (sumWeights (firstn (S k) weights)
          = (sumWeights (firstn k weights) + nth k weights 0)%Z) as Hstep.
  { clear -Hlt. revert k Hlt.
    induction weights as [|w l IH]; intros k Hlt; [simpl in Hlt; lia|].
    destruct k as [|k].
    - unfold sumWeights. simpl. lia.
    - assert (k < length l) as Hk by (simpl in Hlt; lia).
      specialize (IH k Hk). unfold sumWeights in *.
      cbn [firstn fold_right nth] in *. lia. }
  lia.
Qed.

Lemma X11_weighted_choice_witness :
  exists k c,
    weightedChoice eventTypes eventWeights 100 40 = Some c
    /\ nth_error eventTypes k = Some c
    /\ k < length eventWeights
    /\ (sumWeights (firstn k eventWeights) <= 40
        < sumWeights (firstn k eventWeights) + nth k eventWeights 0)%Z.
Proof.
  apply X11_weighted_choice.
  - repeat (constructor; [lia|]). constructor.
  - reflexivity.
  - simpl. lia.
  - lia.
Defined.

(** X12: the fallback of [weightedChoice].  When the total passed in
    exceeds the sum of the weights, every draw from the sum upwards runs
    past the loop and gives the first choice (a panic when there is no
    choice). *)
Theorem X12_weighted_fallback (choices : list gostring) (weights : list Z)
  (totalWeight r : Z) :
  Forall (fun w => 0 <= w)%Z weights ->
  (sumWeights weights <= r < totalWeight)%Z ->
  weightedChoice choices weights totalWeight r = nth_error choices 0.
Proof.
  intros Hw Hr. unfold weightedChoice.
  pose proof (sumWeights_nonneg weights Hw) as Hs.
  destruct (Z.leb_spec totalWeight 0) as [Hle|_]; [lia|].
  rewrite (weightedLoop_none weights r Hw 0%Z 0) by lia. reflexivity.
Qed.

Lemma X12_weighted_fallback_witness :
  weightedChoice eventTypes eventWeights 120 100 = nth_error eventTypes 0.
Proof.
  apply X12_weighted_fallback.
  - repeat (constructor; [lia|]). constructor.
  - unfold sumWeights. simpl. lia.
Defined.

(** X13: the command line reads back what the program prints.  Given
    the user id as [%d] prints it and the bounds as [Format] prints them,
    [handleQuery] runs [Query] for exactly that user and those bounds
    (or stops when the store does not open). *)
Theorem X13_cli_reads_printed (u : Z) (eventType : gostring)
  (from to : Time.Time) (store : option SQL.DB) (F : SQL.QueryFaults) :
  int64 u -> canonicalTime from = true -> canonicalTime to = true ->
  handleQuery (Strconv.FormatInt u) eventType (Time.Format from)
              (Time.Format to) store F
  = match store with
    | None => StoreNotOpened
    | Some db =>
        Queried (EventStore_Query F db u (mkQueryFilters eventType from to))
    end.
Proof.
  intros Hu Hfrom Hto. unfold handleQuery, filtersOfFlags.
  rewrite (ParseInt_FormatInt u Hu).
  pose proof (Format_not_empty from Hfrom) as Hf.
  pose proof (Format_not_empty to Hto) as Ht.
  rewrite (Parse_Format from Hfrom), (Parse_Format to Hto).
  destruct (Time.Format from); [contradiction|].
  destruct (Time.Format to); [contradiction|]. reflexivity.
Qed.

Lemma X13_cli_reads_printed_witness :
  let db := SQL.mkDB
              [[SQL.mkRow 42 (str "2023-08-14T10:00:00Z") (str "login") (str "{}")]]
              [] in
  let from := Time.mkTime 2023 8 14 9 0 0 0 0 in
  let to := Time.mkTime 2023 8 14 11 0 0 0 3600 in
  handleQuery (Strconv.FormatInt 42) (str "login") (Time.Format from)
              (Time.Format to) (Some db) SQL.healthyQuery
  = Queried (EventStore_Query SQL.healthyQuery db 42
               (mkQueryFilters (str "login") from to)).
Proof.
  cbv zeta.
  apply (X13_cli_reads_printed 42 (str "login")
           (Time.mkTime 2023 8 14 9 0 0 0 0)
           (Time.mkTime 2023 8 14 11 0 0 0 3600)
           (Some (SQL.mkDB
                    [[SQL.mkRow 42 (str "2023-08-14T10:00:00Z") (str "login")
                                (str "{}")]] []))).
  - unfold int64. lia.
  - vm_compute. reflexivity.
  - vm_compute. reflexivity.
Defined.

(** X14: a [--from] later than [--to] is an error of the command, not an
    empty answer.  With both bounds given as [Format] prints them,
    neither at the zero instant, and [from] a later instant than [to],
    [handleQuery] on an opened store ends with the invalid filters
    error and exit status 1, having sent no query and printed no
    event. *)
Theorem X14_cli_bad_range (u : Z) (eventType : gostring)
  (from to : Time.Time) (db : SQL.DB) (F : SQL.QueryFaults) :
  int64 u -> canonicalTime from = true -> canonicalTime to = true ->
  Time.instant from <> 0%Z -> Time.instant to <> 0%Z ->
  (Time.instant to < Time.instant from)%Z ->
  let o := handleQuery (Strconv.FormatInt u) eventType (Time.Format from)
                       (Time.Format to) (Some db) F in
  o = Queried (mkQueryResult 0 (Some (InvalidFilters InvalidRange)) [] [])
  /\ exitStatus o = 1%Z.
Proof.
  intros Hu Hfrom Hto Hzf Hzt Hlt. cbv zeta.
  unfold handleQuery, filtersOfFlags.
  rewrite (ParseInt_FormatInt u Hu).
  pose proof (Format_not_empty from Hfrom) as Hf.
  pose proof (Format_not_empty to Hto) as Ht.
  rewrite (Parse_Format from Hfrom), (Parse_Format to Hto).
  destruct (Time.Format from); [contradiction|].
  destruct (Time.Format to); [contradiction|].
  unfold EventStore_Query, QueryFilters_Validate, Time.IsZero, Time.After.
  cbn [From To].
  apply Z.eqb_neq in Hzf, Hzt. apply Z.ltb_lt in Hlt.
  rewrite Hzf, Hzt, Hlt. split; reflexivity.
Qed.

Lemma X14_cli_bad_range_witness :
  let db := SQL.mkDB
              [[SQL.mkRow 42 (str "2023-08-14T10:00:00Z") (str "login") (str "{}")]]
              [] in
  let from := Time.mkTime 2023 8 14 11 0 0 0 0 in
  let to := Time.mkTime 2023 8 14 9 0 0 0 0 in
  let o := handleQuery (Strconv.FormatInt 42) [] (Time.Format from)
                       (Time.Format to) (Some db) SQL.healthyQuery in
  o = Queried (mkQueryResult 0 (Some (InvalidFilters InvalidRange)) [] [])
  /\ exitStatus o = 1%Z.
Proof.
  cbv zeta.
  apply (X14_cli_bad_range 42 []
           (Time.mkTime 2023 8 14 11 0 0 0 0)
           (Time.mkTime 2023 8 14 9 0 0 0 0)).
  - unfold int64. lia.
  - vm_compute. reflexivity.
  - vm_compute. reflexivity.
  - vm_compute. discriminate.
  - vm_compute. discriminate.
  - vm_compute. reflexivity.
Defined.

(** ** The transactions [Record] leaves behind *)

Section OpenTransactions.

Import SQL.

Lemma nth_error_app_last {A} (pre : list A) (x : A) (rest : list A) :
nth_error (pre ++ x :: rest) (length pre) = Some x.
Proof.
rewrite nth_error_app2 by lia. rewrite Nat.sub_diag. reflexivity.
Qed.

Lemma setNth_app_last {A} (pre : list A) (x y : A) :
setNth (length pre) y (pre ++ [x]) = pre ++ [y].
Proof.
induction pre as [|a pre IH]; [reflexivity|].
simpl. rewrite IH. reflexivity.
Qed.

Lemma Exec_txs (db : DB) (pre : list TxState) (staged : list Row) (r : Row) :
txs db = pre ++ [TxOpen staged] ->
txs (Exec db (length pre) r) = pre ++ [TxOpen (staged ++ [r])].
Proof.
intros H. unfold Exec. rewrite H, nth_error_app_last. cbn [txs].
apply setNth_app_last.
Qed.

Lemma Commit_txs (db : DB) (pre : list TxState) (staged : list Row) :
txs db = pre ++ [TxOpen staged] ->
txs (Commit db (length pre)) = pre ++ [TxDone].
Proof.
intros H. unfold Commit. rewrite H, nth_error_app_last. cbn [txs].
apply setNth_app_last.
Qed.

Lemma Rollback_txs (db : DB) (pre : list TxState) (staged : list Row) :
txs db = pre ++ [TxOpen staged] ->
txs (Rollback db (length pre)) = pre ++ [TxDone].
Proof.
intros H. unfold Rollback. rewrite H, nth_error_app_last. cbn [txs].
apply setNth_app_last.
Qed.

(** Rolling back a transaction that is finished changes nothing. *)
Lemma Rollback_finished (db : DB) (pre : list TxState) (d : TxState)
(rest : list TxState) :
txs db = pre ++ d :: rest -> txDone d = true ->
Rollback db (length pre) = db.
Proof.
intros H Hd. unfold Rollback. rewrite H, nth_error_app_last.
destruct d; [discriminate|reflexivity].
Qed.

Variable F : Faults.
Variable B : nat.
Hypothesis HB : 0 < B.

(** The transaction of the loop is always the one begun last, and every
  one begun before it is finished; the counter is the committed
  batches plus what is staged. *)
Lemma recordLoop_txs (ls : list gostring) :
forall st pre staged st' e,
  txs (rs_db st) = pre ++ [TxOpen staged] ->
  rs_tx st = length pre ->
  length staged = rs_batchSize st ->
  rs_batchSize st < B ->
  rs_count st = rs_commits st * B + rs_batchSize st ->
  recordLoop F B ls st = (st', e) ->
  match e with
  | None | Some FailedInsert =>
      exists done staged',
        Forall (fun t => txDone t = true) done
        /\ length done + rs_commits st = rs_commits st'
        /\ txs (rs_db st') = pre ++ done ++ [TxOpen staged']
        /\ rs_tx st' = length (pre ++ done)
        /\ length staged' = rs_batchSize st'
        /\ rs_batchSize st' < B
        /\ rs_count st' = rs_commits st' * B + rs_batchSize st'
  | Some FailedCommitBatch | Some FailedBeginNew =>
      exists done,
        Forall (fun t => txDone t = true) done
        /\ txs (rs_db st') = pre ++ done ++ [TxDone]
  | Some _ => False
  end.
Proof.
induction ls as [|line ls IH];
  intros st pre staged st' e Htx Hcur Hlen Hlt Hcount Hrun.
- simpl in Hrun. inversion Hrun; subst st' e.
  exists [], staged. rewrite app_nil_r. simpl. auto 10.
- destruct line as [|c line];
    [exact (IH _ _ _ _ _ Htx Hcur Hlen Hlt Hcount Hrun)|].
  cbn [recordLoop] in Hrun.
  destruct (ParseEvent (c :: line)) as [event|err].
  + destruct (exec_fails F (rs_count st)).
    { inversion Hrun; subst st' e.
      exists [], staged. rewrite app_nil_r. simpl. auto 10. }
    rewrite Hcur in Hrun.
    pose proof (Exec_txs (rs_db st) pre staged (rowOf event) Htx) as Htx1.
    destruct (Nat.leb_spec B (S (rs_batchSize st))) as [Hfull|Hroom].
    * destruct (commit_fails F (rs_commits st)).
      { inversion Hrun; subst st' e. exists []. cbn [rs_db app].
        split; [constructor|]. exact (Rollback_txs _ _ _ Htx1). }
      pose proof (Commit_txs _ _ _ Htx1) as Htx2.
      destruct (begin_fails F (S (rs_commits st))).
      { inversion Hrun; subst st' e. exists []. cbn [rs_db app].
        split; [constructor|]. exact Htx2. }
      unfold Begin in Hrun. rewrite Htx2 in Hrun.
      apply (IH _ (pre ++ [TxDone]) [] _ _) in Hrun;
        cbn [rs_db rs_tx rs_batchSize rs_count rs_commits txs];
        [|reflexivity|reflexivity|reflexivity|exact HB|lia].
      cbn [rs_commits] in Hrun.
      destruct e as [[]|]; try exact Hrun.
      -- destruct Hrun as (done & staged' & Hd & Hn & Ht & Hc & Hrest).
         exists (TxDone :: done), staged'.
         split; [constructor; [reflexivity|exact Hd]|].
         split; [simpl; lia|].
         rewrite <- !app_assoc in Ht, Hc. simpl in Ht, Hc.
         split; [exact Ht|]. split; [|exact Hrest].
         rewrite Hc. rewrite !length_app. simpl. lia.
      -- destruct Hrun as (done & Hd & Ht).
         exists (TxDone :: done).
         split; [constructor; [reflexivity|exact Hd]|].
         rewrite <- !app_assoc in Ht. exact Ht.
      -- destruct Hrun as (done & Hd & Ht).
         exists (TxDone :: done).
         split; [constructor; [reflexivity|exact Hd]|].
         rewrite <- !app_assoc in Ht. exact Ht.
      -- destruct Hrun as (done & staged' & Hd & Hn & Ht & Hc & Hrest).
         exists (TxDone :: done), staged'.
         split; [constructor; [reflexivity|exact Hd]|].
         split; [simpl; lia|].
         rewrite <- !app_assoc in Ht, Hc. simpl in Ht, Hc.
         split; [exact Ht|]. split; [|exact Hrest].
         rewrite Hc. rewrite !length_app. simpl. lia.
    * apply (IH _ pre (staged ++ [rowOf event]) _ _) in Hrun;
        cbn [rs_db rs_tx rs_batchSize rs_count rs_commits];
        [exact Hrun|exact Htx1|reflexivity
         |rewrite length_app; simpl; lia|lia|lia].
  + apply (IH _ pre staged _ _) in Hrun; assumption.
Qed.

End OpenTransactions.

(** X15: the transactions [Record] leaves open.  The deferred
    [Rollback] belongs to the transaction begun first.  On a store
    without open transactions, [Record] returns with every transaction
    finished, except when an insert fails or the file cannot be read
    to its end after a batch was committed (the count has reached the
    threshold): then the transaction in flight stays open, neither
    committed nor rolled back, holding the records counted since the
    last commit. *)
Theorem X15_open_transactions (B : nat) (F : SQL.Faults) (db : SQL.DB)
  (f : Stream) :
  0 < B ->
  Forall (fun t => txDone t = true) (SQL.txs db) ->
  let r := recordWith B F db (Some f) in
  ((rr_err r = Some FailedInsert \/ rr_err r = Some FailedRead) ->
   B <= rr_count r ->
   exists finished staged,
     SQL.txs (rr_db r) = finished ++ [SQL.TxOpen staged]
     /\ Forall (fun t => txDone t = true) finished
     /\ length staged = rr_count r mod B)
  /\ (~ ((rr_err r = Some FailedInsert \/ rr_err r = Some FailedRead)
         /\ B <= rr_count r) ->
      Forall (fun t => txDone t = true) (SQL.txs (rr_db r))).
Proof.
  intros HB Hold. cbv zeta. unfold recordWith.
  destruct (SQL.begin_fails F 0).
  { cbn [rr_err rr_count rr_db]. split; [|intros _; exact Hold].
    intros [H|H]; discriminate. }
  unfold SQL.Begin.
  destruct (recordLoop F B (lines f)
              (mkRecordState (SQL.mkDB (SQL.batches db)
                                       (SQL.txs db ++ [SQL.TxOpen []]))
                             (length (SQL.txs db)) 0 0 0 []))
    as [st e] eqn:Hrun.
  apply (recordLoop_txs F B HB (lines f) _ (SQL.txs db) [] st e) in Hrun;
    cbn [rs_db rs_tx rs_batchSize rs_count rs_commits SQL.txs];
    [|reflexivity|reflexivity|reflexivity|exact HB|lia].
  cbn [rs_commits] in Hrun.
  assert (forall done staged',
            Forall (fun t => txDone t = true) done ->
            length done + 0 = rs_commits st ->
            SQL.txs (rs_db st) = SQL.txs db ++ done ++ [SQL.TxOpen staged'] ->
            length staged' = rs_batchSize st ->
            rs_batchSize st < B ->
            rs_count st = rs_commits st * B + rs_batchSize st ->
            (B <= rs_count st ->
             exists finished staged,
               SQL.txs (SQL.Rollback (rs_db st) (length (SQL.txs db)))
               = finished ++ [SQL.TxOpen staged]
               /\ Forall (fun t => txDone t = true) finished
               /\ length staged = rs_count st mod B)
            /\ (~ B <= rs_count st ->
                Forall (fun t => txDone t = true)
                       (SQL.txs (SQL.Rollback (rs_db st)
                                              (length (SQL.txs db))))))
    as Hleak.
  { intros done staged' Hd Hn Ht Hl Hlt Hc.
    destruct done as [|d done].
    - simpl in Hn, Ht. rewrite <- Hn in Hc. simpl in Hc.
      split; [intros Hge; lia|]. intros _.
      rewrite (Rollback_txs _ _ _ Ht).
      apply Forall_app. split; [exact Hold|repeat constructor].
    - split.
      + intros _. inversion Hd as [|? ? Hd1 Hd2]; subst.
        rewrite (Rollback_finished _ _ d (done ++ [SQL.TxOpen staged']) Ht Hd1).
        exists (SQL.txs db ++ d :: done), staged'.
        split; [rewrite Ht, <- app_assoc; reflexivity|].
        split; [apply Forall_app; split; [exact Hold|exact Hd]|].
        rewrite Hl. apply (Nat.mod_unique _ _ (rs_commits st)); lia.
      + intros Hnot. exfalso. apply Hnot. simpl in Hn.
        rewrite Hc. nia. }
  assert (forall done,
            Forall (fun t => txDone t = true) done ->
            forall db', SQL.txs db' = SQL.txs db ++ done ++ [SQL.TxDone] ->
            Forall (fun t => txDone t = true)
                   (SQL.txs (SQL.Rollback db' (length (SQL.txs db)))))
    as Hclean.
  { intros done Hd db' Ht.
    assert (exists d rest, done ++ [SQL.TxDone] = d :: rest
                           /\ txDone d = true) as (d & rest & E & Hdd).
    { destruct done as [|d done]; [exists SQL.TxDone, []; auto|].
      inversion Hd; subst. exists d, (done ++ [SQL.TxDone]). auto. }
    rewrite E in Ht. rewrite (Rollback_finished _ _ d rest Ht Hdd).
    rewrite Ht, <- E. apply Forall_app. split; [exact Hold|].
    apply Forall_app. split; [exact Hd|repeat constructor]. }
  destruct e as [[]|]; try contradiction.
  - (* an insert failed *)
    destruct Hrun as (done & staged' & Hd & Hn & Ht & _ & Hl & Hlt & Hc).
    cbn [rr_err rr_count rr_db].
    destruct (Hleak done staged' Hd Hn Ht Hl Hlt Hc) as [H1 H2].
    split; [intros _; exact H1|].
    intros Hnot. apply H2. intros Hge. apply Hnot. auto.
  - (* a batch commit failed *)
    destruct Hrun as (done & Hd & Ht). cbn [rr_err rr_count rr_db].
    split; [intros [H|H]; discriminate|]. intros _.
    exact (Hclean done Hd _ Ht).
  - (* the next transaction did not begin *)
    destruct Hrun as (done & Hd & Ht). cbn [rr_err rr_count rr_db].
    split; [intros [H|H]; discriminate|]. intros _.
    exact (Hclean done Hd _ Ht).
  - (* the loop ran to the end *)
    destruct Hrun as (done & staged' & Hd & Hn & Ht & Hcur & Hl & Hlt & Hc).
    destruct (read_error f).
    + cbn [rr_err rr_count rr_db].
      destruct (Hleak done staged' Hd Hn Ht Hl Hlt Hc) as [H1 H2].
      split; [intros _; exact H1|].
      intros Hnot. apply H2. intros Hge. apply Hnot. auto.
    + rewrite app_assoc in Ht. rewrite Hcur.
      destruct (SQL.commit_fails F (rs_commits st));
        cbn [rr_err rr_count rr_db];
        (split; [intros [H|H]; discriminate|]); intros _;
        apply (Hclean done Hd).
      * rewrite (Rollback_txs _ _ _ Ht), <- app_assoc. reflexivity.
      * rewrite (Commit_txs _ _ _ Ht), <- app_assoc. reflexivity.
Qed.

Lemma X15_open_transactions_witness :
  let F := SQL.mkFaults (fun _ => false) (fun n => Nat.eqb n 3)
                        (fun _ => false) in
  let f := mkStream (repeat (str "2023-08-14T10:00:00Z | 42 | login | {}") 5)
                    false in
  let r := recordWith 2 F SQL.empty (Some f) in
  (rr_err r = Some FailedInsert /\ rr_count r = 3
   /\ SQL.txs (rr_db r)
      = [SQL.TxDone;
         SQL.TxOpen [SQL.mkRow 42 (str "2023-08-14T10:00:00Z") (str "login")
                               (str "{}")]])
  /\ exists finished staged,
       SQL.txs (rr_db r) = finished ++ [SQL.TxOpen staged]
       /\ Forall (fun t => txDone t = true) finished
       /\ length staged = rr_count r mod 2.
Proof.
  cbv zeta. split; [vm_compute; auto|].
  apply (X15_open_transactions 2
           (SQL.mkFaults (fun _ => false) (fun n => Nat.eqb n 3)
                         (fun _ => false))
           SQL.empty
           (mkStream (repeat (str "2023-08-14T10:00:00Z | 42 | login | {}") 5)
                     false)).
  - lia.
  - constructor.
  - left. vm_compute. reflexivity.
  - vm_compute. lia.
Defined.

(** ** Where [Query] stops *)

Section QueryStops.

Variable F : SQL.QueryFaults.

(** The loop stops at the first row it cannot scan or whose timestamp
  does not parse. *)
Lemma queryLoop_stop (rows : list SQL.Row) :
forall count out count' out' e,
  queryLoop F rows count out = (count', out', e) ->
  exists k,
    count' = count + k
    /\ k <= length rows
    /\ match e with
       | None => k = length rows
       | Some ScanFailed =>
           k < length rows /\ SQL.scan_fails F count' = true
       | Some BadStoredTimestamp =>
           exists row, nth_error rows k = Some row
                       /\ Time.Parse (SQL.timestamp row) = None
       | Some _ => False
       end.
Proof.
induction rows as [|r rows IH]; intros count out count' out' e H.
- simpl in H. inversion H; subst. exists 0. simpl. auto with arith.
- cbn [queryLoop] in H.
  destruct (SQL.scan_fails F count) eqn:Es.
  { inversion H; subst. exists 0. rewrite Nat.add_0_r. simpl.
    repeat split; auto with arith. }
  destruct (Time.Parse (SQL.timestamp r)) as [t|] eqn:Ep.
  + apply IH in H as (k & -> & Hk & He).
    exists (S k). split; [lia|]. split; [simpl; lia|].
    destruct e as [[]|]; try contradiction.
    * destruct He as [Hlt Hf]. split; [simpl; lia|].
      replace (count + S k) with (S count + k) by lia. exact Hf.
    * exact He.
    * simpl. lia.
  + inversion H; subst. exists 0. rewrite Nat.add_0_r.
    split; [reflexivity|]. split; [simpl; lia|].
    exists r. split; [reflexivity|exact Ep].
Qed.

Lemma firstn_firstn_le {A} (k n : nat) (l : list A) :
k <= length (firstn n l) -> firstn k (firstn n l) = firstn k l.
Proof.
intros H. rewrite firstn_firstn. rewrite length_firstn in H.
f_equal. lia.
Qed.

Lemma nth_error_firstn_Some {A} (k n : nat) (l : list A) (x : A) :
nth_error (firstn n l) k = Some x -> nth_error l k = Some x.
Proof.
revert k l. induction n as [|n IH]; intros k l H.
- destruct k; discriminate.
- destruct l as [|a l]; [destruct k; discriminate|].
  destruct k as [|k]; [exact H|]. simpl in *. apply IH. exact H.
Qed.

End QueryStops.

(** X16: what [Query] has done when it returns, whatever fails.  The
    count is the number of events printed; these are the events of the
    first [count] rows of the ordered selection, in order.  Without an
    error that is every selected row.  With the error of a stored
    timestamp that does not parse, the row after them is one whose
    timestamp [time.Parse] rejects: the query stops at the first such
    row and prints nothing after it. *)
Theorem X16_query_partial (F : SQL.QueryFaults) (db : SQL.DB) (u : Z)
  (f : QueryFilters) :
  let r := EventStore_Query F db u f in
  let rows := SQL.Select db (whereClause u f) in
  qr_count r = length (qr_printed r)
  /\ qr_count r <= length rows
  /\ Forall2 (fun row ev =>
                exists t, Time.Parse (SQL.timestamp row) = Some t
                          /\ ev = eventOf row t)
             (firstn (qr_count r) rows) (qr_events r)
  /\ (qr_err r = None -> qr_count r = length rows)
  /\ (qr_err r = Some BadStoredTimestamp ->
      exists row, nth_error rows (qr_count r) = Some row
                  /\ Time.Parse (SQL.timestamp row) = None).
Proof.
  cbv zeta. unfold qr_printed. rewrite length_map.
  unfold EventStore_Query.
  destruct (QueryFilters_Validate f).
  { cbn [qr_count qr_err qr_events length firstn].
    repeat split; try constructor; try discriminate; lia. }
  destruct (SQL.query_fails F).
  { cbn [qr_count qr_err qr_events length firstn].
    repeat split; try constructor; try discriminate; lia. }
  set (rows := SQL.Select db (whereClause u f)).
  set (delivered := match SQL.rows_err F with
                    | Some n => firstn n rows
                    | None => rows
                    end).
  assert (length delivered <= length rows) as Hdel.
  { unfold delivered. destruct (SQL.rows_err F); [|lia].
    rewrite length_firstn. lia. }
  assert (forall k, k <= length delivered ->
                    firstn k delivered = firstn k rows) as Hpre.
  { unfold delivered. destruct (SQL.rows_err F); [|reflexivity].
    intros k. apply firstn_firstn_le. }
  assert (forall k x, nth_error delivered k = Some x ->
                      nth_error rows k = Some x) as Hnth.
  { unfold delivered. destruct (SQL.rows_err F) as [n|]; [|auto].
    intros k x. apply nth_error_firstn_Some. }
  destruct (queryLoop F delivered 0 []) as [[count out] e] eqn:Hrun.
  pose proof (queryLoop_stop F _ _ _ _ _ _ Hrun) as (k' & Hc' & Hk' & He).
  apply queryLoop_spec in Hrun as (k & evs & Hout & Hc & Hlen & Hall & _).
  simpl in Hout, Hc, Hc'. subst out count k'.
  rewrite (Hpre k Hk') in Hall.
  destruct e as [err|].
  - cbn [qr_count qr_err qr_events].
    split; [symmetry; exact Hlen|]. split; [lia|]. split; [exact Hall|].
    split; [discriminate|].
    intros E. inversion E; subst err.
    destruct He as (row & Hrow & Hp). exists row. split; [|exact Hp].
    apply Hnth. exact Hrow.
  - assert (forall b : bool,
              (b = false -> k = length rows) ->
              let r := if b
                       then mkQueryResult k (Some RowsError) evs
                                          [whereClause u f]
                       else mkQueryResult k None evs [whereClause u f] in
              qr_count r = length (qr_events r)
              /\ qr_count r <= length rows
              /\ Forall2 (fun row ev =>
                            exists t, Time.Parse (SQL.timestamp row) = Some t
                                      /\ ev = eventOf row t)
                         (firstn (qr_count r) rows) (qr_events r)
              /\ (qr_err r = None -> qr_count r = length rows)
              /\ (qr_err r = Some BadStoredTimestamp ->
                  exists row, nth_error rows (qr_count r) = Some row
                              /\ Time.Parse (SQL.timestamp row) = None))
      as Hfin.
    { intros b Hb. destruct b; cbn [qr_count qr_err qr_events];
        (split; [symmetry; exact Hlen|]); (split; [lia|]);
        (split; [exact Hall|]); (split; [|discriminate]).
      - discriminate.
      - intros _. apply Hb. reflexivity. }
    unfold delivered in He.
    destruct (SQL.rows_err F) as [n|].
    + apply (Hfin (n <? length rows)). intros Hn.
      apply Nat.ltb_ge in Hn. rewrite He, firstn_all2 by exact Hn.
      reflexivity.
    + apply (Hfin false). intros _. exact He.
Qed.

(** ** The progress messages of [Record] *)

Section Progress.

Variable F : SQL.Faults.
Variable B : nat.
Hypothesis HB : 0 < B.

Lemma progressOf_Processed (out : list Msg) (n : nat) :
progressOf (out ++ [Processed n]) = progressOf out ++ [n].
Proof.
induction out as [|[] out IH]; simpl; rewrite ?IH; reflexivity.
Qed.

Lemma progressOf_Warning (out : list Msg) (e : DecodeError) :
progressOf (out ++ [Warning e]) = progressOf out.
Proof.
induction out as [|[] out IH]; simpl; rewrite ?IH; reflexivity.
Qed.

(** One message for each batch committed in the loop, with the count
  reached, a multiple of the threshold. *)
Lemma recordLoop_progress (ls : list gostring) :
forall st st' e,
  rs_batchSize st < B ->
  rs_count st = rs_commits st * B + rs_batchSize st ->
  recordLoop F B ls st = (st', e) ->
  exists c,
    progressOf (rs_out st')
    = progressOf (rs_out st)
      ++ map (fun k => k * B) (seq (S (rs_commits st)) c)
    /\ match e with
       | Some FailedCommitBatch =>
           rs_count st' = (rs_commits st + c + 1) * B
       | Some FailedBeginNew => rs_count st' = (rs_commits st + c) * B
       | _ => exists b, b < B
                        /\ rs_count st' = (rs_commits st + c) * B + b
       end.
Proof.
induction ls as [|line ls IH]; intros st st' e Hlt Hcount Hrun.
- simpl in Hrun. inversion Hrun; subst st' e.
  exists 0. simpl. rewrite app_nil_r, Nat.add_0_r.
  split; [reflexivity|]. exists (rs_batchSize st). auto.
- destruct line as [|ch line]; [exact (IH _ _ _ Hlt Hcount Hrun)|].
  cbn [recordLoop] in Hrun.
  destruct (ParseEvent (ch :: line)) as [event|err].
  + destruct (SQL.exec_fails F (rs_count st)).
    { inversion Hrun; subst st' e.
      exists 0. simpl. rewrite app_nil_r, Nat.add_0_r.
      split; [reflexivity|]. exists (rs_batchSize st). auto. }
    destruct (Nat.leb_spec B (S (rs_batchSize st))) as [Hfull|Hroom].
    * assert (S (rs_count st) = S (rs_commits st) * B) as Hnext
          by (simpl; lia).
      destruct (SQL.commit_fails F (rs_commits st)).
      { inversion Hrun; subst st' e. cbn [rs_out rs_count].
        exists 0. simpl. rewrite app_nil_r, Nat.add_0_r.
        split; [reflexivity|]. rewrite Hnext.
        replace (rs_commits st + 1) with (S (rs_commits st)) by lia.
        reflexivity. }
      destruct (SQL.begin_fails F (S (rs_commits st))).
      { inversion Hrun; subst st' e. cbn [rs_out rs_count].
        exists 1. rewrite progressOf_Processed, Hnext.
        split; [reflexivity|].
        replace (rs_commits st + 1) with (S (rs_commits st)) by lia.
        reflexivity. }
      destruct (SQL.Begin _) as [db3 tx3].
      apply IH in Hrun; cbn [rs_batchSize rs_count rs_commits];
        [|exact HB|lia].
      cbn [rs_out rs_commits] in Hrun.
      destruct Hrun as (c & Hout & He).
      exists (S c). rewrite Hout, progressOf_Processed, Hnext.
      split; [rewrite <- app_assoc; reflexivity|].
      replace (rs_commits st + S c) with (S (rs_commits st) + c) by lia.
      exact He.
    * apply IH in Hrun; cbn [rs_batchSize rs_count rs_commits];
        [exact Hrun|lia|lia].
  + apply IH in Hrun; cbn [rs_batchSize rs_count rs_commits]; try assumption.
    cbn [rs_out rs_commits] in Hrun. rewrite progressOf_Warning in Hrun.
    exact Hrun.
Qed.

End Progress.

(** X17: the progress messages of [Record].  Whatever fails, the
    counts of the "Processed ... events..." messages printed are the
    multiples [B], [2B], ... of the batch threshold, in order, one for
    each batch committed inside the loop: as many as the returned count
    holds whole batches, one fewer when it is the commit of a batch that
    failed.  The final commit prints no message. *)
Theorem X17_progress (B : nat) (F : SQL.Faults) (db : SQL.DB)
  (file : option Stream) :
  0 < B ->
  let r := recordWith B F db file in
  progressOf (rr_out r)
  = map (fun k => k * B)
        (seq 1 (match rr_err r with
                | Some FailedCommitBatch => rr_count r / B - 1
                | _ => rr_count r / B
                end)).
Proof.
  intros HB. cbv zeta. unfold recordWith.
  destruct file as [f|];
    [|cbn [rr_out rr_err rr_count]; rewrite Nat.Div0.div_0_l; reflexivity].
  destruct (SQL.begin_fails F 0);
    [cbn [rr_out rr_err rr_count]; rewrite Nat.Div0.div_0_l; reflexivity|].
  destruct (SQL.Begin db) as [db0 tx0].
  destruct (recordLoop F B (lines f) (mkRecordState db0 tx0 0 0 0 []))
    as [st e] eqn:Hrun.
  apply (recordLoop_progress F B HB) in Hrun;
    cbn [rs_batchSize rs_count rs_commits]; [|exact HB|lia].
  cbn [rs_out rs_commits progressOf app] in Hrun.
  destruct Hrun as (c & Hout & He). rewrite Nat.add_0_l in He.
  assert (forall b, b < B -> rs_count st = c * B + b ->
                    rs_count st / B = c) as Hdiv.
  { intros b Hb Hc. symmetry. apply (Nat.div_unique _ _ _ b); lia. }
  destruct e as [err|].
  - cbn [rr_out rr_err rr_count]. rewrite Hout.
    destruct err; try (destruct He as (b & Hb & Hc);
                       rewrite (Hdiv b Hb Hc); reflexivity).
    + rewrite He, Nat.div_mul by lia.
      replace (c + 1 - 1) with c by lia. reflexivity.
    + rewrite (Hdiv 0 HB) by lia. reflexivity.
  - destruct He as (b & Hb & Hc).
    destruct (read_error f);
      [|destruct (SQL.commit_fails F (rs_commits st))];
      cbn [rr_out rr_err rr_count]; rewrite Hout, (Hdiv b Hb Hc);
      reflexivity.
Qed.

Lemma X17_progress_witness :
  let f := mkStream (repeat (str "2023-08-14T10:00:00Z | 42 | login | {}") 7)
                    false in
  let r := recordWith 3 SQL.healthy SQL.empty (Some f) in
  progressOf (rr_out r) = [3; 6]
  /\ progressOf (rr_out r)
     = map (fun k => k * 3)
           (seq 1 (match rr_err r with
                   | Some FailedCommitBatch => rr_count r / 3 - 1
                   | _ => rr_count r / 3
                   end)).
Proof.
  cbv zeta. split; [vm_compute; reflexivity|].
  apply (X17_progress 3 SQL.healthy SQL.empty). lia.
Defined.

(** ** [Record] after [Record] *)

Section RecordTwice.

Lemma decoded_app (a b : list gostring) :
decoded (a ++ b) = decoded a ++ decoded b.
Proof.
induction a as [|line a IH]; [reflexivity|].
destruct line as [|c line]; [exact IH|].
cbn [app decoded]. destruct (ParseEvent (c :: line)); [|exact IH].
rewrite IH. reflexivity.
Qed.

(** A [Record] that returns no error has appended the rows of all the
  decoded events and counted them. *)
Lemma recordWith_success (B : nat) (F : SQL.Faults) (db : SQL.DB)
(f : Stream) :
0 < B ->
rr_err (recordWith B F db (Some f)) = None ->
SQL.table (rr_db (recordWith B F db (Some f)))
= SQL.table db ++ map rowOf (decoded (lines f))
/\ rr_count (recordWith B F db (Some f)) = length (decoded (lines f)).
Proof.
intros HB Hok.
destruct (recordWith_spec B HB F db f)
  as (bs & inflight & Hbs & Hrows & _ & _ & _ & Hsucc).
destruct (Hsucc Hok) as (-> & Hcount & _).
rewrite (table_app db bs _ Hbs).
rewrite app_nil_r, Hcount, firstn_all in Hrows. rewrite Hrows. auto.
Qed.

End RecordTwice.

(** X18: [Record] composes by appending, and it never merges or drops
    what is already stored.  With a store that does not fail, recording
    one file and then another leaves the same table as recording the two
    files as one, and the two counts add up to its count; recording the
    same file again stores every event again. *)
Theorem X18_record_compose (B : nat) (db : SQL.DB) (ls1 ls2 : list gostring) :
  0 < B ->
  let r1 := recordWith B SQL.healthy db (Some (mkStream ls1 false)) in
  let r2 := recordWith B SQL.healthy (rr_db r1) (Some (mkStream ls2 false)) in
  let r := recordWith B SQL.healthy db (Some (mkStream (ls1 ++ ls2) false)) in
  rr_err r2 = None
  /\ SQL.table (rr_db r2) = SQL.table (rr_db r)
  /\ rr_count r1 + rr_count r2 = rr_count r
  /\ SQL.table (rr_db r2)
     = SQL.table db ++ map rowOf (decoded ls1) ++ map rowOf (decoded ls2).
Proof.
  intros HB. cbv zeta.
  pose proof (recordWith_healthy B db ls1) as H1.
  pose proof (recordWith_healthy B db (ls1 ++ ls2)) as H.
  set (r1 := recordWith B SQL.healthy db (Some (mkStream ls1 false))) in *.
  pose proof (recordWith_healthy B (rr_db r1) ls2) as H2.
  destruct (recordWith_success B _ _ _ HB H1) as [T1 C1].
  destruct (recordWith_success B _ _ _ HB H2) as [T2 C2].
  destruct (recordWith_success B _ _ _ HB H) as [T C].
  fold r1 in T1, C1. cbn [lines] in *.
  split; [exact H2|].
  rewrite T2, T1, T, C1, C2, C, decoded_app, map_app, length_app, <- app_assoc.
  auto.
Qed.

Lemma X18_record_compose_witness :
  let ls := [str "2023-08-14T10:00:00Z | 42 | login | {}";
             str "2023-08-14T09:00:00Z | 7 | login | {}"] in
  let r1 := recordWith 2 SQL.healthy SQL.empty (Some (mkStream ls false)) in
  let r2 := recordWith 2 SQL.healthy (rr_db r1) (Some (mkStream ls false)) in
  let r := recordWith 2 SQL.healthy SQL.empty
             (Some (mkStream (ls ++ ls) false)) in
  rr_err r2 = None
  /\ SQL.table (rr_db r2) = SQL.table (rr_db r)
  /\ rr_count r1 + rr_count r2 = rr_count r
  /\ SQL.table (rr_db r2)
     = SQL.table SQL.empty ++ map rowOf (decoded ls) ++ map rowOf (decoded ls).
Proof.
  cbv zeta. apply X18_record_compose. lia.
Defined.
